(** * The pipeline graph of PipelineView.js

    A shallow embedding of the graph logic of
    [services/orchest-webserver/app/static/js/views/PipelineView.js]:
    the steps object of the React state, the cycle check
    ([willCreateCycle], [dfsWithSets]), the connection handlers
    ([makeConnection], [removeConnection], the mouse-up listener),
    [deleteStep], [validatePipelineJSON] and the JSON encoding
    ([encodeJSON], [decodeJSON]).

    Conventions of the embedding.
    - A JavaScript object used as a map is an association list in the order
      in which [for ... in] and [Object.keys] enumerate it.  Step uuids are
      not array indices, so that order is insertion order.
    - An array is a [list]; [push], [indexOf] and [splice] are written out.
    - A [Set] is the list of its elements in insertion order.
    - The steps are mutable objects owned by [this.state.steps]; the code
      never stores one step under two keys, so a write through
      [this.state.steps[k]] is a write to the entry of [k].
    - An uncaught [TypeError] (reading a property of [undefined]) ends the
      handler and leaves the state as it is at that point.
    - The cycle check, [makeConnection] and [removeConnection] touch the
      steps only, and are functions on the steps.
    - The component ([View]) has the steps together with the array
      [this.connections]: a wrapper is its two uuids and the identity of
      the object.  The handlers that look a wrapper up or read the
      document ([deleteStep], [deleteSelectedSteps], [initializePipeline],
      the listeners of a drag, [newStep], [savePipeline],
      [getPipelineJSON]) are functions on the component; [deleteStep]
      throws when a wrapper that it looks for is missing.
      [deleteStep_steps] and [mouseup_newConnection] are the parts of
      [deleteStep] and of the mouse-up listener that work on the steps.
      The geometry of the canvas is left out. *)

From Stdlib Require Import String Ascii List ZArith Bool Arith Lia Relations.
Import ListNotations.

Local Open Scope list_scope.

(** ** JavaScript values *)

(** Values that survive [JSON.parse(JSON.stringify(v))] unchanged.  Numbers
    are only copied by the functions below, never computed with. *)
#[local] Unset Elimination Schemes.
Inductive JSON : Type :=
| JNull
| JBool (b : bool)
| JNum (z : Z)
| JStr (s : string)
| JArr (l : list JSON)
| JObj (l : list (string * JSON)).
#[local] Set Elimination Schemes.

(** ** Objects as ordered maps *)

Module JsObject.
Section Obj.
Context {V : Type}.

Definition t := list (string * V).

(** [Object.keys(o)], the order of [for (let k in o)]. *)
Definition keys (o : t) : list string := map fst o.

(** [o[k]]; [None] stands for [undefined]. *)
Fixpoint get (k : string) (o : t) : option V :=
  match o with
  | [] => None
  | (k', v) :: o' => if String.eqb k' k then Some v else get k o'
  end.

(** [o[k] = v]: an existing key keeps its place, a new key goes last. *)
Fixpoint set (k : string) (v : V) (o : t) : t :=
  match o with
  | [] => [(k, v)]
  | (k', v') :: o' =>
      if String.eqb k' k then (k', v) :: o' else (k', v') :: set k v o'
  end.

(** [delete o[k]]. *)
Definition remove (k : string) (o : t) : t :=
  filter (fun e => negb (String.eqb (fst e) k)) o.

(** [o.hasOwnProperty(k)]. *)
Definition hasOwnProperty (k : string) (o : t) : bool :=
  match get k o with Some _ => true | None => false end.
End Obj.
Arguments t : clear implicits.
End JsObject.

(** ** Arrays of strings *)

Module JsArray.
(** [l.indexOf(x)], [-1] when [x] is absent. *)
Fixpoint indexOf_from (i : Z) (x : string) (l : list string) : Z :=
  match l with
  | [] => (-1)%Z
  | y :: l' => if String.eqb y x then i else indexOf_from (i + 1)%Z x l'
  end.

Definition indexOf (x : string) (l : list string) : Z := indexOf_from 0%Z x l.

(** [l.push(x)]: the new array and the returned new length. *)
Definition push (x : string) (l : list string) : list string * Z :=
  (l ++ [x], Z.of_nat (length (l ++ [x]))).

(** [l.splice(start, deleteCount)]; a negative [start] counts from the
    end and a [start] past the end is the end. *)
Definition splice (start : Z) (deleteCount : nat) (l : list string)
  : list string :=
  let len := Z.of_nat (length l) in
  let s := if (start <? 0)%Z then Z.max (len + start) 0 else Z.min start len in
  firstn (Z.to_nat s) l ++ skipn (Z.to_nat s + deleteCount) l.
End JsArray.

(** ** Sets of strings *)

Module JsSet.
Definition t := list string.

Definition has (x : string) (s : t) : bool :=
  existsb (String.eqb x) s.

Definition add (x : string) (s : t) : t :=
  if has x s then s else s ++ [x].

Definition delete (x : string) (s : t) : t :=
  filter (fun y => negb (String.eqb x y)) s.

(** [new Set(array)]. *)
Definition of_list (l : list string) : t :=
  fold_left (fun s x => add x s) l [].

End JsSet.

(** ** Steps *)

Record Step : Type := mkStep {
  uuid : string;
  title : string;
  file_path : string;
  incoming_connections : list string;
  (** absent until the first cycle check writes it *)
  outgoing_connections : option (list string);
  environment : string;
  kernel : JSON;
  parameters : JSON;
  meta_data : JsObject.t JSON
}.

Definition with_incoming (l : list string) (s : Step) : Step :=
  mkStep (uuid s) (title s) (file_path s) l (outgoing_connections s)
         (environment s) (kernel s) (parameters s) (meta_data s).

Definition with_outgoing (o : option (list string)) (s : Step) : Step :=
  mkStep (uuid s) (title s) (file_path s) (incoming_connections s) o
         (environment s) (kernel s) (parameters s) (meta_data s).

Definition with_meta_data (m : JsObject.t JSON) (s : Step) : Step :=
  mkStep (uuid s) (title s) (file_path s) (incoming_connections s)
         (outgoing_connections s) (environment s) (kernel s) (parameters s) m.

(** [this.state.steps] *)
Definition Steps : Type := JsObject.t Step.

(** ** Handlers: state, result, uncaught exception *)

Inductive outcome (S A : Type) : Type :=
| Returned (a : A) (s : S)
| TypeError (s : S)
| OutOfFuel.
Arguments Returned {S A} a s.
Arguments TypeError {S A} s.
Arguments OutOfFuel {S A}.

Definition M (S A : Type) : Type := S -> outcome S A.

Definition ret {S A} (a : A) : M S A := fun s => Returned a s.

Definition bind {S A B} (m : M S A) (f : A -> M S B) : M S B :=
  fun s =>
    match m s with
    | Returned a s' => f a s'
    | TypeError s' => TypeError s'
    | OutOfFuel => OutOfFuel
    end.

Definition throw {S A} : M S A := fun s => TypeError s.

Definition get_state {S} : M S S := fun s => Returned s s.

Declare Scope js_scope.
Delimit Scope js_scope with js.
Notation "x <- m ;; k" := (bind m (fun x => k))
  (at level 61, m at next level, right associativity) : js_scope.
Notation "m ;;; k" := (bind m (fun _ => k))
  (at level 61, right associativity) : js_scope.
Local Open Scope js_scope.

(** A [for] loop over an array whose body may throw. *)
Fixpoint for_each {S X} (l : list X) (body : X -> M S unit) : M S unit :=
  match l with
  | [] => ret tt
  | x :: l' => body x ;;; for_each l' body
  end.

(** [if (this.state.steps.hasOwnProperty(k)) body(k)] *)
Definition if_own (body : string -> M Steps unit) (k : string)
    : M Steps unit :=
  fun g => if JsObject.hasOwnProperty k g then body k g else Returned tt g.

(** [for (let k in this.state.steps) if (hasOwnProperty(k)) body(k)];
    the bodies below never add or delete a key. *)
Definition for_in_steps (body : string -> M Steps unit) : M Steps unit :=
  fun g => for_each (JsObject.keys g) (if_own body) g.

(** [this.state.steps[k]] where a property of it is read next. *)
Definition step_ref (k : string) : M Steps Step :=
  fun g =>
    match JsObject.get k g with
    | Some st => Returned st g
    | None => TypeError g
    end.

(** A write to a property of [this.state.steps[k]]. *)
Definition write_step (k : string) (st : Step) : M Steps unit :=
  fun g => Returned tt (JsObject.set k st g).

(** ** The cycle check *)

(** The white and grey sets of [dfsWithSets]; both are shared with the
    caller and mutated in place. *)
Definition Sets : Type := (JsSet.t * JsSet.t)%type.

(** [this.state.steps[k].outgoing_connections]; [None] when the step or
    the array is undefined. *)
Definition outgoing_of (steps : Steps) (k : string) : option (list string) :=
  match JsObject.get k steps with
  | Some st => outgoing_connections st
  | None => None
  end.

(** The [for] loop of [dfsWithSets] over the children of [step_uuid];
    [rec] is the recursive call.  The function returns [true] or falls off
    its end, which the callers read as false. *)
Fixpoint dfs_children (rec : string -> M Sets bool) (step_uuid : string)
    (children : list string) : M Sets bool :=
  fun sets =>
    match children with
    | [] => Returned false (fst sets, JsSet.delete step_uuid (snd sets))
    | child_uuid :: rest =>
        if JsSet.has child_uuid (fst sets) then
          match rec child_uuid sets with
          | Returned true sets' => Returned true sets'
          | Returned false sets' => dfs_children rec step_uuid rest sets'
          | TypeError sets' => TypeError sets'
          | OutOfFuel => OutOfFuel
          end
        else if JsSet.has child_uuid (snd sets) then Returned true sets
        else dfs_children rec step_uuid rest sets
    end.

(** [dfsWithSets(step_uuid, whiteSet, greySet)]: the step moves from white
    to grey, its children are searched, and it leaves the grey set unless a
    cycle was found. *)
Fixpoint dfsWithSets (fuel : nat) (steps : Steps) (step_uuid : string)
    : M Sets bool :=
  fun sets =>
    match fuel with
    | O => OutOfFuel
    | S fuel' =>
        let sets1 := (JsSet.delete step_uuid (fst sets),
                      JsSet.add step_uuid (snd sets)) in
        match outgoing_of steps step_uuid with
        | None => TypeError sets1
        | Some children =>
            dfs_children (dfsWithSets fuel' steps) step_uuid children sets1
        end
    end.

(** [while (whiteSet.size > 0)] of [willCreateCycle]. *)
Fixpoint dfs_loop (fuel : nat) (steps : Steps) (cycles : bool)
    : M Sets bool :=
  fun sets =>
    match fuel with
    | O => OutOfFuel
    | S fuel' =>
        match fst sets with
        | [] => Returned cycles sets
        | step_uuid :: _ =>
            match dfsWithSets fuel' steps step_uuid sets with
            | Returned found sets' =>
                dfs_loop fuel' steps (if found then true else cycles) sets'
            | TypeError sets' => TypeError sets'
            | OutOfFuel => OutOfFuel
            end
        end
    end.

(** Runs a computation on the local sets inside a handler on the steps. *)
Definition with_sets {A} (m : Steps -> M Sets A) (sets : Sets) : M Steps A :=
  fun g =>
    match m g sets with
    | Returned a _ => Returned a g
    | TypeError _ => TypeError g
    | OutOfFuel => OutOfFuel
    end.

(** [steps[k].outgoing_connections = []] *)
Definition reset_outgoing (step_uuid : string) : M Steps unit :=
  st <- step_ref step_uuid ;;
  write_step step_uuid (with_outgoing (Some []) st).

(** [steps[src].outgoing_connections.push(step_uuid)] *)
Definition push_outgoing (step_uuid src : string) : M Steps unit :=
  st <- step_ref src ;;
  match outgoing_connections st with
  | None => throw
  | Some out =>
      write_step src (with_outgoing (Some (fst (JsArray.push step_uuid out))) st)
  end.

(** The body of the loop that fills [outgoing_connections]: the step under
    [step_uuid] is pushed to every one of its sources. *)
Definition rebuild_outgoing (step_uuid : string) : M Steps unit :=
  st <- step_ref step_uuid ;;
  for_each (incoming_connections st) (push_outgoing step_uuid).

(** [willCreateCycle(startNodeUUID, endNodeUUID)].  [fuel] bounds the
    iterations of the [while] loop and the depth of the recursion. *)
Definition willCreateCycle (fuel : nat) (startNodeUUID endNodeUUID : string)
    : M Steps bool :=
  (* add connection temporarily *)
  endStep <- step_ref endNodeUUID ;;
  let pushed := JsArray.push startNodeUUID (incoming_connections endStep) in
  let insertIndex := (snd pushed - 1)%Z in
  write_step endNodeUUID (with_incoming (fst pushed) endStep) ;;;
  for_in_steps reset_outgoing ;;;
  for_in_steps rebuild_outgoing ;;;
  steps <- get_state ;;
  let whiteSet : JsSet.t := JsSet.of_list (JsObject.keys steps) in
  let greySet : JsSet.t := [] in
  cycles <- with_sets (fun g => dfs_loop fuel g false) (whiteSet, greySet) ;;
  (* remove temp connection *)
  endStep' <- step_ref endNodeUUID ;;
  write_step endNodeUUID
    (with_incoming (JsArray.splice insertIndex 1 (incoming_connections endStep'))
       endStep') ;;;
  ret cycles.

(** ** Connections *)

(** [makeConnection(source, target)], the [onConnect] callback of a step. *)
Definition makeConnection (sourcePipelineStepUUID targetPipelineStepUUID : string)
    : M Steps unit :=
  target <- step_ref targetPipelineStepUUID ;;
  if (JsArray.indexOf sourcePipelineStepUUID (incoming_connections target)
      =? -1)%Z
  then
    write_step targetPipelineStepUUID
      (with_incoming
         (fst (JsArray.push sourcePipelineStepUUID (incoming_connections target)))
         target)
  else ret tt.

(** [removeConnection(source, target)]. *)
Definition removeConnection (sourcePipelineStepUUID targetPipelineStepUUID : string)
    : M Steps unit :=
  target <- step_ref targetPipelineStepUUID ;;
  let connectionIndex :=
    JsArray.indexOf sourcePipelineStepUUID (incoming_connections target) in
  if negb (connectionIndex =? -1)%Z then
    write_step targetPipelineStepUUID
      (with_incoming
         (JsArray.splice connectionIndex 1 (incoming_connections target))
         target)
  else ret tt.

(** The two alerts of the mouse-up listener, under the names the
    specification gives to the errors of [connect]. *)
Inductive Alert : Type :=
| CycleError
  (** "Connecting this step will create a cycle in your pipeline which is
      not supported." *)
| DuplicateConnectionError
  (** "These steps are already connected. No new connection has been
      created." *).

(** What the listener did: whether it called [onConnect], and its alerts. *)
Record ConnectResult : Type := mkConnectResult {
  connected : bool;
  alerts : list Alert
}.

(** The [mouseup.initializePipeline] listener while [this.newConnection] is
    set: a drag that started on the outgoing dot of step [startNodeUUID] is
    released over step [endNodeUUID];
    [dragEndedInIcomingConnectionsElement] tells whether it was released on
    the incoming dot.  [this.refManager.refs[endNodeUUID].props.step] is the
    step object [this.state.steps[endNodeUUID]] that [render] passed. *)
Definition mouseup_newConnection (fuel : nat)
    (dragEndedInIcomingConnectionsElement : bool)
    (startNodeUUID endNodeUUID : string) : M Steps ConnectResult :=
  noConnectionExists <-
    (if dragEndedInIcomingConnectionsElement then
       endStep <- step_ref endNodeUUID ;;
       ret (JsArray.indexOf startNodeUUID (incoming_connections endStep)
            =? -1)%Z
     else ret true) ;;
  connectionCreatesCycle <-
    (if noConnectionExists && dragEndedInIcomingConnectionsElement then
       willCreateCycle fuel startNodeUUID endNodeUUID
     else ret false) ;;
  let cycleAlert := if connectionCreatesCycle then [CycleError] else [] in
  if dragEndedInIcomingConnectionsElement && noConnectionExists
     && negb connectionCreatesCycle
  then
    makeConnection startNodeUUID endNodeUUID ;;;
    ret (mkConnectResult true cycleAlert)
  else
    ret (mkConnectResult false
           (cycleAlert ++
            if negb noConnectionExists then [DuplicateConnectionError] else [])).

(** [connect(source, target)] of the specification: the listener for a drag
    released on the incoming dot of the target. *)
Definition connect (fuel : nat) (sourceUuid targetUuid : string)
    : M Steps ConnectResult :=
  mouseup_newConnection fuel true sourceUuid targetUuid.

(** ** Deleting a step *)

(** What the body of the first loop of [deleteStep] writes to the steps at
    the step under [key]; the three lines on the wrapper of the connection
    are in [View.strip_connection]. *)
Definition strip_connection (uuid key : string) : M Steps unit :=
  step <- step_ref key ;;
  let connectionIndex := JsArray.indexOf uuid (incoming_connections step) in
  if negb (connectionIndex =? -1)%Z then
    write_step key
      (with_incoming
         (JsArray.splice connectionIndex 1 (incoming_connections step)) step)
  else ret tt.

(** The reads and writes of [deleteStep(uuid)] on [this.state.steps] alone.
    This is not the function: [deleteStep] also looks up the wrapper of
    every connection that it removes and throws at [connection.remove()]
    when there is none, before the step is deleted.  The function is
    [View.deleteStep]; the part here is what it is compared with, and what
    it does to the steps when it finds every wrapper. *)
Definition deleteStep_steps (uuid : string) : M Steps unit :=
  for_in_steps (strip_connection uuid) ;;;
  _ <- step_ref uuid ;;
  fun g => Returned tt (JsObject.remove uuid g).

(** ** Validation *)

(** The values of an object in the order of [for ... in]. *)
Definition own_values {V} (o : JsObject.t V) : list V :=
  flat_map (fun k => match JsObject.get k o with
                     | Some v => [v]
                     | None => []
                     end) (JsObject.keys o).

Record PipelineValidation : Type := mkPipelineValidation {
  valid : bool;
  errors : list string
}.

Definition validation_error (step otherStep : Step) : string :=
  ("Pipeline step " ++ String (Ascii.ascii_of_nat 34) (title step)
   ++ String (Ascii.ascii_of_nat 34) " (" ++ uuid step
   ++ ") has the same Notebook assigned as pipeline step "
   ++ String (Ascii.ascii_of_nat 34) (title otherStep)
   ++ String (Ascii.ascii_of_nat 34) " (" ++ uuid otherStep
   ++ "). Assigning the same Notebook file to multiple steps is not supported. Please convert to a script to re-use file across pipeline steps.")%string.

(** The inner loop: the first other step with the file of [step]. *)
Fixpoint first_sharing (step : Step) (others : list Step) : option Step :=
  match others with
  | [] => None
  | otherStep :: rest =>
      if String.eqb (uuid step) (uuid otherStep) then first_sharing step rest
      else if String.eqb (file_path otherStep) (file_path step)
           then Some otherStep
           else first_sharing step rest
  end.

Section Validate.
(** [extensionFromFilename] of [lib/utils/all], which is not part of the
    sources at hand. *)
Variable extensionFromFilename : string -> string.

(** The labelled outer loop; [break outerLoop] ends it at the first error. *)
Fixpoint validate_loop (all remaining : list Step) : PipelineValidation :=
  match remaining with
  | [] => mkPipelineValidation true []
  | step :: rest =>
      if String.eqb (extensionFromFilename (file_path step)) "ipynb" then
        match first_sharing step all with
        | Some otherStep =>
            mkPipelineValidation false [validation_error step otherStep]
        | None => validate_loop all rest
        end
      else validate_loop all rest
  end.

(** [validatePipelineJSON(pipelineJSON)], on [pipelineJSON.steps]: both
    loops run over the steps of the document in the order of [for ... in]. *)
Definition validatePipelineJSON (pipelineJSON_steps : Steps)
    : PipelineValidation :=
  validate_loop (own_values pipelineJSON_steps) (own_values pipelineJSON_steps).
End Validate.

(** ** Encoding and decoding *)

(** A pipeline document: its steps and its other properties. *)
Record PipelineJSON : Type := mkPipelineJSON {
  pj_other : JsObject.t JSON;
  pj_steps : Steps
}.

(** The part of [this.state] the encoding reads and writes, once a document
    has been loaded. *)
Record State : Type := mkState {
  steps : Steps;
  pipelineJson : PipelineJSON
}.

(** [key[0] === "_"] *)
Definition is_private (key : string) : bool :=
  match key with
  | String c _ => Ascii.eqb c "_"%char
  | EmptyString => false
  end.

(** The loop over [Object.keys(step.meta_data)] that deletes private keys. *)
Definition strip_private (meta : JsObject.t JSON) : JsObject.t JSON :=
  fold_left (fun m key => if is_private key then JsObject.remove key m else m)
            (JsObject.keys meta) meta.

(** The body of the loop of [encodeJSON] for one step; the deep copy
    [JSON.parse(JSON.stringify(step))] of a step is the step. *)
Definition encode_step (step : Step) : Step :=
  let step := with_meta_data (strip_private (meta_data step)) step in
  match outgoing_connections step with
  | Some _ => with_outgoing None step
  | None => step
  end.

(** [encodeJSON()]: a copy of [this.state.pipelineJson] whose steps are
    rebuilt from [this.state.steps], each under its own uuid. *)
Definition encodeJSON (st : State) : PipelineJSON :=
  mkPipelineJSON (pj_other (pipelineJson st))
    (fold_left
       (fun acc key =>
          match JsObject.get key (steps st) with
          | Some step =>
              let step := encode_step step in
              JsObject.set (uuid step) step acc
          | None => acc
          end)
       (JsObject.keys (steps st)) []).

(** [steps[key].meta_data._drag_count = 0; ..._dragged = false] *)
Definition runtime_defaults (step : Step) : Step :=
  with_meta_data
    (JsObject.set "_dragged" (JBool false)
       (JsObject.set "_drag_count" (JNum 0) (meta_data step)))
    step.

(** The loop of [decodeJSON] over the steps of the document. *)
Definition decode_steps (doc_steps : Steps) (steps0 : Steps) : Steps :=
  fold_left
    (fun acc key =>
       match JsObject.get key doc_steps with
       | Some step => JsObject.set key (runtime_defaults step) acc
       | None => acc
       end)
    (JsObject.keys doc_steps) steps0.

(** [decodeJSON(pipelineJson)]: the steps of the document are added to the
    steps of the state; the step objects are shared with the document, which
    therefore carries the runtime keys too. *)
Definition decodeJSON (doc : PipelineJSON) (st : State) : State :=
  mkState (decode_steps (pj_steps doc) (steps st))
          (mkPipelineJSON (pj_other doc)
             (decode_steps (pj_steps doc) (pj_steps doc))).

(** The state a freshly constructed component starts from: [steps: {}]. *)
Definition fresh_state (doc : PipelineJSON) : State := mkState [] doc.

(** ** The graph of a steps object *)

(** [u] is a source of [v]: the connection drawn from [u] to [v]. *)
Definition edge (g : Steps) (u v : string) : Prop :=
  exists sv, JsObject.get v g = Some sv /\ In u (incoming_connections sv).

(** A path of at least one connection. *)
Definition path (g : Steps) : string -> string -> Prop :=
  clos_trans string (edge g).

Definition cyclic (g : Steps) : Prop := exists x, path g x x.

Definition acyclic (g : Steps) : Prop := forall x, ~ path g x x.

(** Every uuid of an [incoming_connections] array is a key of the steps. *)
Definition closed (g : Steps) : Prop :=
  forall k st x,
    JsObject.get k g = Some st -> In x (incoming_connections st) ->
    JsObject.get x g <> None.

(** The steps with the connection from [source] to [target] added. *)
Definition add_edge (source target : string) (g : Steps) : Steps :=
  match JsObject.get target g with
  | Some st =>
      JsObject.set target
        (with_incoming (incoming_connections st ++ [source]) st) g
  | None => g
  end.

(** The steps with one function applied to every step. *)
Definition map_values {V W} (f : V -> W) (o : JsObject.t V) : JsObject.t W :=
  map (fun e => (fst e, f (snd e))) o.

(** A step without its derived [outgoing_connections]. *)
Definition erase_outgoing (st : Step) : Step := with_outgoing None st.

(** The array without the first occurrence of [x]. *)
Fixpoint remove_first (x : string) (l : list string) : list string :=
  match l with
  | [] => []
  | y :: l' => if String.eqb y x then l' else y :: remove_first x l'
  end.

(** ** The search seen as a graph traversal *)

(** [v] is a child of [u] in the [outgoing_connections] the search reads. *)
Definition child_of (steps : Steps) (u v : string) : Prop :=
  exists cs, outgoing_of steps u = Some cs /\ In v cs.

(** No step is white and grey at once. *)
Definition disjoint_sets (w g : JsSet.t) : Prop :=
  forall x, In x w -> ~ In x g.

(** The black steps, neither white nor grey, are closed under [child_of]
    and none of them lies on a cycle. *)
Definition black_closed (steps : Steps) (w g : JsSet.t) : Prop :=
  (forall b c, ~ In b w -> ~ In b g -> child_of steps b c ->
               ~ In c w /\ ~ In c g) /\
  (forall b, ~ In b w -> ~ In b g -> ~ clos_trans string (child_of steps) b b).

(** Two states of the steps that differ at most in the derived
    [outgoing_connections] of their steps. *)
Definition same_but_outgoing (g' g : Steps) : Prop :=
  map_values erase_outgoing g' = map_values erase_outgoing g.

(** [this.state.steps[k].incoming_connections], if the step exists. *)
Definition incoming_of (g : Steps) (k : string) : option (list string) :=
  option_map incoming_connections (JsObject.get k g).

(** Every step carries an [outgoing_connections] array. *)
Definition all_outgoing (g : Steps) : Prop :=
  forall k st, JsObject.get k g = Some st -> outgoing_connections st <> None.

(** A step without the first occurrence of [u] among its sources. *)
Definition without_source (u : string) (st : Step) : Step :=
  with_incoming (remove_first u (incoming_connections st)) st.

(** The array without every occurrence of [u]. *)
Definition without_all (u : string) (l : list string) : list string :=
  filter (fun x => negb (String.eqb x u)) l.

(** Steps [s] and [o] of a document are two different steps on the same
    notebook; [extension] stands for [extensionFromFilename]. *)
Definition notebook_conflict (extension : string -> string) (doc : Steps)
    (s o : Step) : Prop :=
  In s (own_values doc) /\ In o (own_values doc)
  /\ extension (file_path s) = "ipynb"%string
  /\ uuid s <> uuid o /\ file_path o = file_path s.

(** [text.includes(part)]: [part] occurs in [text]. *)
Fixpoint includes (part text : string) : bool :=
  String.prefix part text
  || match text with
     | EmptyString => false
     | String _ rest => includes part rest
     end.

(** A message names a step when the title and the uuid of the step occur
    in it. *)
Definition names_step (message : string) (s : Step) : Prop :=
  includes (title s) message = true /\ includes (uuid s) message = true.

(** A step after [encodeJSON] and [decodeJSON]. *)
Definition reloaded (s : Step) : Step := runtime_defaults (encode_step s).

(** ** Sequences of connections *)

(** [connected_by g g']: the listener has made zero or more connections,
    one after the other, and taken the steps from [g] to [g']. *)
Inductive connected_by : Steps -> Steps -> Prop :=
| no_connection g : connected_by g g
| one_more_connection g g1 g2 fuel sourceUuid targetUuid alerts :
    connect fuel sourceUuid targetUuid g
    = Returned (mkConnectResult true alerts) g1 ->
    connected_by g1 g2 ->
    connected_by g g2.

(** [closed], as a test. *)
Definition closedb (g : Steps) : bool :=
  forallb
    (fun e => forallb (fun x => JsObject.hasOwnProperty x g)
                      (incoming_connections (snd e)))
    g.

(** ** Naming a step *)

Definition with_title (t : string) (s : Step) : Step :=
  mkStep (uuid s) t (file_path s) (incoming_connections s)
         (outgoing_connections s) (environment s) (kernel s) (parameters s)
         (meta_data s).

Definition with_file_path (p : string) (s : Step) : Step :=
  mkStep (uuid s) (title s) p (incoming_connections s)
         (outgoing_connections s) (environment s) (kernel s) (parameters s)
         (meta_data s).

(** [stepNameUpdate(pipelineStepUUID, title, file_path)], the
    [onNameUpdate] callback of the details pane. *)
Definition stepNameUpdate (pipelineStepUUID title file_path : string)
    : M Steps unit :=
  step <- step_ref pipelineStepUUID ;;
  write_step pipelineStepUUID (with_title title step) ;;;
  step <- step_ref pipelineStepUUID ;;
  write_step pipelineStepUUID (with_file_path file_path step).

(** ** Steps that the handlers keep consistent *)

(** Every step is stored under its own uuid. *)
Definition keyed (g : Steps) : Prop :=
  forall k st, JsObject.get k g = Some st -> uuid st = k.

(** No [incoming_connections] array names a step twice. *)
Definition no_duplicates (g : Steps) : Prop :=
  forall k st, JsObject.get k g = Some st -> NoDup (incoming_connections st).

Definition well_formed (g : Steps) : Prop :=
  keyed g /\ closed g /\ no_duplicates g.

(** ** The connections drawn on the canvas *)

(** A [ConnectionDOMWrapper], as far as the handlers read it: the uuids are
    the [data-uuid] attributes of the steps that its two dots belong to, and
    the end is undefined while the connection is being dragged.
    [object_id] stands for the identity of the object, which [indexOf]
    compares. *)
Record ConnectionDOMWrapper : Type := mkConnectionDOMWrapper {
  object_id : nat;
  startNodeUUID : string;
  endNodeUUID : option string
}.

Module Wrappers.
(** [connections.indexOf(connection)]; [connection] may be undefined, which
    no element of the array is. *)
Fixpoint indexOf_from (i : Z) (c : ConnectionDOMWrapper)
    (l : list ConnectionDOMWrapper) : Z :=
  match l with
  | [] => (-1)%Z
  | c' :: l' =>
      if Nat.eqb (object_id c') (object_id c) then i
      else indexOf_from (i + 1)%Z c l'
  end.

Definition indexOf (connection : option ConnectionDOMWrapper)
    (l : list ConnectionDOMWrapper) : Z :=
  match connection with
  | Some c => indexOf_from 0%Z c l
  | None => (-1)%Z
  end.

(** [connections.splice(start, deleteCount)], as [JsArray.splice]. *)
Definition splice (start : Z) (deleteCount : nat)
    (l : list ConnectionDOMWrapper) : list ConnectionDOMWrapper :=
  let len := Z.of_nat (length l) in
  let s := if (start <? 0)%Z then Z.max (len + start) 0 else Z.min start len in
  firstn (Z.to_nat s) l ++ skipn (Z.to_nat s + deleteCount) l.

(** The test of the loop of [getConnectionByUUIDs]. *)
Definition joins (start_uuid end_uuid : string) (c : ConnectionDOMWrapper)
    : bool :=
  String.eqb (startNodeUUID c) start_uuid
  && match endNodeUUID c with
     | Some e => String.eqb e end_uuid
     | None => false
     end.

(** [connection.setEndNode(endNodeJEl)] on the object [id], wherever the
    array holds it. *)
Definition setEndNode (id : nat) (end_uuid : string)
    (l : list ConnectionDOMWrapper) : list ConnectionDOMWrapper :=
  map (fun c => if Nat.eqb (object_id c) id
                then mkConnectionDOMWrapper (object_id c) (startNodeUUID c)
                       (Some end_uuid)
                else c) l.
End Wrappers.

(** ** New steps *)

(** An entry of the list of environments that the server sends. *)
Record Environment : Type := mkEnvironment {
  environment_uuid : string;
  environment_name : string
}.

(** The step that [newStep] creates. *)
Definition new_step (uuidv4 : string) (result : list Environment) : Step :=
  let environmentUUID :=
    match result with e :: _ => environment_uuid e | [] => ""%string end in
  let environmentName :=
    match result with e :: _ => environment_name e | [] => ""%string end in
  mkStep uuidv4 "" "" [] None environmentUUID
    (JObj [("name", JStr "python"); ("display_name", JStr environmentName)]%string)
    (JObj [])
    [("position", JArr [JNum 0; JNum 0]);
     ("_dragged", JBool false);
     ("_drag_count", JNum 0);
     ("hidden", JBool true)]%string.

(** ** The component *)

(** The fields of the component that the handlers below read and write:
    [this.state.steps], [this.state.pipelineJson] (undefined until
    [decodeJSON] has run), [this.state.selectedSteps],
    [this.state.openedStep], [this.state.openedMultistep] (undefined or true),
    [this.state.unsavedChanges], [this.connections], [this.newConnection]
    and [this.initializedPipeline]; [created] counts the wrappers
    constructed so far and names the next one.

    [this.setState] is taken to update [this.state] at once, as it does in
    a listener bound with jQuery and in the callback of a promise; where a
    handler is also called from a React event, it reads no field after it
    has passed it to [setState], so that a deferred update ends in the same
    state. *)
Module View.
Record t : Type := mk {
  steps : Steps;
  pipelineJson : option PipelineJSON;
  selectedSteps : list string;
  openedStep : option string;
  openedMultistep : bool;
  unsavedChanges : bool;
  connections : list ConnectionDOMWrapper;
  newConnection : option ConnectionDOMWrapper;
  initializedPipeline : bool;
  created : nat
}.

Definition with_steps (g : Steps) (v : t) : t :=
  mk g (pipelineJson v) (selectedSteps v) (openedStep v) (openedMultistep v)
     (unsavedChanges v) (connections v) (newConnection v)
     (initializedPipeline v) (created v).

Definition with_pipelineJson (d : option PipelineJSON) (v : t) : t :=
  mk (steps v) d (selectedSteps v) (openedStep v) (openedMultistep v)
     (unsavedChanges v) (connections v) (newConnection v)
     (initializedPipeline v) (created v).

Definition with_selectedSteps (l : list string) (v : t) : t :=
  mk (steps v) (pipelineJson v) l (openedStep v) (openedMultistep v)
     (unsavedChanges v) (connections v) (newConnection v)
     (initializedPipeline v) (created v).

Definition with_openedStep (o : option string) (v : t) : t :=
  mk (steps v) (pipelineJson v) (selectedSteps v) o (openedMultistep v)
     (unsavedChanges v) (connections v) (newConnection v)
     (initializedPipeline v) (created v).

Definition with_openedMultistep (b : bool) (v : t) : t :=
  mk (steps v) (pipelineJson v) (selectedSteps v) (openedStep v) b
     (unsavedChanges v) (connections v) (newConnection v)
     (initializedPipeline v) (created v).

Definition with_unsavedChanges (b : bool) (v : t) : t :=
  mk (steps v) (pipelineJson v) (selectedSteps v) (openedStep v)
     (openedMultistep v) b (connections v) (newConnection v)
     (initializedPipeline v) (created v).

Definition with_connections (l : list ConnectionDOMWrapper) (v : t) : t :=
  mk (steps v) (pipelineJson v) (selectedSteps v) (openedStep v)
     (openedMultistep v) (unsavedChanges v) l (newConnection v)
     (initializedPipeline v) (created v).

Definition with_newConnection (c : option ConnectionDOMWrapper) (v : t) : t :=
  mk (steps v) (pipelineJson v) (selectedSteps v) (openedStep v)
     (openedMultistep v) (unsavedChanges v) (connections v) c
     (initializedPipeline v) (created v).

Definition with_initializedPipeline (b : bool) (v : t) : t :=
  mk (steps v) (pipelineJson v) (selectedSteps v) (openedStep v)
     (openedMultistep v) (unsavedChanges v) (connections v) (newConnection v)
     b (created v).

Definition with_created (n : nat) (v : t) : t :=
  mk (steps v) (pipelineJson v) (selectedSteps v) (openedStep v)
     (openedMultistep v) (unsavedChanges v) (connections v) (newConnection v)
     (initializedPipeline v) n.

(** The component as its constructor leaves it: no step and no
    document. *)
Definition constructed : t := mk [] None [] None false false [] None false 0.

(** The component as its constructor leaves it, once [decodeJSON] has
    loaded the document that the server sent. *)
Definition loaded (doc : PipelineJSON) : t :=
  match decodeJSON doc (fresh_state doc) with
  | mkState g d => mk g (Some d) [] None false false [] None false 0
  end.

(** A handler on [this.state.steps], run inside the component. *)
Definition on_steps {A} (m : M Steps A) : M t A :=
  fun v =>
    match m (steps v) with
    | Returned a g => Returned a (with_steps g v)
    | TypeError g => TypeError (with_steps g v)
    | OutOfFuel => OutOfFuel
    end.

(** [for (let key in this.state.steps) if (hasOwnProperty(key)) body(key)]
    where the body also touches the connections. *)
Definition for_in_steps (body : string -> M t unit) : M t unit :=
  fun v =>
    for_each (JsObject.keys (steps v))
      (fun key v' =>
         if JsObject.hasOwnProperty key (steps v') then body key v'
         else Returned tt v')
      v.

(** [getConnectionByUUIDs(startNodeUUID, endNodeUUID)]: the first wrapper
    between the two steps, or undefined. *)
Definition getConnectionByUUIDs (start_uuid end_uuid : string) (v : t)
    : option ConnectionDOMWrapper :=
  find (Wrappers.joins start_uuid end_uuid) (connections v).

(** The three lines that [deleteStep] has twice:
    [let connection = this.getConnectionByUUIDs(a, b);
     this.connections.splice(this.connections.indexOf(connection), 1);
     connection.remove();]
    The last one throws when there is no such wrapper, after the [splice]
    at index -1 has dropped the last element of the array. *)
Definition remove_connection (start_uuid end_uuid : string) : M t unit :=
  fun v =>
    let connection := getConnectionByUUIDs start_uuid end_uuid v in
    let v' :=
      with_connections
        (Wrappers.splice (Wrappers.indexOf connection (connections v)) 1
           (connections v)) v in
    match connection with
    | Some _ => Returned tt v'
    | None => TypeError v'
    end.

(** The body of the first loop of [deleteStep] at the step under [key]. *)
Definition strip_connection (deleted key : string) : M t unit :=
  step <- on_steps (step_ref key) ;;
  let connectionIndex := JsArray.indexOf deleted (incoming_connections step) in
  if negb (connectionIndex =? -1)%Z then
    on_steps
      (write_step key
         (with_incoming
            (JsArray.splice connectionIndex 1 (incoming_connections step))
            step)) ;;;
    remove_connection deleted (uuid step)
  else ret tt.

(** [deleteStep(uuid)] with the wrappers of the connections. *)
Definition deleteStep (deleted : string) : M t unit :=
  for_in_steps (strip_connection deleted) ;;;
  step <- on_steps (step_ref deleted) ;;
  for_each (incoming_connections step)
    (fun source => remove_connection source deleted) ;;;
  fun v =>
    Returned tt
      (with_unsavedChanges true
         (with_steps (JsObject.remove deleted (steps v)) v)).

(** [closeMultistepView()], [closeDetailsView()], [selectStep(uuid)] *)
Definition closeMultistepView : M t unit :=
  fun v => Returned tt (with_openedMultistep false v).

Definition closeDetailsView : M t unit :=
  fun v => Returned tt (with_openedStep None v).

Definition selectStep (pipelineStepUUID : string) : M t unit :=
  fun v =>
    Returned tt
      (with_selectedSteps [pipelineStepUUID]
         (with_openedStep (Some pipelineStepUUID) v)).

(** [deleteSelectedSteps()], the handler of the Delete and Backspace keys
    and of the button of the multi-step pane. *)
Definition deleteSelectedSteps : M t unit :=
  closeMultistepView ;;;
  closeDetailsView ;;;
  (fun v => for_each (selectedSteps v) deleteStep v) ;;;
  fun v => Returned tt (with_selectedSteps [] v).

(** [createConnection(outgoingJEl, incomingJEl)]: the elements are given
    by the uuids of their steps; [incomingJEl] is undefined when a drag
    starts. *)
Definition createConnection (outgoingJEl : string)
    (incomingJEl : option string) : M t unit :=
  fun v =>
    let connection :=
      mkConnectionDOMWrapper (created v) outgoingJEl incomingJEl in
    let v1 :=
      with_created (S (created v))
        (with_connections (connections v ++ [connection]) v) in
    Returned tt
      (match incomingJEl with
       | Some _ => v1
       | None => with_newConnection (Some connection) v1
       end).

Section Dom.
(** Whether [$(pipelineStepsHolder).find(".pipeline-step[data-uuid='u']
    .outgoing-connections")] and its counterpart for
    [.incoming-connections] find an element; the elements are rendered by
    the [PipelineStep] component. *)
Variables outgoingEl incomingEl : string -> bool.

(** The body of the loop of [initializePipeline] at the step under [key]. *)
Definition draw_incoming (key : string) : M t unit :=
  step <- on_steps (step_ref key) ;;
  for_each (incoming_connections step)
    (fun startNodeUUID =>
       let endNodeUUID := uuid step in
       if outgoingEl startNodeUUID && incomingEl endNodeUUID
       then createConnection startNodeUUID (Some endNodeUUID)
       else ret tt).

(** [initializePipeline()], up to the registration of the listeners. *)
Definition initializePipeline : M t unit :=
  fun v =>
    if initializedPipeline v then Returned tt v
    else for_in_steps draw_incoming (with_initializedPipeline true v).
End Dom.

(** The [mousedown] listener on an outgoing dot, for the left button. *)
Definition mousedown_outgoing (step_uuid : string) : M t unit :=
  createConnection step_uuid None.

(** The [mouseup.initializePipeline] listener of
    [initializePipelineEditListeners]: [mouseup_newConnection] on the steps,
    then the wrapper that was being dragged gets its end or leaves the
    array. *)
Definition mouseup (fuel : nat) (dragEndedInIcomingConnectionsElement : bool)
    (endNodeUUID : string) : M t (list Alert) :=
  fun v =>
    match newConnection v with
    | Some c =>
        match mouseup_newConnection fuel dragEndedInIcomingConnectionsElement
                (startNodeUUID c) endNodeUUID (steps v) with
        | Returned r g =>
            let v1 := with_steps g v in
            let v2 :=
              if connected r then
                with_unsavedChanges true
                  (with_connections
                     (Wrappers.setEndNode (object_id c) endNodeUUID
                        (connections v1)) v1)
              else
                with_connections
                  (Wrappers.splice
                     (Wrappers.indexOf (Some c) (connections v1)) 1
                     (connections v1)) v1 in
            Returned (alerts r) (with_newConnection None v2)
        | TypeError g => TypeError (with_steps g v)
        | OutOfFuel => OutOfFuel
        end
    | None => Returned [] v
    end.

(** The callback of [newStep] for the list of environments, up to the
    timer that places the step; [uuidv4] is what [uuidv4()] returns. *)
Definition newStep (uuidv4 : string) (result : list Environment) : M t unit :=
  let step := new_step uuidv4 result in
  on_steps (write_step (uuid step) step) ;;;
  selectStep (uuid step).
End View.

(** ** The wrappers and the connections they draw *)

(** The pairs of steps between which a wrapper is drawn. *)
Definition drawn (l : list ConnectionDOMWrapper) : list (string * string) :=
  flat_map (fun c => match endNodeUUID c with
                     | Some e => [(startNodeUUID c, e)]
                     | None => []
                     end) l.

(** The wrappers are distinct objects made by [createConnection], no
    connection is drawn twice, and the connections drawn are those of the
    [incoming_connections] whose source exists. *)
Definition in_sync (v : View.t) : Prop :=
  NoDup (map object_id (View.connections v))
  /\ (forall c, In c (View.connections v) -> object_id c < View.created v)
  /\ NoDup (drawn (View.connections v))
  /\ forall s t,
       In (s, t) (drawn (View.connections v))
       <-> edge (View.steps v) s t /\ JsObject.get s (View.steps v) <> None.

(** A wrapper of a connection from or to the step [u]. *)
Definition touches (u : string) (c : ConnectionDOMWrapper) : bool :=
  match endNodeUUID c with
  | Some e => String.eqb (startNodeUUID c) u || String.eqb e u
  | None => false
  end.

(** What [initializePipeline] draws for the steps [g]. *)
Definition connections_to_draw (outgoingEl incomingEl : string -> bool)
    (g : Steps) : list (string * string) :=
  flat_map
    (fun step =>
       map (fun s => (s, uuid step))
           (filter (fun s => outgoingEl s && incomingEl (uuid step))
                   (incoming_connections step)))
    (own_values g).

(** The steps are stored under their uuids, none has a connection twice,
    and the wrappers draw their connections. *)
Definition consistent (v : View.t) : Prop :=
  keyed (View.steps v) /\ no_duplicates (View.steps v) /\ in_sync v.

(** The wrappers that [createConnection] makes, one after the other, for a
    list of connections, when [n] wrappers have been made before. *)
Fixpoint wrappers_from (n : nat) (l : list (string * string))
    : list ConnectionDOMWrapper :=
  match l with
  | [] => []
  | (s, e) :: l' => mkConnectionDOMWrapper n s (Some e) :: wrappers_from (S n) l'
  end.

(** ** Saving and running the pipeline *)

(** How a call of [savePipeline] ends: with the POST request for the
    document, with the alerts for the errors of the validation, with the
    error that it logs in read-only mode, or with the [SyntaxError] of
    [JSON.parse(JSON.stringify(this.state.pipelineJson))], the first line
    of [encodeJSON], which nothing catches, when no document has been
    loaded. *)
Inductive Saved : Type :=
| Posted (pipeline_json : PipelineJSON)
| Alerted (messages : list string)
| LoggedReadOnly
| ThrownSyntaxError.

Section Save.
Variable extensionFromFilename : string -> string.

(** [savePipeline(callback)]: how it ends and the component that it
    leaves; [readOnly] is [this.props.readOnly]. *)
Definition savePipeline (readOnly : bool) (v : View.t) : Saved * View.t :=
  if negb readOnly then
    match View.pipelineJson v with
    | Some pipelineJson =>
        let pipelineJSON := encodeJSON (mkState (View.steps v) pipelineJson) in
        let pipelineValidation :=
          validatePipelineJSON extensionFromFilename (pj_steps pipelineJSON) in
        if negb (valid pipelineValidation) then
          (Alerted (errors pipelineValidation), v)
        else
          (Posted pipelineJSON, View.with_unsavedChanges false v)
    | None => (ThrownSyntaxError, v)
    end
  else (LoggedReadOnly, v).
End Save.

(** [getPipelineJSON()], which [runStepUUIDs] sends as the definition of
    the pipeline: the document of the state, with the steps of the state
    stored in it as they are.  The assignment to
    [this.state.pipelineJson.steps] throws when no document has been
    loaded. *)
Definition getPipelineJSON : M View.t PipelineJSON :=
  fun v =>
    match View.pipelineJson v with
    | Some pipelineJson =>
        let d := mkPipelineJSON (pj_other pipelineJson) (View.steps v) in
        Returned d (View.with_pipelineJson (Some d) v)
    | None => TypeError v
    end.

(** A document as [encodeJSON] writes it: every step under its uuid,
    without [outgoing_connections] and without private keys in
    [meta_data]. *)
Definition persistent (doc_steps : Steps) : Prop :=
  NoDup (JsObject.keys doc_steps)
  /\ keyed doc_steps
  /\ forall k st, JsObject.get k doc_steps = Some st ->
       outgoing_connections st = None
       /\ forall key, In key (JsObject.keys (meta_data st)) ->
                      is_private key = false.

(** ** Consistency, as a test *)

Fixpoint nodupb {X} (eqb : X -> X -> bool) (l : list X) : bool :=
  match l with
  | [] => true
  | x :: l' => negb (existsb (eqb x) l') && nodupb eqb l'
  end.

Definition pair_eqb (p q : string * string) : bool :=
  String.eqb (fst p) (fst q) && String.eqb (snd p) (snd q).

Definition edgeb (g : Steps) (s t : string) : bool :=
  match JsObject.get t g with
  | Some st => existsb (String.eqb s) (incoming_connections st)
  | None => false
  end.

Definition keyedb (g : Steps) : bool :=
  forallb (fun e => String.eqb (uuid (snd e)) (fst e)) g.

Definition no_duplicatesb (g : Steps) : bool :=
  forallb (fun e => nodupb String.eqb (incoming_connections (snd e))) g.

Definition in_syncb (v : View.t) : bool :=
  let g := View.steps v in
  let ws := View.connections v in
  nodupb Nat.eqb (map object_id ws)
  && forallb (fun c => object_id c <? View.created v) ws
  && nodupb pair_eqb (drawn ws)
  && forallb (fun p => edgeb g (fst p) (snd p)
                       && JsObject.hasOwnProperty (fst p) g) (drawn ws)
  && forallb
       (fun k =>
          match JsObject.get k g with
          | Some st =>
              forallb (fun s => negb (JsObject.hasOwnProperty s g)
                                || existsb (pair_eqb (s, k)) (drawn ws))
                      (incoming_connections st)
          | None => true
          end)
       (JsObject.keys g).

Definition consistentb (v : View.t) : bool :=
  keyedb (View.steps v) && no_duplicatesb (View.steps v) && in_syncb v.

(** ** Example pipelines *)

Local Open Scope string_scope.

(** A step as [newStep] creates it, placed, named and connected. *)
Definition example_step (u file : string) (incoming : list string) : Step :=
  mkStep u u file incoming None "env"
    (JObj [("name", JStr "python"); ("display_name", JStr "Python 3")])
    (JObj [])
    [("position", JArr [JNum 0; JNum 0]);
     ("_dragged", JBool false);
     ("_drag_count", JNum 0);
     ("hidden", JBool false)].

(** Steps A, B and C without connections. *)
Definition example_abc : Steps :=
  [("A", example_step "A" "a.py" []);
   ("B", example_step "B" "b.py" []);
   ("C", example_step "C" "c.py" [])].

(** [example_abc] after [connect(A, B)] and [connect(B, C)]. *)
Definition example_abc_chained : Steps :=
  [("A", with_outgoing (Some ["B"]) (example_step "A" "a.py" []));
   ("B", with_outgoing (Some ["C"]) (example_step "B" "b.py" ["A"]));
   ("C", with_outgoing (Some []) (example_step "C" "c.py" ["B"]))].

(** The chain A -> B -> C. *)
Definition example_chain : Steps :=
  [("A", example_step "A" "a.py" []);
   ("B", example_step "B" "b.py" ["A"]);
   ("C", example_step "C" "c.py" ["B"])].

(** A -> B alone. *)
Definition example_ab : Steps :=
  [("A", example_step "A" "a.py" []);
   ("B", example_step "B" "b.py" ["A"])].

(** [example_ab] after [willCreateCycle(B, A)]. *)
Definition example_ab_checked : Steps :=
  [("A", with_outgoing (Some ["B"]) (example_step "A" "a.py" []));
   ("B", with_outgoing (Some ["A"]) (example_step "B" "b.py" ["A"]))].

(** A and B connected both ways. *)
Definition example_ab_both : Steps :=
  [("A", example_step "A" "a.py" ["B"]);
   ("B", example_step "B" "b.py" ["A"])].

(** Two separate pairs, P -> Q and R -> S. *)
Definition example_two_components : Steps :=
  [("P", example_step "P" "p.py" []);
   ("Q", example_step "Q" "q.py" ["P"]);
   ("R", example_step "R" "r.py" []);
   ("S", example_step "S" "s.py" ["R"])].

(** One step whose connection names a step that does not exist. *)
Definition example_dangling : Steps :=
  [("A", example_step "A" "a.py" ["ghost"])].

(** [example_dangling] when [willCreateCycle(A, A)] has thrown. *)
Definition example_dangling_thrown : Steps :=
  [("A", with_outgoing (Some []) (example_step "A" "a.py" ["ghost"; "A"]))].

(** A -> B where A also names a step that does not exist. *)
Definition example_ab_dangling : Steps :=
  [("A", example_step "A" "a.py" ["ghost"]);
   ("B", example_step "B" "b.py" ["A"])].

(** [example_ab_dangling] when [willCreateCycle(B, A)] has thrown. *)
Definition example_ab_dangling_thrown : Steps :=
  [("A", with_outgoing (Some []) (example_step "A" "a.py" ["ghost"; "B"]));
   ("B", with_outgoing (Some []) (example_step "B" "b.py" ["A"]))].

(** [example_chain] after [deleteStep(B)]. *)
Definition example_chain_without_B : Steps :=
  [("A", example_step "A" "a.py" []);
   ("C", example_step "C" "c.py" [])].

(** [example_dangling] when [deleteStep(ghost)] has thrown. *)
Definition example_dangling_stripped : Steps :=
  [("A", example_step "A" "a.py" [])].

(** An extension function for the examples: the text after the last
    dot of a file name. *)
Fixpoint after_last_dot (s : string) : option string :=
  match s with
  | EmptyString => None
  | String c rest =>
      match after_last_dot rest with
      | Some e => Some e
      | None => if Ascii.eqb c "."%char then Some rest else None
      end
  end.

Definition example_extension (s : string) : string :=
  match after_last_dot s with Some e => e | None => "" end.

(** Two steps on one notebook and two steps on one script. *)
Definition example_shared_notebook : Steps :=
  [("A", example_step "A" "train.ipynb" []);
   ("B", example_step "B" "train.ipynb" ["A"]);
   ("C", example_step "C" "plot.ipynb" ["B"])].

Definition example_shared_script : Steps :=
  [("A", example_step "A" "train.py" []);
   ("B", example_step "B" "train.py" ["A"])].

(** Two steps with titles of their own on one notebook, and the error of
    the validation for them. *)
Definition example_titled_notebooks : Steps :=
  [("u1", mkStep "u1" "Train" "train.ipynb" [] None "env" JNull (JObj []) []);
   ("u2", mkStep "u2" "Evaluate" "train.ipynb" ["u1"] None "env" JNull
            (JObj []) [])].

Definition example_titled_error : string :=
  "Pipeline step " ++ String (Ascii.ascii_of_nat 34) "Train"
  ++ String (Ascii.ascii_of_nat 34) " (u1)"
  ++ " has the same Notebook assigned as pipeline step "
  ++ String (Ascii.ascii_of_nat 34) "Evaluate"
  ++ String (Ascii.ascii_of_nat 34) " (u2)"
  ++ ". Assigning the same Notebook file to multiple steps is not supported."
  ++ " Please convert to a script to re-use file across pipeline steps.".

(** A state in the middle of a drag and after a cycle check. *)
Definition example_dragged_step : Step :=
  mkStep "B" "train" "train.py" ["A"] (Some ["C"]) "env" JNull (JObj [])
    [("position", JArr [JNum 12; JNum 7]);
     ("_dragged", JBool true);
     ("_drag_count", JNum 2);
     ("hidden", JBool false)].

Definition example_state : State :=
  mkState
    [("A", with_outgoing (Some ["B"]) (example_step "A" "a.py" []));
     ("B", example_dragged_step);
     ("C", with_outgoing (Some []) (example_step "C" "c.py" ["B"]))]
    (mkPipelineJSON [("name", JStr "pipeline"); ("version", JStr "1.0.0")] []).

(** [example_abc] after the connection from A to B has been made. *)
Definition example_abc_connected : Steps :=
  [("A", with_outgoing (Some ["B"]) (example_step "A" "a.py" []));
   ("B", with_outgoing (Some []) (example_step "B" "b.py" ["A"]));
   ("C", with_outgoing (Some []) (example_step "C" "c.py" []))].

(** [example_chain] after [removeConnection(A, B)]. *)
Definition example_chain_disconnected : Steps :=
  [("A", example_step "A" "a.py" []);
   ("B", example_step "B" "b.py" []);
   ("C", example_step "C" "c.py" ["B"])].

(** The document of the chain A -> B -> C. *)
Definition example_document : PipelineJSON :=
  mkPipelineJSON [("name", JStr "pipeline"); ("version", JStr "1.0.0")]
    example_chain.

(** The chain on the canvas, with B selected and opened. *)
Definition example_view : View.t :=
  View.mk example_chain (Some example_document) ["B"] (Some "B") false false
    [mkConnectionDOMWrapper 0 "A" (Some "B");
     mkConnectionDOMWrapper 1 "B" (Some "C")]
    None true 2.

(** [example_view] after a drag from the outgoing dot of A to the incoming
    dot of C. *)
Definition example_view_dragged : View.t :=
  View.mk
    [("A", with_outgoing (Some ["B"; "C"]) (example_step "A" "a.py" []));
     ("B", with_outgoing (Some ["C"]) (example_step "B" "b.py" ["A"]));
     ("C", with_outgoing (Some []) (example_step "C" "c.py" ["B"; "A"]))]
    (Some example_document) ["B"] (Some "B") false true
    [mkConnectionDOMWrapper 0 "A" (Some "B");
     mkConnectionDOMWrapper 1 "B" (Some "C");
     mkConnectionDOMWrapper 2 "A" (Some "C")]
    None true 3.

(** A -> B on the canvas, where A names a step that does not exist. *)
Definition example_view_dangling : View.t :=
  View.mk example_ab_dangling (Some example_document) [] None false false
    [mkConnectionDOMWrapper 0 "A" (Some "B")] None true 1.


(** [example_dangling] on the canvas: nothing to draw. *)
Definition example_view_ghost : View.t :=
  View.mk example_dangling (Some example_document) [] None false false
    [] None true 0.

(** The steps of the chain are rendered, each with its two dots. *)
Definition example_rendered (u : string) : bool :=
  JsObject.hasOwnProperty u example_chain.

(** A document as it is saved: no private key, no
    [outgoing_connections]. *)
Definition example_saved_step (u file : string) (incoming : list string)
    : Step :=
  mkStep u u file incoming None "env" (JObj []) (JObj [])
    [("position", JArr [JNum 3; JNum 4]); ("hidden", JBool false)].

Definition example_saved_document : PipelineJSON :=
  mkPipelineJSON [("name", JStr "pipeline")]
    [("A", example_saved_step "A" "a.py" []);
     ("B", example_saved_step "B" "b.ipynb" ["A"])].

Local Close Scope string_scope.

(** * Properties *)

(** ** Objects *)

Module JsObjectFacts.
Import JsObject.
Section Facts.
Context {V : Type}.
Implicit Types (o : JsObject.t V) (k : string) (v : V).

Lemma get_set_same k v o : get k (set k v o) = Some v.
Proof.
  induction o as [|[k' v'] o IH]; simpl.
  - now rewrite String.eqb_refl.
  - destruct (String.eqb k' k) eqn:E; simpl; now rewrite E.
Qed.

Lemma get_set_other k k' v o : k' <> k -> get k' (set k v o) = get k' o.
Proof.
  intros Hne. induction o as [|[k0 v0] o IH]; simpl.
  - destruct (String.eqb k k') eqn:E; [|reflexivity].
    apply String.eqb_eq in E. congruence.
  - destruct (String.eqb k0 k) eqn:E; simpl.
    + apply String.eqb_eq in E. subst k0.
      destruct (String.eqb k k') eqn:E'; [|reflexivity].
      apply String.eqb_eq in E'. congruence.
    + now rewrite IH.
Qed.

Lemma get_set k k' v o :
  get k' (set k v o) = if String.eqb k k' then Some v else get k' o.
Proof.
  destruct (String.eqb k k') eqn:E.
  - apply String.eqb_eq in E. subst. apply get_set_same.
  - apply String.eqb_neq in E. apply get_set_other. congruence.
Qed.

Lemma get_In_keys k o : get k o <> None <-> In k (keys o).
Proof.
  induction o as [|[k' v'] o IH]; simpl.
  - tauto.
  - destruct (String.eqb k' k) eqn:E.
    + apply String.eqb_eq in E. split; [auto | discriminate].
    + apply String.eqb_neq in E. rewrite IH. tauto.
Qed.

Lemma get_None_keys k o : get k o = None <-> ~ In k (keys o).
Proof.
  rewrite <- get_In_keys. destruct (get k o); split; intros H.
  - discriminate.
  - exfalso. apply H. discriminate.
  - intros H'. now apply H'.
  - reflexivity.
Qed.

Lemma get_Some_keys k v o : get k o = Some v -> In k (keys o).
Proof. intros H. apply get_In_keys. congruence. Qed.

Lemma get_Some_In k v o : get k o = Some v -> In (k, v) o.
Proof.
  induction o as [|[k' v'] o IH]; simpl; [discriminate|].
  destruct (String.eqb k' k) eqn:E.
  - apply String.eqb_eq in E. intros [= ->]. subst. now left.
  - auto.
Qed.

Lemma keys_set_present k v o : get k o <> None -> keys (set k v o) = keys o.
Proof.
  induction o as [|[k' v'] o IH]; simpl; [congruence|].
  destruct (String.eqb k' k) eqn:E; simpl; [reflexivity|].
  intros H. now rewrite IH.
Qed.

Lemma keys_set_absent k v o : get k o = None -> keys (set k v o) = keys o ++ [k].
Proof.
  induction o as [|[k' v'] o IH]; simpl; [reflexivity|].
  destruct (String.eqb k' k) eqn:E; simpl; [discriminate|].
  intros H. now rewrite IH.
Qed.

Lemma set_absent k v o : get k o = None -> set k v o = o ++ [(k, v)].
Proof.
  induction o as [|[k' v'] o IH]; simpl; [reflexivity|].
  destruct (String.eqb k' k) eqn:E; simpl; [discriminate|].
  intros H. now rewrite IH.
Qed.

Lemma set_get_same k v o : get k o = Some v -> set k v o = o.
Proof.
  induction o as [|[k' v'] o IH]; simpl; [discriminate|].
  destruct (String.eqb k' k) eqn:E.
  - now intros [= ->].
  - intros H. now rewrite IH.
Qed.

Lemma set_set k v v' o : set k v (set k v' o) = set k v o.
Proof.
  induction o as [|[k' v0] o IH]; simpl.
  - now rewrite String.eqb_refl.
  - destruct (String.eqb k' k) eqn:E; simpl; rewrite E; [reflexivity|].
    now rewrite IH.
Qed.

Lemma get_remove_same k o : get k (remove k o) = None.
Proof.
  unfold remove. induction o as [|[k' v'] o IH]; simpl; [reflexivity|].
  destruct (String.eqb k' k) eqn:E; simpl; [assumption|].
  now rewrite E.
Qed.

Lemma get_remove_other k k' o : k' <> k -> get k' (remove k o) = get k' o.
Proof.
  intros Hne. unfold remove.
  induction o as [|[k0 v0] o IH]; simpl; [reflexivity|].
  destruct (String.eqb k0 k) eqn:E; simpl.
  - apply String.eqb_eq in E. subst k0.
    destruct (String.eqb k k') eqn:E'; [|assumption].
    apply String.eqb_eq in E'. congruence.
  - now rewrite IH.
Qed.

Lemma keys_remove k o :
  keys (remove k o) = filter (fun k' => negb (String.eqb k' k)) (keys o).
Proof.
  unfold remove, keys. induction o as [|[k' v'] o IH]; simpl; [reflexivity|].
  destruct (String.eqb k' k); simpl; now rewrite IH.
Qed.

Lemma hasOwnProperty_true k o : hasOwnProperty k o = true <-> get k o <> None.
Proof. unfold hasOwnProperty. destruct (get k o); split; congruence. Qed.
End Facts.

Section MapValues.
Context {V W : Type} (f : V -> W).

Lemma get_map_values k (o : JsObject.t V) :
  get k (map_values f o) = option_map f (get k o).
Proof.
  induction o as [|[k' v'] o IH]; simpl; [reflexivity|].
  now destruct (String.eqb k' k).
Qed.

Lemma keys_map_values (o : JsObject.t V) : keys (map_values f o) = keys o.
Proof. unfold keys, map_values. rewrite map_map. reflexivity. Qed.

Lemma map_values_set k v (o : JsObject.t V) :
  map_values f (set k v o) = set k (f v) (map_values f o).
Proof.
  induction o as [|[k' v'] o IH]; simpl; [reflexivity|].
  destruct (String.eqb k' k); simpl; [reflexivity|]. now rewrite IH.
Qed.
End MapValues.
End JsObjectFacts.

(** ** Arrays *)

Module JsArrayFacts.
Import JsArray.

Lemma indexOf_from_range i x l :
  indexOf_from i x l = (-1)%Z \/
  (i <= indexOf_from i x l < i + Z.of_nat (length l))%Z.
Proof.
  revert i. induction l as [|y l IH]; intros i; simpl; [now left|].
  destruct (String.eqb y x).
  - right. lia.
  - destruct (IH (i + 1)%Z) as [H|H]; [now left | right; lia].
Qed.

Lemma indexOf_from_absent i x l :
  (0 <= i)%Z -> (indexOf_from i x l = (-1)%Z <-> ~ In x l).
Proof.
  revert i. induction l as [|y l IH]; intros i Hi; simpl; [tauto|].
  destruct (String.eqb y x) eqn:E.
  - apply String.eqb_eq in E. split; [lia | intros H; exfalso; auto].
  - apply String.eqb_neq in E. rewrite IH by lia. tauto.
Qed.

Lemma indexOf_absent x l : indexOf x l = (-1)%Z <-> ~ In x l.
Proof. apply indexOf_from_absent. lia. Qed.

Lemma indexOf_eqb_absent x l : (indexOf x l =? -1)%Z = true <-> ~ In x l.
Proof. rewrite Z.eqb_eq. apply indexOf_absent. Qed.

Lemma indexOf_eqb_present x l : (indexOf x l =? -1)%Z = false <-> In x l.
Proof.
  rewrite Z.eqb_neq, indexOf_absent.
  split; [|tauto]. intros H.
  destruct (in_dec string_dec x l); tauto.
Qed.

Lemma splice_nat n l :
  splice (Z.of_nat n) 1 l = firstn n l ++ skipn (n + 1) l.
Proof.
  unfold splice.
  destruct (Z.of_nat n <? 0)%Z eqn:E; [apply Z.ltb_lt in E; lia|].
  destruct (Nat.le_gt_cases n (length l)) as [Hle|Hgt].
  - rewrite Z.min_l by lia. now rewrite Nat2Z.id.
  - rewrite Z.min_r by lia. rewrite Nat2Z.id.
    rewrite !firstn_all2 by lia. rewrite !skipn_all2 by lia. reflexivity.
Qed.

(** Removing the element that [push] has just added. *)
Lemma splice_pushed x l :
  splice (snd (push x l) - 1) 1 (l ++ [x]) = l.
Proof.
  unfold push; simpl.
  replace (Z.of_nat (length (l ++ [x])) - 1)%Z with (Z.of_nat (length l))
    by (rewrite length_app; simpl; lia).
  rewrite splice_nat.
  rewrite firstn_app, firstn_all, Nat.sub_diag; simpl.
  rewrite skipn_all2 by (rewrite length_app; simpl; lia).
  now rewrite !app_nil_r.
Qed.

Lemma indexOf_from_shift i x l :
  indexOf_from i x l <> (-1)%Z ->
  (0 <= i)%Z ->
  indexOf_from i x l = (i + indexOf_from 0 x l)%Z.
Proof.
  revert i. induction l as [|y l IH]; intros i H Hi; simpl in *; [congruence|].
  destruct (String.eqb y x); [lia|].
  rewrite (IH (i + 1)%Z) by (auto; lia).
  destruct (indexOf_from_range 1 x l) as [H1|H1].
  - exfalso. apply H. destruct (indexOf_from_range (i + 1) x l) as [H2|H2];
      [assumption|].
    apply (indexOf_from_absent 1 x l) in H1; [|lia].
    apply (indexOf_from_absent (i + 1) x l) in H1; [assumption | lia].
  - rewrite (IH 1%Z) by lia. lia.
Qed.

(** [splice(indexOf(x), 1)] removes the first occurrence of [x]. *)
Lemma splice_indexOf x l :
  indexOf x l <> (-1)%Z -> splice (indexOf x l) 1 l = remove_first x l.
Proof.
  unfold indexOf. induction l as [|y l IH]; simpl; [congruence|].
  destruct (String.eqb y x) eqn:E.
  - intros _. reflexivity.
  - intros H.
    assert (H0 : indexOf_from 0 x l <> (-1)%Z).
    { intros H0. apply H. apply (indexOf_from_absent 0 x l) in H0; [|lia].
      apply (indexOf_from_absent 1 x l); [lia | assumption]. }
    rewrite (indexOf_from_shift 1) by (auto; lia).
    specialize (IH H0).
    destruct (indexOf_from_range 0 x l) as [H1|H1]; [congruence|].
    remember (indexOf_from 0 x l) as j.
    replace (1 + j)%Z with (Z.of_nat (S (Z.to_nat j))) by lia.
    rewrite splice_nat. simpl.
    replace j with (Z.of_nat (Z.to_nat j)) in IH by lia.
    rewrite splice_nat in IH. now rewrite IH.
Qed.

Lemma In_remove_first_other x y l :
  y <> x -> (In y (remove_first x l) <-> In y l).
Proof.
  intros Hne. induction l as [|z l IH]; simpl; [tauto|].
  destruct (String.eqb z x) eqn:E.
  - apply String.eqb_eq in E. subst z. split; [auto | intros [H|H]; congruence || auto].
  - simpl. rewrite IH. tauto.
Qed.

Lemma In_remove_first x y l : In y (remove_first x l) -> In y l.
Proof.
  induction l as [|z l IH]; simpl; [tauto|].
  destruct (String.eqb z x); simpl; tauto.
Qed.

Lemma remove_first_absent x l : ~ In x l -> remove_first x l = l.
Proof.
  induction l as [|z l IH]; simpl; [reflexivity|].
  intros H. destruct (String.eqb z x) eqn:E.
  - apply String.eqb_eq in E. tauto.
  - rewrite IH; tauto.
Qed.

Lemma remove_first_NoDup x l : NoDup l -> ~ In x (remove_first x l).
Proof.
  induction 1 as [|z l Hz Hl IH]; simpl; [tauto|].
  destruct (String.eqb z x) eqn:E.
  - apply String.eqb_eq in E. now subst z.
  - apply String.eqb_neq in E. simpl. tauto.
Qed.
End JsArrayFacts.

(** ** Sets *)

Module JsSetFacts.
Import JsSet.

Lemma has_In x s : has x s = true <-> In x s.
Proof.
  unfold has. rewrite existsb_exists. split.
  - intros [y [Hy E]]. apply String.eqb_eq in E. now subst.
  - intros H. exists x. split; [assumption | apply String.eqb_refl].
Qed.

Lemma has_not_In x s : has x s = false <-> ~ In x s.
Proof.
  rewrite <- has_In. destruct (has x s); split; congruence.
Qed.

Lemma In_delete x y s : In y (delete x s) <-> In y s /\ y <> x.
Proof.
  unfold delete. rewrite filter_In, negb_true_iff, String.eqb_neq.
  split; intros [H1 H2]; split; auto.
Qed.

Lemma length_delete_le x s : length (delete x s) <= length s.
Proof. apply filter_length_le. Qed.

Lemma length_delete_lt x s : In x s -> length (delete x s) < length s.
Proof.
  unfold delete. induction s as [|y s IH]; simpl; [tauto|].
  intros [->|H].
  - rewrite String.eqb_refl. simpl.
    pose proof (filter_length_le (fun y => negb (x =? y)%string) s). lia.
  - specialize (IH H). destruct (negb (x =? y)%string); simpl; lia.
Qed.

Lemma delete_absent x s : ~ In x s -> delete x s = s.
Proof.
  unfold delete. induction s as [|y s IH]; simpl; [reflexivity|].
  intros H. destruct (String.eqb x y) eqn:E.
  - apply String.eqb_eq in E. subst. tauto.
  - simpl. rewrite IH; tauto.
Qed.

Lemma In_add x y s : In y (add x s) <-> y = x \/ In y s.
Proof.
  unfold add. destruct (has x s) eqn:E.
  - apply has_In in E. split; [tauto|]. intros [->|H]; assumption.
  - rewrite in_app_iff. simpl. split; intros [H|H]; auto.
    destruct H as [H|[]]; auto.
Qed.

(** Moving a step to the grey set and back leaves the set as it was. *)
Lemma delete_add x s : ~ In x s -> delete x (add x s) = s.
Proof.
  intros H. unfold add. apply has_not_In in H as E. rewrite E.
  unfold delete. rewrite filter_app. simpl. rewrite String.eqb_refl. simpl.
  rewrite app_nil_r. now apply delete_absent.
Qed.

Lemma In_fold_add l : forall s x,
  In x (fold_left (fun s x => add x s) l s) <-> In x s \/ In x l.
Proof.
  induction l as [|y l IH]; intros s x; simpl; [tauto|].
  rewrite IH, In_add. split; intros H; intuition (subst; auto).
Qed.

Lemma In_of_list x l : In x (of_list l) <-> In x l.
Proof. unfold of_list. rewrite In_fold_add. simpl. tauto. Qed.

Lemma length_add x s : length (add x s) <= S (length s).
Proof.
  unfold add. destruct (has x s); [lia|].
  rewrite length_app. simpl. lia.
Qed.

Lemma length_fold_add l : forall s,
  length (fold_left (fun s x => add x s) l s) <= length s + length l.
Proof.
  induction l as [|y l IH]; intros s; simpl; [lia|].
  specialize (IH (add y s)). pose proof (length_add y s). lia.
Qed.

Lemma length_of_list l : length (of_list l) <= length l.
Proof. apply (length_fold_add l []). Qed.
End JsSetFacts.

(** ** The depth-first search *)

Module DfsFacts.
Import JsSetFacts.

Section Run.
Variable steps : Steps.

Local Abbreviation succ := (child_of steps).
Local Abbreviation reach := (clos_refl_trans string (child_of steps)).
Local Abbreviation reach1 := (clos_trans string (child_of steps)).

(** The search never reads a missing step when the white steps exist, and
    it runs out of fuel only when it has less fuel than white steps. *)
Lemma dfs_children_run f u :
  (forall c (w g : JsSet.t), In c w ->
     (forall x, In x w -> outgoing_of steps x <> None) ->
     match dfsWithSets f steps c (w, g) with
     | Returned _ (w', _) => length w' < length w /\ incl w' w
     | TypeError _ => False
     | OutOfFuel => f < length w
     end) ->
  forall cs (w g : JsSet.t),
    (forall x, In x w -> outgoing_of steps x <> None) ->
    match dfs_children (dfsWithSets f steps) u cs (w, g) with
    | Returned _ (w', _) => length w' <= length w /\ incl w' w
    | TypeError _ => False
    | OutOfFuel => f < length w
    end.
Proof.
  intros IH cs. induction cs as [|c cs IHcs]; intros w g Hw; simpl.
  - split; [lia | apply incl_refl].
  - destruct (JsSet.has c w) eqn:Ec.
    + apply has_In in Ec. specialize (IH c w g Ec Hw). revert IH.
      destruct (dfsWithSets f steps c (w, g)) as [b [w1 g1]|s1|];
        intros IH; cbv beta iota in *; [|assumption|assumption].
      destruct IH as [Hlt Hincl]. destruct b.
      * split; [lia | assumption].
      * assert (Hw1 : forall x, In x w1 -> outgoing_of steps x <> None)
          by (intros x Hx; apply Hw, Hincl, Hx).
        specialize (IHcs w1 g1 Hw1). cbv beta iota. revert IHcs.
        destruct (dfs_children (dfsWithSets f steps) u cs (w1, g1))
          as [b [w2 g2]|s2|]; intros IHcs; cbv beta iota in *;
          [|assumption|lia].
        destruct IHcs as [Hle Hincl2]. split; [lia|].
        intros x Hx. apply Hincl, Hincl2, Hx.
    + destruct (JsSet.has c g).
      * split; [lia | apply incl_refl].
      * now apply IHcs.
Qed.

Lemma dfs_run fuel : forall u (w g : JsSet.t),
  In u w ->
  (forall x, In x w -> outgoing_of steps x <> None) ->
  match dfsWithSets fuel steps u (w, g) with
  | Returned _ (w', _) => length w' < length w /\ incl w' w
  | TypeError _ => False
  | OutOfFuel => fuel < length w
  end.
Proof.
  induction fuel as [|f IH]; intros u w g Hu Hw.
  - simpl. destruct w; [destruct Hu | simpl; lia].
  - simpl. destruct (outgoing_of steps u) as [cs|] eqn:Eout.
    2:{ now apply (Hw u Hu). }
    pose proof (length_delete_lt u w Hu) as Hlt.
    pose proof (dfs_children_run f u IH cs (JsSet.delete u w) (JsSet.add u g))
      as H.
    revert H.
    destruct (dfs_children (dfsWithSets f steps) u cs
                (JsSet.delete u w, JsSet.add u g)) as [b [w' g']|s'|];
      intros H.
    + destruct H as [Hle Hincl].
      { intros x Hx. apply In_delete in Hx. apply Hw, Hx. }
      split; [lia|].
      intros x Hx. apply Hincl in Hx. apply In_delete in Hx. apply Hx.
    + apply H. intros x Hx. apply In_delete in Hx. apply Hw, Hx.
    + assert (f < length (JsSet.delete u w)); [|lia].
      apply H. intros x Hx. apply In_delete in Hx. apply Hw, Hx.
Qed.

(** A search that finds nothing restores the grey set. *)
Lemma dfs_children_false_sets f u :
  (forall c w g w' g', dfsWithSets f steps c (w, g) = Returned false (w', g') ->
     In c w -> disjoint_sets w g -> g' = g /\ incl w' w /\ ~ In c w') ->
  forall cs w g w' g',
    dfs_children (dfsWithSets f steps) u cs (w, g) = Returned false (w', g') ->
    disjoint_sets w g ->
    g' = JsSet.delete u g /\ incl w' w.
Proof.
  intros IH cs. induction cs as [|c cs IHcs]; intros w g w' g' H Hd; simpl in H.
  - injection H as <- <-. split; [reflexivity | apply incl_refl].
  - destruct (JsSet.has c w) eqn:Ec.
    + apply has_In in Ec.
      destruct (dfsWithSets f steps c (w, g)) as [[] [w1 g1]| |] eqn:Er;
        try discriminate.
      destruct (IH _ _ _ _ _ Er Ec Hd) as (-> & Hincl & _).
      destruct (IHcs _ _ _ _ H) as (-> & Hincl2).
      { intros x Hx. apply Hd, Hincl, Hx. }
      split; [reflexivity|]. intros x Hx. apply Hincl, Hincl2, Hx.
    + destruct (JsSet.has c g); [discriminate|]. now apply IHcs.
Qed.

Lemma dfs_false_sets fuel : forall u w g w' g',
  dfsWithSets fuel steps u (w, g) = Returned false (w', g') ->
  In u w -> disjoint_sets w g ->
  g' = g /\ incl w' w /\ ~ In u w'.
Proof.
  induction fuel as [|f IH]; intros u w g w' g' H Hu Hd; simpl in H;
    [discriminate|].
  destruct (outgoing_of steps u) as [cs|]; [|discriminate].
  apply (dfs_children_false_sets f u IH) in H.
  - destruct H as [-> Hincl]. split; [|split].
    + apply delete_add. now apply Hd.
    + intros x Hx. apply Hincl in Hx. apply In_delete in Hx. apply Hx.
    + intros Hx. apply Hincl in Hx. apply In_delete in Hx. now destruct Hx.
  - intros x Hx Hg. apply In_delete in Hx. apply In_add in Hg.
    destruct Hx as [Hx Hne]. destruct Hg as [Hg|Hg]; [auto|].
    now apply (Hd x).
Qed.

Lemma child_of_functional u cs c :
  outgoing_of steps u = Some cs -> succ u c -> In c cs.
Proof. intros E (cs' & E' & H). congruence. Qed.

(** A set closed under [child_of] that holds every child of [u] holds
    everything [u] reaches. *)
Lemma closed_set_reach (P : string -> Prop) u :
  (forall b c, P b -> succ b c -> P c) ->
  (forall c, succ u c -> P c) ->
  forall y, reach1 u y -> P y.
Proof.
  intros Hcl Hu y H. apply clos_trans_tn1 in H.
  induction H as [y H|y z Hyz H IH].
  - now apply Hu.
  - now apply (Hcl y).
Qed.

Lemma black_closed_enter u w g :
  In u w -> black_closed steps w g ->
  black_closed steps (JsSet.delete u w) (JsSet.add u g).
Proof.
  intros Hu [H1 H2].
  assert (Hb : forall b, ~ In b (JsSet.delete u w) -> ~ In b (JsSet.add u g) ->
                         ~ In b w /\ ~ In b g /\ b <> u).
  { intros b Hw Hg. rewrite In_delete in Hw. rewrite In_add in Hg.
    assert (b <> u) by (intros ->; apply Hg; now left).
    repeat split; auto. }
  split.
  - intros b c Hw Hg Hbc. destruct (Hb b Hw Hg) as (Hw' & Hg' & Hne).
    destruct (H1 b c Hw' Hg' Hbc) as [Hcw Hcg].
    split.
    + rewrite In_delete. tauto.
    + rewrite In_add. intros [->|Hc]; auto.
  - intros b Hw Hg. destruct (Hb b Hw Hg) as (Hw' & Hg' & Hne). now apply H2.
Qed.

Lemma dfs_children_false_inv f u :
  (forall c w g w' g', dfsWithSets f steps c (w, g) = Returned false (w', g') ->
     In c w -> disjoint_sets w g -> black_closed steps w g ->
     black_closed steps w' g) ->
  forall cs w g w' g',
    dfs_children (dfsWithSets f steps) u cs (w, g) = Returned false (w', g') ->
    disjoint_sets w g -> black_closed steps w g ->
    black_closed steps w' g /\ (forall c, In c cs -> ~ In c w' /\ ~ In c g).
Proof.
  intros IH cs. induction cs as [|c cs IHcs]; intros w g w' g' H Hd Hinv;
    simpl in H.
  - injection H as <- <-. split; [assumption | intros c []].
  - destruct (JsSet.has c w) eqn:Ec.
    + apply has_In in Ec.
      destruct (dfsWithSets f steps c (w, g)) as [[] [w1 g1]| |] eqn:Er;
        try discriminate.
      destruct (dfs_false_sets f _ _ _ _ _ Er Ec Hd) as (-> & Hincl & Hc).
      pose proof (IH _ _ _ _ _ Er Ec Hd Hinv) as Hinv1.
      assert (Hd1 : disjoint_sets w1 g)
        by (intros x Hx; apply Hd, Hincl, Hx).
      destruct (IHcs _ _ _ _ H Hd1 Hinv1) as [Hinv2 Hcs].
      split; [assumption|].
      intros c' [<-|Hc']; [|now apply Hcs].
      split; [|now apply Hd].
      destruct (dfs_children_false_sets f u (dfs_false_sets f) _ _ _ _ _ H Hd1)
        as [_ Hincl2].
      intros Hx. apply Hc, Hincl2, Hx.
    + destruct (JsSet.has c g) eqn:Eg; [discriminate|].
      apply has_not_In in Ec. apply has_not_In in Eg.
      destruct (IHcs _ _ _ _ H Hd Hinv) as [Hinv2 Hcs].
      split; [assumption|].
      intros c' [<-|Hc']; [|now apply Hcs].
      split; [|assumption].
      destruct (dfs_children_false_sets f u (dfs_false_sets f) _ _ _ _ _ H Hd)
        as [_ Hincl2].
      intros Hx. apply Ec, Hincl2, Hx.
Qed.

(** A search that finds nothing blackens its step and keeps the black
    steps closed and off every cycle. *)
Lemma dfs_false_inv fuel : forall u w g w' g',
  dfsWithSets fuel steps u (w, g) = Returned false (w', g') ->
  In u w -> disjoint_sets w g -> black_closed steps w g ->
  black_closed steps w' g.
Proof.
  induction fuel as [|f IH]; intros u w g w' g' H Hu Hd Hinv; simpl in H;
    [discriminate|].
  destruct (outgoing_of steps u) as [cs|] eqn:Eout; [|discriminate].
  assert (Hug : ~ In u g) by now apply Hd.
  assert (Hd1 : disjoint_sets (JsSet.delete u w) (JsSet.add u g)).
  { intros x Hx Hg. apply In_delete in Hx. apply In_add in Hg.
    destruct Hx as [Hx Hne]. destruct Hg as [Hg|Hg]; [auto|]. now apply (Hd x). }
  pose proof (black_closed_enter u w g Hu Hinv) as Hinv1.
  destruct (dfs_children_false_inv f u IH _ _ _ _ _ H Hd1 Hinv1)
    as [[H1 H2] Hcs].
  assert (Hblack : forall b, ~ In b w' -> ~ In b g ->
                             b = u \/ ~ In b (JsSet.add u g)).
  { intros b Hbw Hbg. destruct (string_dec b u) as [->|Hne]; [now left|].
    right. rewrite In_add. tauto. }
  assert (Hweak : forall c, ~ In c (JsSet.add u g) -> ~ In c g).
  { intros c Hc Hg. apply Hc. apply In_add. now right. }
  split.
  - intros b c Hbw Hbg Hbc.
    destruct (Hblack b Hbw Hbg) as [->|Hb].
    + apply (child_of_functional _ _ _ Eout) in Hbc.
      destruct (Hcs c Hbc). split; auto.
    + destruct (H1 b c Hbw Hb Hbc). split; auto.
  - intros b Hbw Hbg Hcyc.
    destruct (Hblack b Hbw Hbg) as [->|Hb]; [|now apply (H2 b)].
    assert (Hu' : ~ In u w' /\ ~ In u (JsSet.add u g)).
    { apply (closed_set_reach
               (fun x => ~ In x w' /\ ~ In x (JsSet.add u g)) u); auto.
      - intros b c [Hb1 Hb2] Hbc. now apply (H1 b c).
      - intros c Hc. apply Hcs. now apply (child_of_functional _ _ _ Eout). }
    apply (proj2 Hu'). apply In_add. now left.
Qed.

Lemma dfs_children_true f u :
  (forall c w g s', dfsWithSets f steps c (w, g) = Returned true s' ->
     In c w -> disjoint_sets w g -> (forall x, In x g -> reach x c) ->
     exists x, reach1 x x) ->
  forall cs w g s',
    dfs_children (dfsWithSets f steps) u cs (w, g) = Returned true s' ->
    (forall c, In c cs -> succ u c) ->
    disjoint_sets w g -> (forall x, In x g -> reach x u) ->
    exists x, reach1 x x.
Proof.
  intros IH cs. induction cs as [|c cs IHcs]; intros w g s' H Hcs Hd Hg;
    simpl in H; [discriminate|].
  assert (Huc : succ u c) by (apply Hcs; now left).
  destruct (JsSet.has c w) eqn:Ec.
  - apply has_In in Ec.
    destruct (dfsWithSets f steps c (w, g)) as [[] [w1 g1]| |] eqn:Er;
      try discriminate.
    + apply (IH _ _ _ _ Er Ec Hd).
      intros x Hx. apply rt_trans with u; [now apply Hg | now apply rt_step].
    + destruct (dfs_false_sets f _ _ _ _ _ Er Ec Hd) as (-> & Hincl & _).
      apply (IHcs _ _ _ H); auto.
      * intros c' Hc'. apply Hcs. now right.
      * intros x Hx. apply Hd, Hincl, Hx.
  - destruct (JsSet.has c g) eqn:Eg.
    + apply has_In in Eg. exists c.
      apply clos_rt_t with u; [now apply Hg | now apply t_step].
    + apply (IHcs _ _ _ H); auto. intros c' Hc'. apply Hcs. now right.
Qed.

(** A search that answers [true] has met a grey step, which closes a
    cycle. *)
Lemma dfs_true fuel : forall u w g s',
  dfsWithSets fuel steps u (w, g) = Returned true s' ->
  In u w -> disjoint_sets w g -> (forall x, In x g -> reach x u) ->
  exists x, reach1 x x.
Proof.
  induction fuel as [|f IH]; intros u w g s' H Hu Hd Hg; simpl in H;
    [discriminate|].
  destruct (outgoing_of steps u) as [cs|] eqn:Eout; [|discriminate].
  apply (dfs_children_true f u IH) in H; auto.
  - intros c Hc. exists cs. now split.
  - intros x Hx Hgx. apply In_delete in Hx. apply In_add in Hgx.
    destruct Hx as [Hx Hne]. destruct Hgx as [Hgx|Hgx]; [auto|].
    now apply (Hd x).
  - intros x Hx. apply In_add in Hx. destruct Hx as [->|Hx].
    + apply rt_refl.
    + now apply Hg.
Qed.

Lemma dfs_loop_run fuel : forall cycles (w g : JsSet.t),
  (forall x, In x w -> outgoing_of steps x <> None) ->
  match dfs_loop fuel steps cycles (w, g) with
  | Returned _ _ => True
  | TypeError _ => False
  | OutOfFuel => fuel <= length w
  end.
Proof.
  induction fuel as [|f IH]; intros cycles w g Hw; [simpl; lia|].
  simpl. destruct w as [|u w0] eqn:Ew; [exact I|].
  rewrite <- Ew in *.
  assert (Hu : In u w) by (rewrite Ew; now left).
  pose proof (dfs_run f u w g Hu Hw) as H. revert H.
  destruct (dfsWithSets f steps u (w, g)) as [b [w' g']|s'|];
    intros H; cbv beta iota in *; [|assumption|lia].
  destruct H as [Hlt Hincl].
  assert (Hw' : forall x, In x w' -> outgoing_of steps x <> None)
    by (intros x Hx; apply Hw, Hincl, Hx).
  specialize (IH (if b then true else cycles) w' g' Hw'). cbv beta iota.
  revert IH.
  destruct (dfs_loop f steps (if b then true else cycles) (w', g'));
    intros IH; cbv beta iota in *; [exact I | assumption | lia].
Qed.

Lemma dfs_loop_true_stays fuel : forall s b s',
  dfs_loop fuel steps true s = Returned b s' -> b = true.
Proof.
  induction fuel as [|f IH]; intros [w g] b s' H; simpl in H; [discriminate|].
  destruct w as [|u w0]; [now injection H as <- _|].
  destruct (dfsWithSets f steps u _) as [found s1|s1|] eqn:Er;
    try discriminate.
  destruct found; now apply IH in H.
Qed.

Lemma dfs_loop_false fuel : forall w s',
  dfs_loop fuel steps false (w, []) = Returned false s' ->
  black_closed steps w [] -> black_closed steps [] [].
Proof.
  induction fuel as [|f IH]; intros w s' H Hinv; simpl in H; [discriminate|].
  destruct w as [|u w0] eqn:Ew; [assumption|].
  rewrite <- Ew in *.
  assert (Hu : In u w) by (rewrite Ew; now left).
  assert (Hd : disjoint_sets w []) by (intros x _ []).
  destruct (dfsWithSets f steps u (w, [])) as [found [w1 g1]| |] eqn:Er;
    try discriminate.
  destruct found.
  - apply dfs_loop_true_stays in H. discriminate.
  - destruct (dfs_false_sets f _ _ _ _ _ Er Hu Hd) as (-> & _ & _).
    apply (IH _ _ H). now apply (dfs_false_inv f _ _ _ _ _ Er).
Qed.

Lemma dfs_loop_true fuel : forall w s',
  dfs_loop fuel steps false (w, []) = Returned true s' ->
  exists x, reach1 x x.
Proof.
  induction fuel as [|f IH]; intros w s' H; simpl in H; [discriminate|].
  destruct w as [|u w0] eqn:Ew; [discriminate|].
  rewrite <- Ew in *.
  assert (Hu : In u w) by (rewrite Ew; now left).
  assert (Hd : disjoint_sets w []) by (intros x _ []).
  destruct (dfsWithSets f steps u (w, [])) as [found [w1 g1]| |] eqn:Er;
    try discriminate.
  destruct found.
  - apply (dfs_true f _ _ _ _ Er Hu Hd). intros x [].
  - destruct (dfs_false_sets f _ _ _ _ _ Er Hu Hd) as (-> & _ & _).
    now apply (IH _ _ H).
Qed.

(** The loop over the white set answers [true] exactly when the
    [outgoing_connections] it reads contain a cycle. *)
Lemma dfs_loop_sound fuel w b s' :
  (forall x, In x w <-> outgoing_of steps x <> None) ->
  dfs_loop fuel steps false (w, []) = Returned b s' ->
  (b = true <-> exists x, reach1 x x).
Proof.
  intros Hw E. destruct b.
  - split; [intros _ | reflexivity]. now apply (dfs_loop_true fuel w s').
  - split; [discriminate|]. intros [x Hx]. exfalso.
    assert (Hno : forall b c, ~ In b w -> ~ succ b c).
    { intros b c Hb (cs & Hcs & _). apply Hb, Hw. congruence. }
    assert (Hinv : black_closed steps w []).
    { split.
      - intros b c Hb _ Hbc. now apply Hno in Hbc.
      - intros b Hb _ Hcyc. apply clos_trans_t1n in Hcyc.
        destruct Hcyc as [y Hy|y z Hy _]; now apply Hno in Hy. }
    destruct (dfs_loop_false fuel w s' E Hinv) as [_ H2].
    apply (H2 x); auto.
Qed.
End Run.
End DfsFacts.

(** ** The graph and the rebuilt [outgoing_connections] *)

Module GraphFacts.
Import JsObject JsObjectFacts.

Lemma erase_outgoing_incoming st st' :
  erase_outgoing st = erase_outgoing st' ->
  incoming_connections st = incoming_connections st'.
Proof.
  intros H. apply (f_equal incoming_connections) in H. exact H.
Qed.

Lemma same_but_outgoing_refl g : same_but_outgoing g g.
Proof. reflexivity. Qed.

Lemma same_but_outgoing_trans g1 g2 g3 :
  same_but_outgoing g1 g2 -> same_but_outgoing g2 g3 -> same_but_outgoing g1 g3.
Proof. unfold same_but_outgoing. congruence. Qed.

Lemma same_but_outgoing_sym g1 g2 :
  same_but_outgoing g1 g2 -> same_but_outgoing g2 g1.
Proof. unfold same_but_outgoing. congruence. Qed.

Lemma same_but_outgoing_get g' g k :
  same_but_outgoing g' g ->
  option_map erase_outgoing (get k g') = option_map erase_outgoing (get k g).
Proof.
  intros H. rewrite <- !get_map_values. now rewrite H.
Qed.

Lemma same_but_outgoing_step g' g k st' :
  same_but_outgoing g' g -> get k g' = Some st' ->
  exists st, get k g = Some st /\ erase_outgoing st = erase_outgoing st'.
Proof.
  intros H E. pose proof (same_but_outgoing_get g' g k H) as Hk.
  rewrite E in Hk. destruct (get k g) as [st|]; [|discriminate].
  exists st. split; [reflexivity|]. simpl in Hk. congruence.
Qed.

Lemma same_but_outgoing_incoming g' g k :
  same_but_outgoing g' g -> incoming_of g' k = incoming_of g k.
Proof.
  intros H. pose proof (same_but_outgoing_get g' g k H) as Hk.
  unfold incoming_of.
  destruct (get k g') as [st'|], (get k g) as [st|]; simpl in *;
    try discriminate; [|reflexivity].
  f_equal. apply erase_outgoing_incoming. congruence.
Qed.

Lemma same_but_outgoing_None g' g k :
  same_but_outgoing g' g -> (get k g' = None <-> get k g = None).
Proof.
  intros H. pose proof (same_but_outgoing_get g' g k H) as Hk.
  destruct (get k g'), (get k g); simpl in Hk; split; congruence.
Qed.

Lemma same_but_outgoing_keys g' g :
  same_but_outgoing g' g -> keys g' = keys g.
Proof.
  intros H. rewrite <- (keys_map_values erase_outgoing g'), H.
  apply keys_map_values.
Qed.

Lemma same_but_outgoing_set k st st' g :
  get k g = Some st -> erase_outgoing st' = erase_outgoing st ->
  same_but_outgoing (set k st' g) g.
Proof.
  intros E H. unfold same_but_outgoing.
  rewrite map_values_set, H. apply set_get_same.
  rewrite get_map_values, E. reflexivity.
Qed.

Lemma same_but_outgoing_edge g' g u v :
  same_but_outgoing g' g -> (edge g' u v <-> edge g u v).
Proof.
  intros H. split; intros (sv & E & Hin).
  - destruct (same_but_outgoing_step _ _ _ _ H E) as (st & E' & He).
    exists st. split; [assumption|].
    now rewrite (erase_outgoing_incoming _ _ He).
  - apply same_but_outgoing_sym in H.
    destruct (same_but_outgoing_step _ _ _ _ H E) as (st & E' & He).
    exists st. split; [assumption|].
    now rewrite (erase_outgoing_incoming _ _ He).
Qed.

Lemma path_ext (R R' : string -> string -> Prop) :
  (forall u v, R u v -> R' u v) ->
  forall x y, clos_trans string R x y -> clos_trans string R' x y.
Proof.
  intros H x y Hxy. induction Hxy as [x y Hxy|x y z _ IH1 _ IH2].
  - apply t_step. now apply H.
  - now apply t_trans with y.
Qed.

Lemma same_but_outgoing_cyclic g' g :
  same_but_outgoing g' g -> (cyclic g' <-> cyclic g).
Proof.
  intros H. split; intros [x Hx]; exists x; revert Hx; apply path_ext;
    intros u v; apply same_but_outgoing_edge; auto using same_but_outgoing_sym.
Qed.

Lemma acyclic_not_cyclic g : acyclic g <-> ~ cyclic g.
Proof.
  split.
  - intros H [x Hx]. now apply (H x).
  - intros H x Hx. apply H. now exists x.
Qed.

(** *** Resetting [outgoing_connections] *)

Lemma reset_outgoing_run k st g :
  get k g = Some st ->
  reset_outgoing k g = Returned tt (set k (with_outgoing (Some []) st) g).
Proof. intros E. unfold reset_outgoing, bind, step_ref. now rewrite E. Qed.

Lemma reset_loop ks : forall g,
  exists g',
    for_each ks (if_own reset_outgoing) g = Returned tt g'
    /\ same_but_outgoing g' g
    /\ forall x st', get x g' = Some st' ->
         outgoing_connections st' = Some [] \/ (~ In x ks /\ get x g = Some st').
Proof.
  induction ks as [|k ks IH]; intros g; simpl.
  - exists g. split; [reflexivity|]. split; [reflexivity|]. auto.
  - unfold bind at 1. unfold if_own at 1. unfold hasOwnProperty.
    destruct (get k g) as [st|] eqn:E.
    + rewrite (reset_outgoing_run k st g E).
      destruct (IH (set k (with_outgoing (Some []) st) g))
        as (g' & Hrun & Hs & Hout).
      exists g'. split; [assumption|]. split.
      * apply same_but_outgoing_trans with (1 := Hs).
        now apply same_but_outgoing_set with st.
      * intros x st' Ex. destruct (Hout x st' Ex) as [H|[Hx H]]; [now left|].
        rewrite get_set in H. destruct (String.eqb k x) eqn:Ek.
        -- injection H as <-. now left.
        -- right. apply String.eqb_neq in Ek. split; [|assumption].
           intros [?|?]; auto.
    + destruct (IH g) as (g' & Hrun & Hs & Hout).
      exists g'. split; [assumption|]. split; [assumption|].
      intros x st' Ex. destruct (Hout x st' Ex) as [H|[Hx H]]; [now left|].
      right. split; [|assumption]. intros [<-|?]; [congruence | auto].
Qed.

Lemma reset_all g :
  exists g',
    for_in_steps reset_outgoing g = Returned tt g'
    /\ same_but_outgoing g' g
    /\ forall x st', get x g' = Some st' -> outgoing_connections st' = Some [].
Proof.
  destruct (reset_loop (keys g) g) as (g' & Hrun & Hs & Hout).
  exists g'. split; [exact Hrun|]. split; [assumption|].
  intros x st' Ex. destruct (Hout x st' Ex) as [H|[Hx H]]; [assumption|].
  exfalso. apply Hx. now apply get_Some_keys with st'.
Qed.

(** *** Rebuilding [outgoing_connections] *)

Lemma outgoing_of_set k k' st g :
  outgoing_of (set k st g) k'
  = if String.eqb k k' then outgoing_connections st else outgoing_of g k'.
Proof. unfold outgoing_of. rewrite get_set. now destruct (String.eqb k k'). Qed.

Lemma all_outgoing_set k st out g :
  all_outgoing g -> all_outgoing (set k (with_outgoing (Some out) st) g).
Proof.
  intros H x sx. rewrite get_set. destruct (String.eqb k x).
  - intros [= <-]. discriminate.
  - apply H.
Qed.

Lemma push_loop k l : forall g,
  all_outgoing g ->
  match for_each l (push_outgoing k) g with
  | Returned _ g' =>
      (forall x, In x l -> get x g <> None)
      /\ same_but_outgoing g' g
      /\ all_outgoing g'
      /\ forall x out, outgoing_of g x = Some out ->
           exists out', outgoing_of g' x = Some out'
                        /\ forall v, In v out' <-> In v out \/ (v = k /\ In x l)
  | TypeError _ => exists x, In x l /\ get x g = None
  | OutOfFuel => False
  end.
Proof.
  induction l as [|src l IH]; intros g Hall; simpl.
  - unfold ret. split; [intros x []|]. split; [reflexivity|].
    split; [assumption|].
    intros x out E. exists out. split; [assumption|]. intros v. tauto.
  - unfold bind at 1. unfold push_outgoing at 1. unfold bind, step_ref.
    destruct (get src g) as [st|] eqn:Esrc.
    2:{ exists src. split; [now left | assumption]. }
    destruct (outgoing_connections st) as [out|] eqn:Eout.
    2:{ exfalso. now apply (Hall src st). }
    unfold write_step.
    set (g1 := set src (with_outgoing (Some (fst (JsArray.push k out))) st) g).
    assert (Hall1 : all_outgoing g1) by now apply all_outgoing_set.
    assert (Hs1 : same_but_outgoing g1 g)
      by now apply same_but_outgoing_set with st.
    specialize (IH g1 Hall1).
    destruct (for_each l (push_outgoing k) g1) as [[] g'|g'|].
    + destruct IH as (Hres & Hs & Hall' & Hout).
      split; [|split; [|split]].
      * intros x [<-|Hx]; [congruence|].
        intros Hn. apply (Hres x Hx).
        now apply (same_but_outgoing_None g1 g x Hs1).
      * now apply same_but_outgoing_trans with g1.
      * assumption.
      * intros x out0 Ex.
        assert (E1 : outgoing_of g1 x
                     = Some (if String.eqb src x then out ++ [k] else out0)).
        { unfold g1. rewrite outgoing_of_set. simpl.
          now destruct (String.eqb src x). }
        destruct (Hout x _ E1) as (out' & E' & Hv).
        exists out'. split; [assumption|].
        intros v. rewrite Hv. destruct (String.eqb src x) eqn:Ex'.
        -- apply String.eqb_eq in Ex'. subst x.
           assert (out0 = out).
           { unfold outgoing_of in Ex. rewrite Esrc in Ex. congruence. }
           subst out0. rewrite in_app_iff. simpl. intuition.
        -- apply String.eqb_neq in Ex'. simpl. intuition.
    + destruct IH as (x & Hx & En). exists x. split; [now right|].
      now apply (same_but_outgoing_None g1 g x Hs1).
    + assumption.
Qed.

Lemma rebuild_outgoing_run k st g :
  get k g = Some st ->
  rebuild_outgoing k g = for_each (incoming_connections st) (push_outgoing k) g.
Proof. intros E. unfold rebuild_outgoing, bind, step_ref. now rewrite E. Qed.

Lemma edge_to_key g x k st :
  get k g = Some st -> (edge g x k <-> In x (incoming_connections st)).
Proof.
  intros E. split.
  - intros (sv & E' & H). congruence.
  - intros H. now exists st.
Qed.

Lemma rebuild_loop ks : forall g,
  all_outgoing g ->
  match for_each ks (if_own rebuild_outgoing) g with
  | Returned _ g' =>
      (forall k st x, In k ks -> get k g = Some st ->
                      In x (incoming_connections st) -> get x g <> None)
      /\ same_but_outgoing g' g
      /\ all_outgoing g'
      /\ forall x out, outgoing_of g x = Some out ->
           exists out', outgoing_of g' x = Some out'
                        /\ forall v, In v out' <->
                                     In v out \/ (In v ks /\ edge g x v)
  | TypeError _ =>
      exists k st x, In k ks /\ get k g = Some st
                     /\ In x (incoming_connections st) /\ get x g = None
  | OutOfFuel => False
  end.
Proof.
  induction ks as [|k ks IH]; intros g Hall; simpl.
  - unfold ret. split; [intros k st x []|]. split; [reflexivity|].
    split; [assumption|].
    intros x out E. exists out. split; [assumption|]. intros v. tauto.
  - unfold bind at 1. unfold if_own at 1. unfold hasOwnProperty.
    destruct (get k g) as [st|] eqn:Ek.
    + rewrite (rebuild_outgoing_run k st g Ek).
      pose proof (push_loop k (incoming_connections st) g Hall) as Hpush.
      destruct (for_each (incoming_connections st) (push_outgoing k) g)
        as [[] g1|g1|]; [| |assumption].
      2:{ destruct Hpush as (x & Hx & En). exists k, st, x.
          split; [now left | auto]. }
      destruct Hpush as (Hres1 & Hs1 & Hall1 & Hout1).
      specialize (IH g1 Hall1).
      destruct (for_each ks (if_own rebuild_outgoing) g1) as [[] g'|g'|]; [| |assumption].
      * destruct IH as (HresI & HsI & HallI & HoutI).
        split; [|split; [|split]].
        -- intros k' st' x [<-|Hk'] Ek' Hx.
           ++ replace st' with st in * by congruence. now apply Hres1.
           ++ apply same_but_outgoing_sym in Hs1 as Hs1'.
              destruct (same_but_outgoing_step _ _ _ _ Hs1' Ek')
                as (st1 & E1 & He).
              intros Hn. apply (HresI k' st1 x Hk' E1).
              ** now rewrite (erase_outgoing_incoming _ _ He).
              ** now apply (same_but_outgoing_None g1 g x Hs1).
        -- now apply same_but_outgoing_trans with g1.
        -- assumption.
        -- intros x out Ex.
           destruct (Hout1 x out Ex) as (out1 & E1 & Hv1).
           destruct (HoutI x out1 E1) as (out' & E' & Hv').
           exists out'. split; [assumption|].
           intros v. rewrite Hv', Hv1.
           rewrite (same_but_outgoing_edge g1 g x v Hs1).
           rewrite <- (edge_to_key g x k st Ek).
           simpl. intuition (subst; auto).
      * destruct IH as (k' & st1 & x & Hk' & E1 & Hx & En).
        destruct (same_but_outgoing_step _ _ _ _ Hs1 E1) as (st' & E' & He).
        exists k', st', x. split; [now right|]. split; [assumption|].
        split.
        -- now rewrite (erase_outgoing_incoming _ _ He).
        -- now apply (same_but_outgoing_None g1 g x Hs1).
    + specialize (IH g Hall).
      destruct (for_each ks (if_own rebuild_outgoing) g) as [[] g'|g'|]; [| |assumption].
      * destruct IH as (HresI & HsI & HallI & HoutI).
        split; [|split; [|split]]; try assumption.
        -- intros k' st' x [<-|Hk'] Ek' Hx; [congruence|].
           now apply (HresI k' st' x).
        -- intros x out Ex. destruct (HoutI x out Ex) as (out' & E' & Hv').
           exists out'. split; [assumption|].
           intros v. rewrite Hv'. simpl. split.
           ++ intros [H|[H1 H2]]; auto.
           ++ intros [H|[[<-|H1] H2]]; auto.
              destruct H2 as (sv & Esv & _). congruence.
      * destruct IH as (k' & st' & x & Hk' & E' & Hx & En).
        exists k', st', x. split; [now right|]. auto.
Qed.

(** After the two loops that rebuild [outgoing_connections], the children
    of a step are the targets of its connections; the second loop throws
    exactly when a connection names a step that does not exist. *)
Lemma rebuild_all g :
  (forall x st, get x g = Some st -> outgoing_connections st = Some []) ->
  match for_in_steps rebuild_outgoing g with
  | Returned _ g' =>
      closed g /\ same_but_outgoing g' g /\ all_outgoing g'
      /\ forall u v, child_of g' u v <-> edge g u v
  | TypeError _ => ~ closed g
  | OutOfFuel => False
  end.
Proof.
  intros Hempty.
  assert (Hall : all_outgoing g).
  { intros k st E. rewrite (Hempty k st E). discriminate. }
  pose proof (rebuild_loop (keys g) g Hall) as H.
  unfold for_in_steps.
  destruct (for_each (keys g) (if_own rebuild_outgoing) g) as [[] g'|g'|]; [| |assumption].
  - destruct H as (Hres & Hs & Hall' & Hout).
    assert (Hclosed : closed g).
    { intros k st x E Hx. apply (Hres k st x); auto.
      now apply get_Some_keys with st. }
    split; [assumption|]. split; [assumption|]. split; [assumption|].
    intros u v. split.
    + intros (cs & Ecs & Hv).
      destruct (get u g) as [su|] eqn:Eu.
      * assert (Eo : outgoing_of g u = Some []).
        { unfold outgoing_of. rewrite Eu. now apply (Hempty u). }
        destruct (Hout u [] Eo) as (out' & E' & Hv').
        replace out' with cs in * by congruence.
        apply Hv' in Hv. destruct Hv as [[]|[_ Hv]]. assumption.
      * exfalso. apply (same_but_outgoing_None g' g u Hs) in Eu.
        unfold outgoing_of in Ecs. now rewrite Eu in Ecs.
    + intros Huv. pose proof Huv as (sv & Ev & Hin).
      destruct (get u g) as [su|] eqn:Eu.
      2:{ exfalso. now apply (Hclosed v sv u Ev Hin). }
      assert (Eo : outgoing_of g u = Some []).
      { unfold outgoing_of. rewrite Eu. now apply (Hempty u). }
      destruct (Hout u [] Eo) as (out' & E' & Hv').
      exists out'. split; [assumption|]. apply Hv'. right.
      split; [|assumption]. now apply get_Some_keys with sv.
  - destruct H as (k & st & x & Hk & E & Hx & En).
    intros Hclosed. now apply (Hclosed k st x E Hx).
Qed.
End GraphFacts.

(** ** The cycle check *)

Module CycleCheckFacts.
Import JsObject JsObjectFacts JsArrayFacts JsSetFacts DfsFacts GraphFacts.

Lemma with_incoming_same st :
  with_incoming (incoming_connections st) st = st.
Proof. now destruct st. Qed.

Lemma erase_with_incoming l st st' :
  erase_outgoing st = erase_outgoing st' ->
  erase_outgoing (with_incoming l st) = erase_outgoing (with_incoming l st').
Proof.
  destruct st, st'. unfold erase_outgoing, with_outgoing, with_incoming; simpl.
  congruence.
Qed.

Lemma with_incoming_twice l l' st :
  with_incoming l (with_incoming l' st) = with_incoming l st.
Proof. reflexivity. Qed.

Lemma add_edge_present s t st g :
  get t g = Some st ->
  add_edge s t g
  = set t (with_incoming (incoming_connections st ++ [s]) st) g.
Proof. intros E. unfold add_edge. now rewrite E. Qed.

Lemma edge_add_edge s t g u v :
  get t g <> None ->
  (edge (add_edge s t g) u v <-> edge g u v \/ (u = s /\ v = t)).
Proof.
  intros Ht. destruct (get t g) as [st|] eqn:Et; [|congruence].
  rewrite (add_edge_present s t st g Et). unfold edge.
  split.
  - intros (sv & E & Hin). rewrite get_set in E.
    destruct (String.eqb t v) eqn:Etv.
    + apply String.eqb_eq in Etv. subst v. injection E as <-. simpl in Hin.
      apply in_app_iff in Hin. destruct Hin as [Hin|[<-|[]]].
      * left. now exists st.
      * now right.
    + left. now exists sv.
  - intros [(sv & E & Hin)|[-> ->]].
    + destruct (String.eqb t v) eqn:Etv.
      * apply String.eqb_eq in Etv. subst v.
        exists (with_incoming (incoming_connections st ++ [s]) st).
        split; [apply get_set_same|]. simpl. apply in_app_iff. left.
        congruence.
      * exists sv. split; [|assumption]. rewrite get_set. now rewrite Etv.
    + exists (with_incoming (incoming_connections st ++ [s]) st).
      split; [apply get_set_same|]. simpl. apply in_app_iff. right. now left.
Qed.

Lemma get_add_edge_None s t g k :
  get k (add_edge s t g) = None <-> get k g = None.
Proof.
  unfold add_edge. destruct (get t g) as [st|] eqn:Et; [|tauto].
  rewrite get_set. destruct (String.eqb t k) eqn:E; [|tauto].
  apply String.eqb_eq in E. subst k. rewrite Et. split; discriminate.
Qed.

Lemma closed_edge g :
  closed g <-> forall u v, edge g u v -> get u g <> None.
Proof.
  split.
  - intros H u v (sv & E & Hin). now apply (H v sv u).
  - intros H k st x E Hin. apply (H x k). now exists st.
Qed.

Lemma closed_add_edge s t g :
  get t g <> None ->
  (closed (add_edge s t g) <-> closed g /\ get s g <> None).
Proof.
  intros Ht. rewrite !closed_edge. split.
  - intros H. split.
    + intros u v Huv. rewrite <- (get_add_edge_None s t g u).
      apply (H u v). apply edge_add_edge; auto.
    + rewrite <- (get_add_edge_None s t g s).
      apply (H s t). apply edge_add_edge; auto.
  - intros [H Hs] u v Huv. rewrite (get_add_edge_None s t g u).
    apply edge_add_edge in Huv; [|assumption].
    destruct Huv as [Huv|[-> ->]]; [now apply (H u v) | assumption].
Qed.

Lemma closed_same_but_outgoing g' g :
  same_but_outgoing g' g -> (closed g' <-> closed g).
Proof.
  intros H. rewrite !closed_edge. split; intros Hc u v Huv.
  - rewrite <- (same_but_outgoing_None g' g u H).
    apply (Hc u v). now apply (same_but_outgoing_edge g' g u v H).
  - rewrite (same_but_outgoing_None g' g u H).
    apply (Hc u v). now apply (same_but_outgoing_edge g' g u v H).
Qed.

Lemma cyclic_ext g g' :
  (forall u v, edge g u v <-> edge g' u v) -> (cyclic g <-> cyclic g').
Proof.
  intros H. split; intros [x Hx]; exists x; revert Hx; apply path_ext;
    intros u v; apply H.
Qed.

(** What [willCreateCycle] does on every steps object: it throws when the
    target or a source of some connection does not exist, it answers
    whether the connection closes a cycle otherwise, and then the steps
    are as before up to their [outgoing_connections]. *)
Lemma willCreateCycle_spec fuel s t g :
  match willCreateCycle fuel s t g with
  | Returned b g' =>
      get t g <> None /\ closed (add_edge s t g)
      /\ same_but_outgoing g' g
      /\ (b = true <-> cyclic (add_edge s t g))
      /\ (forall u v, child_of g' u v <-> edge (add_edge s t g) u v)
  | TypeError _ => get t g = None \/ ~ closed (add_edge s t g)
  | OutOfFuel => fuel <= length (keys g)
  end.
Proof.
  cbv [willCreateCycle bind step_ref write_step get_state ret with_sets].
  destruct (get t g) as [st|] eqn:Et; [|now left].
  pose proof (add_edge_present s t st g Et) as Hadd.
  unfold JsArray.push at 1. cbv [fst].
  rewrite <- Hadd.
  set (g1 := add_edge s t g) in *.
  assert (Ht1 : get t g1
                = Some (with_incoming (incoming_connections st ++ [s]) st)).
  { rewrite Hadd. apply get_set_same. }
  destruct (reset_all g1) as (g2 & Hrun & Hs2 & Hempty). rewrite Hrun.
  pose proof (rebuild_all g2 Hempty) as Hreb. revert Hreb.
  destruct (for_in_steps rebuild_outgoing g2) as [[] g3|g3|]; intros Hreb;
    [| |contradiction].
  2:{ right. intros Hc. apply Hreb.
      now apply (closed_same_but_outgoing g2 g1 Hs2). }
  destruct Hreb as (Hc2 & Hs3 & Hall3 & Hchild).
  assert (Hs31 : same_but_outgoing g3 g1)
    by now apply same_but_outgoing_trans with g2.
  assert (Hc1 : closed g1) by now apply (closed_same_but_outgoing g2 g1 Hs2).
  assert (Hnode : forall x, In x (JsSet.of_list (keys g3))
                            <-> outgoing_of g3 x <> None).
  { intros x. rewrite In_of_list, <- get_In_keys. unfold outgoing_of.
    destruct (get x g3) as [sx|] eqn:Ex; [|tauto].
    split; [intros _; now apply (Hall3 x sx) | discriminate]. }
  pose proof (dfs_loop_run g3 fuel false (JsSet.of_list (keys g3)) [])
    as Hloop.
  revert Hloop.
  match goal with
  | |- context [dfs_loop fuel g3 false ?p] =>
      destruct (dfs_loop fuel g3 false p) as [b s'|s'|] eqn:Eloop
  end; intros Hloop; cbv beta iota.
  - destruct (same_but_outgoing_step g1 g3 t _
                (same_but_outgoing_sym _ _ Hs31) Ht1) as (st3 & Et3 & He3).
    rewrite Et3.
    split; [congruence|]. split; [assumption|]. split; [|split].
    + unfold same_but_outgoing in *.
      rewrite map_values_set, Hs31. rewrite Hadd.
      rewrite map_values_set, set_set. apply set_get_same.
      rewrite get_map_values, Et. simpl. f_equal.
      rewrite (erase_outgoing_incoming _ _ He3). simpl.
      pose proof (splice_pushed s (incoming_connections st)) as Hsp.
      unfold JsArray.push in Hsp. cbv [snd] in Hsp. rewrite Hsp.
      rewrite (erase_with_incoming _ _ _ He3).
      rewrite with_incoming_twice. now rewrite with_incoming_same.
    + rewrite (dfs_loop_sound g3 fuel _ b s' Hnode Eloop).
      split; intros [x Hx]; exists x; revert Hx; apply path_ext; intros u v Huv.
      * apply (same_but_outgoing_edge g2 g1 u v Hs2). now apply Hchild.
      * apply Hchild. now apply (same_but_outgoing_edge g2 g1 u v Hs2).
    + intros u v. rewrite <- (same_but_outgoing_edge g2 g1 u v Hs2).
      rewrite <- Hchild. unfold child_of. rewrite outgoing_of_set.
      destruct (String.eqb t u) eqn:Etu; [|reflexivity].
      apply String.eqb_eq in Etu. subst u. unfold outgoing_of.
      rewrite Et3. reflexivity.
  - exfalso. apply Hloop. intros x Hx. now apply Hnode.
  - assert (Hle : fuel <= length (JsSet.of_list (keys g3))).
    { apply Hloop. intros x Hx. now apply Hnode. }
    pose proof (length_of_list (keys g3)) as Hl.
    rewrite (same_but_outgoing_keys g3 g1 Hs31) in Hl.
    assert (Hk : keys g1 = keys g).
    { rewrite Hadd. apply keys_set_present. congruence. }
    rewrite (same_but_outgoing_keys g3 g1 Hs31), Hk in Hle.
    rewrite Hk in Hl. lia.
Qed.

(** The answer and the steps left by the check do not depend on the fuel
    that was enough for it. *)
Lemma willCreateCycle_fuel_irrelevant fuel1 fuel2 s t g b1 b2 g1 g2 :
  willCreateCycle fuel1 s t g = Returned b1 g1 ->
  willCreateCycle fuel2 s t g = Returned b2 g2 ->
  b1 = b2 /\ g1 = g2.
Proof.
  intros E1 E2. split.
  - pose proof (willCreateCycle_spec fuel1 s t g) as H1. rewrite E1 in H1.
    pose proof (willCreateCycle_spec fuel2 s t g) as H2. rewrite E2 in H2.
    destruct H1 as (_ & _ & _ & H1 & _), H2 as (_ & _ & _ & H2 & _).
    destruct b1, b2; try reflexivity.
    + symmetry. apply H2, H1. reflexivity.
    + apply H1, H2. reflexivity.
  - revert E1 E2.
    cbv [willCreateCycle bind step_ref write_step get_state ret with_sets].
    destruct (get t g) as [st|]; [|discriminate].
    destruct (for_in_steps reset_outgoing _) as [[] g2'|g2'|]; try discriminate.
    destruct (for_in_steps rebuild_outgoing g2') as [[] g3|g3|];
      try discriminate.
    destruct (dfs_loop fuel1 g3 false _) as [c1 s1|s1|]; try discriminate.
    destruct (dfs_loop fuel2 g3 false _) as [c2 s2|s2|]; try discriminate.
    destruct (get t g3) as [st3|]; try discriminate.
    intros [= _ <-] [= _ <-]. reflexivity.
Qed.

End CycleCheckFacts.

(** ** The mouse-up listener *)

Module ConnectFacts.
Import JsObject JsObjectFacts JsArrayFacts JsSetFacts DfsFacts GraphFacts
       CycleCheckFacts.

Lemma makeConnection_run s t st g :
  get t g = Some st ->
  makeConnection s t g
  = Returned tt (if (JsArray.indexOf s (incoming_connections st) =? -1)%Z
                 then add_edge s t g else g).
Proof.
  intros E. unfold makeConnection, bind, step_ref. rewrite E.
  destruct (JsArray.indexOf s (incoming_connections st) =? -1)%Z.
  - unfold write_step. now rewrite (add_edge_present s t st g E).
  - reflexivity.
Qed.

Lemma same_but_outgoing_add_edge s t g' g :
  same_but_outgoing g' g ->
  same_but_outgoing (add_edge s t g') (add_edge s t g).
Proof.
  intros H. unfold add_edge.
  destruct (get t g') as [st'|] eqn:E'.
  - destruct (same_but_outgoing_step g' g t st' H E') as (st & E & He).
    rewrite E. unfold same_but_outgoing in *.
    rewrite !map_values_set, H.
    rewrite (erase_outgoing_incoming _ _ He).
    now rewrite (erase_with_incoming _ _ _ He).
  - apply (same_but_outgoing_None g' g t H) in E'. now rewrite E'.
Qed.

(** The listener on every steps object. *)
Lemma connect_spec fuel s t g :
  match connect fuel s t g with
  | Returned r g' =>
      exists st, get t g = Some st /\
        ((In s (incoming_connections st)
          /\ r = mkConnectResult false [DuplicateConnectionError] /\ g' = g)
         \/ (~ In s (incoming_connections st)
             /\ closed (add_edge s t g) /\ cyclic (add_edge s t g)
             /\ r = mkConnectResult false [CycleError]
             /\ same_but_outgoing g' g)
         \/ (~ In s (incoming_connections st)
             /\ closed (add_edge s t g) /\ ~ cyclic (add_edge s t g)
             /\ r = mkConnectResult true []
             /\ same_but_outgoing g' (add_edge s t g)))
  | TypeError _ => get t g = None \/ ~ closed (add_edge s t g)
  | OutOfFuel => fuel <= length (keys g)
  end.
Proof.
  unfold connect, mouseup_newConnection.
  unfold bind at 1. unfold bind at 1. unfold step_ref at 1.
  destruct (get t g) as [st|] eqn:Et; [|now left].
  unfold ret at 1.
  destruct (JsArray.indexOf s (incoming_connections st) =? -1)%Z eqn:Ei.
  - apply indexOf_eqb_absent in Ei. simpl andb. cbv iota.
    unfold bind at 1.
    pose proof (willCreateCycle_spec fuel s t g) as Hw. revert Hw.
    destruct (willCreateCycle fuel s t g) as [b g3|g3|]; intros Hw;
      cbv beta iota; [| destruct Hw; [congruence | now right] | assumption].
    destruct Hw as (_ & Hc & Hs & Hb & _).
    destruct b; simpl.
    + unfold ret. exists st. split; [reflexivity|]. right. left.
      repeat split; auto. now apply Hb.
    + unfold bind.
      destruct (same_but_outgoing_step g g3 t st
                  (same_but_outgoing_sym _ _ Hs) Et) as (st3 & Et3 & He3).
      rewrite (makeConnection_run s t st3 g3 Et3).
      assert (Ei3 : (JsArray.indexOf s (incoming_connections st3) =? -1)%Z
                    = true).
      { apply indexOf_eqb_absent.
        now rewrite (erase_outgoing_incoming _ _ He3). }
      rewrite Ei3. unfold ret.
      exists st. split; [reflexivity|]. right. right.
      repeat split; auto.
      * intros Hcyc. apply Hb in Hcyc. discriminate.
      * now apply same_but_outgoing_add_edge.
  - apply indexOf_eqb_present in Ei. simpl. unfold bind, ret. simpl.
    exists st. split; [reflexivity|]. left. auto.
Qed.
Lemma closedb_closed g : closedb g = true -> closed g.
Proof.
  unfold closedb. rewrite forallb_forall. intros H k st x E Hx.
  apply get_Some_In in E. specialize (H _ E). simpl in H.
  rewrite forallb_forall in H. specialize (H x Hx).
  now apply hasOwnProperty_true.
Qed.

Lemma no_connections_acyclic g :
  (forall k st, get k g = Some st -> incoming_connections st = []) ->
  acyclic g.
Proof.
  intros H x Hx. apply clos_trans_t1n in Hx.
  destruct Hx as [y (sv & E & Hin)|y z (sv & E & Hin) _];
    rewrite (H _ _ E) in Hin; destruct Hin.
Qed.

(** Neither do the alerts and the steps left by the listener. *)
Lemma connect_fuel_irrelevant fuel1 fuel2 s t g r1 r2 g1 g2 :
  connect fuel1 s t g = Returned r1 g1 ->
  connect fuel2 s t g = Returned r2 g2 ->
  r1 = r2 /\ g1 = g2.
Proof.
  intros E1 E2.
  cbv [connect mouseup_newConnection bind step_ref ret andb negb] in E1, E2.
  destruct (get t g) as [st|]; [|discriminate].
  destruct (JsArray.indexOf s (incoming_connections st) =? -1)%Z.
  - destruct (willCreateCycle fuel1 s t g) as [b1 g1'|g1'|] eqn:W1;
      try discriminate.
    destruct (willCreateCycle fuel2 s t g) as [b2 g2'|g2'|] eqn:W2;
      try discriminate.
    destruct (willCreateCycle_fuel_irrelevant _ _ _ _ _ _ _ _ _ W1 W2)
      as [<- <-].
    rewrite E1 in E2. now injection E2 as <- <-.
  - rewrite E1 in E2. now injection E2 as <- <-.
Qed.

End ConnectFacts.

(** ** Connecting steps *)

Module ConnectClaims.
Import JsObject JsObjectFacts JsArrayFacts JsSetFacts DfsFacts GraphFacts
       CycleCheckFacts ConnectFacts.

(** C1.  Acyclicity invariant: from an acyclic graph, every sequence of
    connections that the listener makes leads to a graph in which no step
    reaches itself along [incoming_connections]. *)
Theorem acyclicity_invariant g g' :
  acyclic g -> connected_by g g' -> acyclic g'.
Proof.
  intros Hg Hseq. induction Hseq as [g|g g1 g2 fuel s t alerts Hc _ IH];
    [assumption|].
  apply IH. pose proof (connect_spec fuel s t g) as Hspec.
  rewrite Hc in Hspec.
  destruct Hspec as (st & Et & [(_ & Hr & _)|[(_ & _ & _ & Hr & _)|H]]);
    try discriminate.
  destruct H as (_ & _ & Hno & _ & Hs).
  apply acyclic_not_cyclic.
  now rewrite (same_but_outgoing_cyclic g1 (add_edge s t g) Hs).
Qed.

Lemma example_abc_acyclic : acyclic example_abc.
Proof.
  apply no_connections_acyclic. intros k st E.
  apply get_Some_In in E. simpl in E.
  destruct E as [E|[E|[E|[]]]]; injection E as _ <-; reflexivity.
Qed.

Lemma acyclicity_invariant_witness :
  acyclic example_abc /\ acyclic example_abc_chained.
Proof.
  split; [exact example_abc_acyclic|].
  apply (acyclicity_invariant example_abc example_abc_chained).
  - exact example_abc_acyclic.
  - eapply (one_more_connection _ _ _ 4 "A" "B" [])%string;
      [vm_compute; reflexivity|].
    eapply (one_more_connection _ _ _ 4 "B" "C" [])%string;
      [vm_compute; reflexivity|].
    apply no_connection.
Defined.

(** C2, as amended.  On steps whose connections name existing steps only,
    and for existing [s] and [t], [willCreateCycle(s, t)] returns, and it
    returns [true] exactly when the graph with the connection from [s] to
    [t] added has a cycle, wherever in the graph the cycle lies. *)
Theorem willCreateCycle_detects_cycles g s t fuel :
  closed g -> get s g <> None -> get t g <> None ->
  length (keys g) < fuel ->
  exists b g',
    willCreateCycle fuel s t g = Returned b g'
    /\ (b = true <-> cyclic (add_edge s t g)).
Proof.
  intros Hc Hs Ht Hfuel.
  pose proof (willCreateCycle_spec fuel s t g) as H. revert H.
  destruct (willCreateCycle fuel s t g) as [b g'|g'|]; intros H.
  - exists b, g'. split; [reflexivity|]. now destruct H as (_ & _ & _ & H & _).
  - exfalso. destruct H as [H|H]; [contradiction|].
    apply H. apply closed_add_edge; auto.
  - lia.
Qed.

Lemma willCreateCycle_detects_cycles_witness :
  exists b g',
    willCreateCycle 5 "S" "R" example_two_components = Returned b g'
    /\ (b = true <-> cyclic (add_edge "S" "R" example_two_components)).
Proof.
  apply (willCreateCycle_detects_cycles example_two_components "S" "R" 5).
  - apply closedb_closed. vm_compute. reflexivity.
  - vm_compute. discriminate.
  - vm_compute. discriminate.
  - vm_compute. lia.
Defined.

(** C2, as stated, fails: a connection that names a missing step makes the
    check throw, although the added connection closes a cycle. *)
Lemma willCreateCycle_dangling_source_throws :
  get "A"%string example_dangling <> None
  /\ cyclic (add_edge "A" "A" example_dangling)
  /\ forall fuel,
       willCreateCycle fuel "A" "A" example_dangling
       = TypeError example_dangling_thrown.
Proof.
  split; [vm_compute; discriminate|]. split.
  - exists "A"%string. apply t_step.
    eexists. split; [vm_compute; reflexivity|]. simpl. auto.
  - intros fuel. reflexivity.
Qed.

(** C3, as amended.  On steps whose connections name existing steps only,
    with A a source of B and B not yet a source of A, [connect(B, A)] makes
    no connection and raises the cycle alert, and the
    [incoming_connections] of A and of B are as before.  Whenever
    [willCreateCycle] returns, whatever it answers, every step is as before
    the call except for its derived [outgoing_connections], which then
    invert the connections with the hypothetical one among them. *)
Theorem cycle_rejected_up_to_outgoing :
  (forall g A B stA stB fuel,
     closed g ->
     get A g = Some stA -> get B g = Some stB ->
     In A (incoming_connections stB) -> ~ In B (incoming_connections stA) ->
     length (keys g) < fuel ->
     exists g',
       connect fuel B A g = Returned (mkConnectResult false [CycleError]) g'
       /\ same_but_outgoing g' g
       /\ incoming_of g' A = Some (incoming_connections stA)
       /\ incoming_of g' B = Some (incoming_connections stB))
  /\ (forall g s t fuel b g',
        willCreateCycle fuel s t g = Returned b g' ->
        same_but_outgoing g' g
        /\ (forall k, incoming_of g' k = incoming_of g k)
        /\ (forall u v, child_of g' u v <-> edge (add_edge s t g) u v)).
Proof.
  split.
  - intros g A B stA stB fuel Hc EA EB HAB HBA Hfuel.
    pose proof (connect_spec fuel B A g) as H. revert H.
    destruct (connect fuel B A g) as [r g'|g'|]; intros H.
    + destruct H as (st & Et & H).
      replace st with stA in * by congruence.
      assert (Hcyc : cyclic (add_edge B A g)).
      { exists A. apply t_trans with B; apply t_step;
          apply edge_add_edge; try congruence.
        - left. now exists stB.
        - now right. }
      destruct H as [(Hin & _)|[(_ & _ & _ & -> & Hs)|(_ & _ & Hno & _)]].
      * contradiction.
      * exists g'. split; [reflexivity|]. split; [assumption|].
        rewrite !(same_but_outgoing_incoming g' g _ Hs).
        unfold incoming_of. now rewrite EA, EB.
      * contradiction.
    + exfalso. destruct H as [H|H]; [congruence|].
      apply H. apply closed_add_edge; [congruence|]. split; [assumption|].
      congruence.
    + lia.
  - intros g s t fuel b g' E.
    pose proof (willCreateCycle_spec fuel s t g) as H. rewrite E in H.
    destruct H as (_ & _ & Hs & _ & Hout).
    split; [assumption|]. split; [|assumption].
    intros k. now apply same_but_outgoing_incoming.
Qed.

Lemma cycle_rejected_up_to_outgoing_witness :
  exists g',
    connect 3 "B" "A" example_ab
    = Returned (mkConnectResult false [CycleError]) g'
    /\ same_but_outgoing g' example_ab
    /\ incoming_of g' "A" = Some []
    /\ incoming_of g' "B" = Some ["A"%string].
Proof.
  apply (proj1 cycle_rejected_up_to_outgoing example_ab "A" "B"
           (example_step "A" "a.py" []) (example_step "B" "b.py" ["A"]) 3)%string.
  - apply closedb_closed. vm_compute. reflexivity.
  - reflexivity.
  - reflexivity.
  - simpl. auto.
  - simpl. tauto.
  - vm_compute. lia.
Defined.

(** C3, as stated, fails: the check leaves the [outgoing_connections] it
    has rebuilt on the steps, the hypothetical connection included; two
    steps connected both ways get the duplicate alert, not the cycle alert;
    and a connection that names a missing step makes the check throw before
    it removes the temporary connection. *)
Lemma willCreateCycle_rewrites_outgoing :
  (willCreateCycle 3 "B" "A" example_ab = Returned true example_ab_checked
   /\ example_ab_checked <> example_ab)
  /\ connect 3 "B" "A" example_ab_both
     = Returned (mkConnectResult false [DuplicateConnectionError])
         example_ab_both
  /\ (forall fuel,
        connect fuel "B" "A" example_ab_dangling
        = TypeError example_ab_dangling_thrown)
  /\ incoming_of example_ab_dangling "A" = Some ["ghost"%string]
  /\ incoming_of example_ab_dangling_thrown "A" = Some ["ghost"; "B"]%string.
Proof.
  split; [split|split; [|split; [|split]]].
  - vm_compute. reflexivity.
  - discriminate.
  - vm_compute. reflexivity.
  - intros fuel. reflexivity.
  - reflexivity.
  - reflexivity.
Qed.

(** C4, as amended.  [connect(X, X)] never makes the connection: whenever
    the listener returns, it has made none and raised an alert, the
    [incoming_connections] of X are as before and so is every step up to
    [outgoing_connections]; and on steps whose connections name existing
    steps only it does return. *)
Theorem no_self_loop :
  (forall g X fuel r g',
     connect fuel X X g = Returned r g' ->
     connected r = false /\ alerts r <> []
     /\ incoming_of g' X = incoming_of g X /\ same_but_outgoing g' g)
  /\ (forall g X fuel,
        closed g -> get X g <> None -> length (keys g) < fuel ->
        exists r g',
          connect fuel X X g = Returned r g'
          /\ connected r = false /\ alerts r <> []
          /\ incoming_of g' X = incoming_of g X /\ same_but_outgoing g' g).
Proof.
  assert (Hret : forall g X fuel r g',
             connect fuel X X g = Returned r g' ->
             connected r = false /\ alerts r <> []
             /\ incoming_of g' X = incoming_of g X /\ same_but_outgoing g' g).
  { intros g X fuel r g' E.
    pose proof (connect_spec fuel X X g) as H. rewrite E in H.
    destruct H as (st & Et & [(_ & -> & ->)|[(_ & _ & _ & -> & Hs)|H]]).
    - repeat split; try reflexivity. discriminate.
    - repeat split; try assumption; try discriminate.
      now apply same_but_outgoing_incoming.
    - exfalso. destruct H as (_ & _ & Hno & _). apply Hno.
      exists X. apply t_step. apply edge_add_edge; [congruence|]. now right. }
  split; [exact Hret|].
  intros g X fuel Hc HX Hfuel.
  pose proof (connect_spec fuel X X g) as H. revert H.
  destruct (connect fuel X X g) as [r g'|g'|] eqn:E; intros H.
  - exists r, g'. split; [reflexivity|]. now apply (Hret g X fuel).
  - exfalso. destruct H as [H|H]; [contradiction|].
    apply H. apply closed_add_edge; auto.
  - lia.
Qed.

Lemma no_self_loop_witness :
  exists r g',
    connect 4 "B" "B" example_chain = Returned r g'
    /\ connected r = false /\ alerts r <> []
    /\ incoming_of g' "B" = incoming_of example_chain "B"
    /\ same_but_outgoing g' example_chain.
Proof.
  apply (proj2 no_self_loop example_chain "B"%string 4).
  - apply closedb_closed. vm_compute. reflexivity.
  - vm_compute. discriminate.
  - vm_compute. lia.
Defined.

(** C4, as stated, fails: when a connection names a missing step the
    listener throws after the temporary self connection has been pushed,
    and A is left among its own [incoming_connections]. *)
Lemma self_loop_left_after_throw :
  get "A"%string example_dangling <> None
  /\ (forall fuel,
        connect fuel "A" "A" example_dangling
        = TypeError example_dangling_thrown)
  /\ incoming_of example_dangling "A" = Some ["ghost"%string]
  /\ incoming_of example_dangling_thrown "A" = Some ["ghost"; "A"]%string.
Proof.
  split; [vm_compute; discriminate|]. split; [|split; reflexivity].
  intros fuel. reflexivity.
Qed.

(** C5.  When the source is already among the target's
    [incoming_connections], [connect] raises the already-connected alert,
    makes no connection and leaves the steps exactly as they are; the
    callback [makeConnection] itself would not add the source twice. *)
Theorem duplicate_connection_rejected g s t st fuel :
  get t g = Some st -> In s (incoming_connections st) ->
  connect fuel s t g
  = Returned (mkConnectResult false [DuplicateConnectionError]) g
  /\ makeConnection s t g = Returned tt g.
Proof.
  intros Et Hin. apply indexOf_eqb_present in Hin. split.
  - unfold connect, mouseup_newConnection, bind, step_ref, ret.
    rewrite Et, Hin. reflexivity.
  - rewrite (makeConnection_run s t st g Et). now rewrite Hin.
Qed.

Lemma duplicate_connection_rejected_witness :
  connect 0 "A" "B" example_ab
  = Returned (mkConnectResult false [DuplicateConnectionError]) example_ab
  /\ makeConnection "A" "B" example_ab = Returned tt example_ab.
Proof.
  apply (duplicate_connection_rejected example_ab "A" "B"
           (example_step "B" "b.py" ["A"]) 0)%string.
  - reflexivity.
  - simpl. auto.
Defined.

(** C10.  The cycle check ends: with one unit of fuel more than there are
    steps it never runs out, and on steps whose connections name existing
    steps only, between two existing steps, it returns.  A search from a
    white step with as much fuel as white steps returns with fewer white
    steps, all of them white before, so that the depth of the recursion
    stays within the number of steps. *)
Theorem cycle_check_terminates :
  (forall g s t fuel,
     length (keys g) < fuel -> willCreateCycle fuel s t g <> OutOfFuel)
  /\ (forall g s t fuel,
        closed g -> get s g <> None -> get t g <> None ->
        length (keys g) < fuel ->
        exists b g', willCreateCycle fuel s t g = Returned b g')
  /\ (forall g fuel u (white grey : JsSet.t),
        (forall x, In x white -> outgoing_of g x <> None) ->
        In u white -> length white <= fuel ->
        exists b white' grey',
          dfsWithSets fuel g u (white, grey) = Returned b (white', grey')
          /\ length white' < length white /\ incl white' white).
Proof.
  split; [|split].
  - intros g s t fuel Hfuel E.
    pose proof (willCreateCycle_spec fuel s t g) as H. rewrite E in H. lia.
  - intros g s t fuel Hc Hs Ht Hfuel.
    pose proof (willCreateCycle_spec fuel s t g) as H. revert H.
    destruct (willCreateCycle fuel s t g) as [b g'|g'|]; intros H.
    + now exists b, g'.
    + exfalso. destruct H as [H|H]; [contradiction|].
      apply H. apply closed_add_edge; auto.
    + lia.
  - intros g fuel u white grey Hw Hu Hfuel.
    pose proof (dfs_run g fuel u white grey Hu Hw) as H. revert H.
    destruct (dfsWithSets fuel g u (white, grey)) as [b [white' grey']|s'|];
      intros H.
    + now exists b, white', grey'.
    + contradiction.
    + lia.
Qed.

Lemma cycle_check_terminates_witness :
  exists b g', willCreateCycle 4 "C" "A" example_chain = Returned b g'.
Proof.
  apply (proj1 (proj2 cycle_check_terminates) example_chain "C" "A" 4)%string.
  - apply closedb_closed. vm_compute. reflexivity.
  - vm_compute. discriminate.
  - vm_compute. discriminate.
  - vm_compute. lia.
Defined.
End ConnectClaims.

(** ** Deleting a step *)

Module DeleteFacts.
Import JsObject JsObjectFacts JsArrayFacts.

Lemma without_all_absent x l : ~ In x l -> without_all x l = l.
Proof.
  unfold without_all. induction l as [|y l IH]; simpl; [reflexivity|].
  intros H. destruct (String.eqb y x) eqn:E.
  - apply String.eqb_eq in E. subst. tauto.
  - simpl. rewrite IH; tauto.
Qed.

Lemma remove_first_NoDup_all x l :
  NoDup l -> remove_first x l = without_all x l.
Proof.
  unfold without_all. induction 1 as [|y l Hy Hl IH]; simpl; [reflexivity|].
  destruct (String.eqb y x) eqn:E; simpl.
  - apply String.eqb_eq in E. subst y. symmetry. now apply without_all_absent.
  - now rewrite IH.
Qed.

Lemma In_without_all x y l : In y (without_all x l) <-> In y l /\ y <> x.
Proof.
  unfold without_all. rewrite filter_In, negb_true_iff, String.eqb_neq.
  tauto.
Qed.

Lemma strip_connection_run u key st g :
  get key g = Some st ->
  strip_connection u key g = Returned tt (set key (without_source u st) g).
Proof.
  intros E. unfold strip_connection, bind, step_ref. rewrite E.
  unfold without_source.
  destruct (JsArray.indexOf u (incoming_connections st) =? -1)%Z eqn:Ei; simpl.
  - apply indexOf_eqb_absent in Ei.
    rewrite (remove_first_absent _ _ Ei).
    destruct st; simpl. unfold ret. f_equal. symmetry.
    now apply set_get_same.
  - unfold write_step. rewrite splice_indexOf; [reflexivity|].
    now apply Z.eqb_neq.
Qed.

(** The first loop of [deleteStep] visits every key and strips [u] at each
    visit. *)
Lemma strip_loop u ks : forall g,
  exists g',
    for_each ks (if_own (strip_connection u)) g = Returned tt g'
    /\ keys g' = keys g
    /\ forall k, exists n,
         get k g' = option_map (Nat.iter n (without_source u)) (get k g)
         /\ (In k ks -> 1 <= n).
Proof.
  induction ks as [|k0 ks IH]; intros g; simpl.
  - exists g. split; [reflexivity|]. split; [reflexivity|].
    intros k. exists 0. split; [|intros []]. simpl. now destruct (get k g).
  - unfold bind at 1. unfold if_own at 1. unfold hasOwnProperty.
    destruct (get k0 g) as [st|] eqn:E0.
    + rewrite (strip_connection_run u k0 st g E0).
      destruct (IH (set k0 (without_source u st) g)) as (g' & Hrun & Hk & Hget).
      exists g'. split; [assumption|]. split.
      * rewrite Hk. apply keys_set_present. congruence.
      * intros k. destruct (Hget k) as (n & Hn & Hge).
        rewrite get_set in Hn. destruct (String.eqb k0 k) eqn:Ek.
        -- apply String.eqb_eq in Ek. subst k. exists (S n).
           split; [|lia]. rewrite Hn, E0. simpl. f_equal.
           now rewrite <- Nat.iter_succ_r.
        -- apply String.eqb_neq in Ek. exists n. split; [assumption|].
           intros [?|?]; [congruence | auto].
    + destruct (IH g) as (g' & Hrun & Hk & Hget).
      exists g'. split; [assumption|]. split; [assumption|].
      intros k. destruct (Hget k) as (n & Hn & Hge).
      destruct (string_dec k0 k) as [<-|Hne].
      * exists 1. split; [|lia]. rewrite Hn, E0. reflexivity.
      * exists n. split; [assumption|]. intros [?|?]; [congruence | auto].
Qed.

Lemma iter_without_source u st n :
  NoDup (incoming_connections st) -> 1 <= n ->
  Nat.iter n (without_source u) st
  = with_incoming (without_all u (incoming_connections st)) st.
Proof.
  intros Hnd Hn. destruct n as [|n]; [lia|]. clear Hn.
  induction n as [|n IH].
  - simpl. unfold without_source. now rewrite remove_first_NoDup_all.
  - change (Nat.iter (S (S n)) (without_source u) st)
      with (without_source u (Nat.iter (S n) (without_source u) st)).
    rewrite IH. unfold without_source. simpl.
    rewrite remove_first_absent; [reflexivity|].
    rewrite In_without_all. tauto.
Qed.

(** When no step names [u], the first loop of [deleteStep] changes
    nothing. *)
Lemma strip_loop_unreferenced u ks : forall g,
  (forall k st, get k g = Some st -> ~ In u (incoming_connections st)) ->
  for_each ks (if_own (strip_connection u)) g = Returned tt g.
Proof.
  induction ks as [|k0 ks IH]; intros g H; simpl; [reflexivity|].
  unfold bind at 1. unfold if_own at 1. unfold hasOwnProperty.
  destruct (get k0 g) as [st|] eqn:E0; [|now apply IH].
  rewrite (strip_connection_run u k0 st g E0).
  unfold without_source. rewrite (remove_first_absent _ _ (H k0 st E0)).
  rewrite CycleCheckFacts.with_incoming_same, (set_get_same _ _ _ E0). now apply IH.
Qed.


End DeleteFacts.

(** ** Validation *)

Module ValidateFacts.
Import JsObject JsObjectFacts.

Lemma first_sharing_Some step others o :
  first_sharing step others = Some o ->
  In o others /\ uuid step <> uuid o /\ file_path o = file_path step.
Proof.
  induction others as [|x others IH]; simpl; [discriminate|].
  destruct (String.eqb (uuid step) (uuid x)) eqn:Eu.
  - intros H. destruct (IH H) as (H1 & H2 & H3). auto.
  - destruct (String.eqb (file_path x) (file_path step)) eqn:Ef.
    + intros [= <-]. apply String.eqb_neq in Eu. apply String.eqb_eq in Ef.
      auto.
    + intros H. destruct (IH H) as (H1 & H2 & H3). auto.
Qed.

Lemma first_sharing_None step others :
  first_sharing step others = None ->
  forall o, In o others -> file_path o = file_path step ->
            uuid step = uuid o.
Proof.
  induction others as [|x others IH]; simpl; [intros _ o []|].
  destruct (String.eqb (uuid step) (uuid x)) eqn:Eu.
  - intros H o [<-|Ho] Hf; [now apply String.eqb_eq | now apply IH].
  - destruct (String.eqb (file_path x) (file_path step)) eqn:Ef;
      [discriminate|].
    intros H o [<-|Ho] Hf; [|now apply IH].
    apply String.eqb_neq in Ef. contradiction.
Qed.

Lemma prefix_app p b : String.prefix p (p ++ b) = true.
Proof.
  induction p as [|c p IH]; simpl; [now destruct b|].
  now destruct (Ascii.ascii_dec c c).
Qed.

Lemma includes_unfold part text :
  includes part text
  = String.prefix part text
    || match text with
       | EmptyString => false
       | String _ rest => includes part rest
       end.
Proof. now destruct text. Qed.

Lemma includes_prefix part rest : includes part (part ++ rest) = true.
Proof. now rewrite includes_unfold, prefix_app. Qed.

Lemma includes_cons c part text :
  includes part text = true -> includes part (String c text) = true.
Proof. intros H. simpl. rewrite H. apply orb_true_r. Qed.

Lemma includes_app_r before part text :
  includes part text = true -> includes part (before ++ text) = true.
Proof.
  intros H. induction before as [|c before IH]; [exact H|].
  now apply includes_cons.
Qed.

Ltac find_part :=
  cbn [append]; repeat apply includes_cons;
  first [apply includes_prefix | apply includes_app_r; find_part].

(** The error of the validation has the titles and the uuids of its two
    steps in it. *)
Lemma validation_error_names s o :
  names_step (validation_error s o) s /\ names_step (validation_error s o) o.
Proof.
  unfold names_step, validation_error. repeat split; find_part.
Qed.

Section WithExtension.
Variable extensionFromFilename : string -> string.

Lemma validate_loop_spec all remaining :
  (validate_loop extensionFromFilename all remaining
   = mkPipelineValidation true []
   /\ forall s o, In s remaining -> In o all ->
        extensionFromFilename (file_path s) = "ipynb"%string ->
        file_path o = file_path s -> uuid s = uuid o)
  \/ (exists s o,
        In s remaining /\ In o all
        /\ extensionFromFilename (file_path s) = "ipynb"%string
        /\ uuid s <> uuid o /\ file_path o = file_path s
        /\ validate_loop extensionFromFilename all remaining
           = mkPipelineValidation false [validation_error s o]).
Proof.
  induction remaining as [|step rest IH]; simpl.
  - left. split; [reflexivity | intros s o []].
  - destruct (String.eqb (extensionFromFilename (file_path step)) "ipynb")
      eqn:Ee.
    + apply String.eqb_eq in Ee.
      destruct (first_sharing step all) as [o|] eqn:Es.
      * right. destruct (first_sharing_Some _ _ _ Es) as (H1 & H2 & H3).
        exists step, o. repeat split; auto.
      * destruct IH as [[Hv Hno]|(s & o & Hs & H)].
        -- left. split; [assumption|].
           intros s o [<-|Hs] Ho He Hf; [|now apply (Hno s o)].
           now apply (first_sharing_None _ _ Es o).
        -- right. exists s, o. split; [now right | assumption].
    + apply String.eqb_neq in Ee.
      destruct IH as [[Hv Hno]|(s & o & Hs & H)].
      * left. split; [assumption|].
        intros s o [<-|Hs] Ho He Hf; [contradiction | now apply (Hno s o)].
      * right. exists s, o. split; [now right | assumption].
Qed.

(** C8.  [validatePipelineJSON] answers [valid: false] with one error
    whenever the document has two steps of different uuid on one notebook
    file: the error is about such a pair, and the title and the uuid of
    both steps occur in its text.  It answers [valid: true] without errors
    when there is no such pair, in particular when no step is a notebook,
    whatever files the steps share; it never reports more than one
    error. *)
Theorem validate_duplicate_notebooks (doc : Steps) :
  ((exists s o, notebook_conflict extensionFromFilename doc s o) ->
   exists s o message,
     notebook_conflict extensionFromFilename doc s o
     /\ validatePipelineJSON extensionFromFilename doc
        = mkPipelineValidation false [message]
     /\ message = validation_error s o
     /\ names_step message s /\ names_step message o)
  /\ ((forall s, In s (own_values doc) ->
         extensionFromFilename (file_path s) <> "ipynb"%string) ->
      validatePipelineJSON extensionFromFilename doc
      = mkPipelineValidation true [])
  /\ (~ (exists s o, notebook_conflict extensionFromFilename doc s o) ->
      validatePipelineJSON extensionFromFilename doc
      = mkPipelineValidation true [])
  /\ length (errors (validatePipelineJSON extensionFromFilename doc)) <= 1.
Proof.
  unfold validatePipelineJSON, notebook_conflict.
  destruct (validate_loop_spec (own_values doc) (own_values doc))
    as [[Hv Hno]|(s & o & Hs & Ho & He & Hu & Hf & Hv)]; rewrite Hv.
  - split; [|split; [|split]]; auto.
    intros (s & o & Hs & Ho & He & Hu & Hf). exfalso.
    apply Hu. now apply (Hno s o).
  - split; [|split; [|split]].
    + intros _. exists s, o, (validation_error s o).
      split; [repeat split; auto|]. split; [reflexivity|].
      split; [reflexivity|]. apply validation_error_names.
    + intros Hnone. exfalso. now apply (Hnone s).
    + intros Hnone. exfalso. apply Hnone. exists s, o. repeat split; auto.
    + simpl. lia.
Qed.
End WithExtension.

Lemma validate_duplicate_notebooks_witness :
  (exists s o message,
     notebook_conflict example_extension example_shared_notebook s o
     /\ validatePipelineJSON example_extension example_shared_notebook
        = mkPipelineValidation false [message]
     /\ message = validation_error s o
     /\ names_step message s /\ names_step message o)
  /\ validatePipelineJSON example_extension example_titled_notebooks
     = mkPipelineValidation false [example_titled_error]
  /\ validatePipelineJSON example_extension example_shared_script
     = mkPipelineValidation true [].
Proof.
  split; [|split; [reflexivity|]].
  - apply (proj1 (validate_duplicate_notebooks example_extension
                    example_shared_notebook)).
    exists (example_step "A" "train.ipynb" [])%string,
           (example_step "B" "train.ipynb" ["A"])%string.
    unfold notebook_conflict. simpl.
    repeat split; auto. discriminate.
  - apply (proj1 (proj2 (validate_duplicate_notebooks example_extension
                           example_shared_script))).
    simpl. intros s [<-|[<-|[]]]; vm_compute; discriminate.
Defined.
End ValidateFacts.

(** ** Encoding and decoding *)

Module EncodeFacts.
Import JsObject JsObjectFacts.

Lemma fold_keys_values {V A} (o : JsObject.t V) (f : A -> V -> A) ks :
  forall a,
    fold_left (fun acc key => match get key o with
                              | Some v => f acc v
                              | None => acc
                              end) ks a
    = fold_left f (flat_map (fun k => match get k o with
                                      | Some v => [v]
                                      | None => []
                                      end) ks) a.
Proof.
  induction ks as [|k ks IH]; intros a; simpl; [reflexivity|].
  rewrite fold_left_app. destruct (get k o); simpl; apply IH.
Qed.

Lemma fold_set_fresh {V W} (key : V -> string) (f : V -> W) vals :
  forall acc : JsObject.t W,
    NoDup (map key vals) ->
    (forall v, In v vals -> ~ In (key v) (keys acc)) ->
    fold_left (fun acc v => set (key v) (f v) acc) vals acc
    = acc ++ map (fun v => (key v, f v)) vals.
Proof.
  induction vals as [|v vals IH]; intros acc Hnd Hfresh; simpl.
  - now rewrite app_nil_r.
  - inversion Hnd as [|? ? Hv Hnd']; subst.
    assert (Hget : get (key v) acc = None).
    { apply get_None_keys. apply Hfresh. now left. }
    rewrite (set_absent _ _ _ Hget). rewrite IH; [|assumption|].
    + now rewrite <- app_assoc.
    + intros v' Hv'. unfold keys. rewrite map_app, in_app_iff. simpl.
      intros [H|[H|[]]].
      * apply (Hfresh v'); [now right | assumption].
      * apply Hv. rewrite H. now apply in_map.
Qed.

Lemma get_app_fresh {V} k (o o' : JsObject.t V) :
  ~ In k (keys o) -> get k (o ++ o') = get k o'.
Proof.
  induction o as [|[k' v'] o IH]; simpl; [reflexivity|].
  intros H. destruct (String.eqb k' k) eqn:E.
  - apply String.eqb_eq in E. tauto.
  - apply IH. tauto.
Qed.

Lemma own_values_NoDup {V} (o : JsObject.t V) :
  NoDup (keys o) -> own_values o = map snd o.
Proof.
  unfold own_values.
  assert (H : forall done rest : JsObject.t V, NoDup (keys (done ++ rest)) ->
            flat_map (fun k => match get k (done ++ rest) with
                               | Some v => [v]
                               | None => []
                               end) (keys rest) = map snd rest).
  { intros done rest. revert done.
    induction rest as [|[k v] rest IH]; intros done Hnd; simpl;
      [reflexivity|].
    assert (Hk : ~ In k (keys done)).
    { unfold keys in *. rewrite map_app in Hnd. simpl in Hnd.
      apply NoDup_remove_2 in Hnd. rewrite in_app_iff in Hnd. tauto. }
    rewrite (get_app_fresh k done _ Hk). simpl. rewrite String.eqb_refl.
    simpl. f_equal.
    specialize (IH (done ++ [(k, v)])). rewrite <- app_assoc in IH.
    now apply IH. }
  intros Hnd. apply (H [] o Hnd).
Qed.

Lemma encode_step_uuid s : uuid (encode_step s) = uuid s.
Proof. unfold encode_step. simpl. now destruct (outgoing_connections s). Qed.

Lemma fold_set_encode vals : forall acc,
  fold_left (fun acc step => set (uuid (encode_step step)) (encode_step step)
                                 acc) vals acc
  = fold_left (fun acc step => set (uuid step) (encode_step step) acc) vals acc.
Proof.
  induction vals as [|v vals IH]; intros acc; simpl; [reflexivity|].
  now rewrite encode_step_uuid, IH.
Qed.

(** The steps of the encoded document, when uuids are unique. *)
Lemma encodeJSON_steps st :
  NoDup (map uuid (own_values (steps st))) ->
  pj_steps (encodeJSON st)
  = map (fun s => (uuid s, encode_step s)) (own_values (steps st)).
Proof.
  intros Hnd. unfold encodeJSON. simpl.
  rewrite (fold_keys_values (steps st)
             (fun acc step => set (uuid (encode_step step)) (encode_step step)
                                  acc)).
  fold (own_values (steps st)).
  rewrite fold_set_encode.
  rewrite (fold_set_fresh uuid encode_step); auto.
Qed.

Lemma decode_steps_fresh doc :
  NoDup (keys doc) ->
  decode_steps doc [] = map_values runtime_defaults doc.
Proof.
  unfold decode_steps.
  assert (H : forall done rest : Steps, NoDup (keys (done ++ rest)) ->
            fold_left
              (fun acc key =>
                 match get key (done ++ rest) with
                 | Some step => set key (runtime_defaults step) acc
                 | None => acc
                 end) (keys rest) (map_values runtime_defaults done)
            = map_values runtime_defaults (done ++ rest)).
  { intros done rest. revert done.
    induction rest as [|[k v] rest IH]; intros done Hnd; simpl.
    - now rewrite app_nil_r.
    - assert (Hk : ~ In k (keys done)).
      { unfold keys in *. rewrite map_app in Hnd. simpl in Hnd.
        apply NoDup_remove_2 in Hnd. rewrite in_app_iff in Hnd. tauto. }
      rewrite (get_app_fresh k done _ Hk). simpl. rewrite String.eqb_refl.
      rewrite set_absent.
      2:{ apply get_None_keys. now rewrite keys_map_values. }
      specialize (IH (done ++ [(k, v)])). rewrite <- app_assoc in IH.
      simpl in IH. rewrite <- IH by assumption.
      unfold map_values. rewrite map_app. reflexivity. }
  intros Hnd. apply (H [] doc Hnd).
Qed.

Lemma keys_keyed {V W} (key : V -> string) (f : V -> W) vals :
  keys (map (fun v => (key v, f v)) vals) = map key vals.
Proof. unfold keys. rewrite map_map. reflexivity. Qed.

(** *** Private keys of [meta_data] *)

Lemma get_strip_loop ks : forall (m : JsObject.t JSON) k,
  get k (fold_left (fun m key => if is_private key then remove key m else m)
                   ks m)
  = if is_private k && existsb (String.eqb k) ks then None else get k m.
Proof.
  induction ks as [|k0 ks IH]; intros m k; simpl.
  - now rewrite andb_false_r.
  - rewrite IH. destruct (is_private k) eqn:Ep; simpl.
    + destruct (String.eqb k k0) eqn:E0; simpl.
      * apply String.eqb_eq in E0. subst k0. rewrite Ep.
        destruct (existsb (String.eqb k) ks); [reflexivity|].
        apply get_remove_same.
      * destruct (existsb (String.eqb k) ks); [reflexivity|].
        destruct (is_private k0); [|reflexivity].
        apply get_remove_other. apply String.eqb_neq in E0. congruence.
    + destruct (is_private k0) eqn:Ep0; [|reflexivity].
      apply get_remove_other. intros ->. congruence.
Qed.

Lemma get_strip_private m k :
  get k (strip_private m) = if is_private k then None else get k m.
Proof.
  unfold strip_private. rewrite get_strip_loop.
  destruct (is_private k); simpl; [|reflexivity].
  destruct (existsb (String.eqb k) (keys m)) eqn:E; [reflexivity|].
  apply (proj2 (get_None_keys k m)). intros Hin.
  assert (existsb (String.eqb k) (keys m) = true); [|congruence].
  apply existsb_exists. exists k. split; [assumption | apply String.eqb_refl].
Qed.

Lemma reloaded_fields s :
  uuid (reloaded s) = uuid s
  /\ title (reloaded s) = title s
  /\ file_path (reloaded s) = file_path s
  /\ incoming_connections (reloaded s) = incoming_connections s
  /\ environment (reloaded s) = environment s
  /\ kernel (reloaded s) = kernel s
  /\ parameters (reloaded s) = parameters s
  /\ outgoing_connections (reloaded s) = None.
Proof.
  unfold reloaded, runtime_defaults, encode_step. simpl.
  destruct (outgoing_connections s) eqn:E; simpl; repeat split; auto.
Qed.

Lemma encode_step_meta_data s key :
  get key (meta_data (encode_step s))
  = if is_private key then None else get key (meta_data s).
Proof.
  unfold encode_step. simpl.
  destruct (outgoing_connections s); simpl; apply get_strip_private.
Qed.

Lemma encode_step_outgoing s : outgoing_connections (encode_step s) = None.
Proof.
  unfold encode_step. simpl. now destruct (outgoing_connections s) eqn:E.
Qed.

Lemma meta_data_with_meta_data m s : meta_data (with_meta_data m s) = m.
Proof. reflexivity. Qed.

Lemma reloaded_meta_data s key :
  get key (meta_data (reloaded s))
  = if String.eqb "_dragged" key then Some (JBool false)
    else if String.eqb "_drag_count" key then Some (JNum 0)
    else if is_private key then None
    else get key (meta_data s).
Proof.
  unfold reloaded, runtime_defaults.
  rewrite meta_data_with_meta_data, !get_set.
  destruct (String.eqb "_dragged" key); [reflexivity|].
  destruct (String.eqb "_drag_count" key); [reflexivity|].
  apply encode_step_meta_data.
Qed.

(** C9.  Round trip: when the uuids of the steps are unique, decoding the
    encoded state into a fresh component gives the same steps in the same
    order, keyed by uuid, each with the same [incoming_connections] and
    other persistent fields; every private key of [meta_data] holds its
    default ([_drag_count] 0, [_dragged] false, any other one absent)
    whatever it held before, and [outgoing_connections] is absent; the
    encoded document has no private key and no [outgoing_connections]. *)
Theorem encode_decode_round_trip (st st0 : State) :
  NoDup (map uuid (own_values (steps st))) ->
  steps st0 = [] ->
  steps (decodeJSON (encodeJSON st) st0)
  = map (fun s => (uuid s, reloaded s)) (own_values (steps st))
  /\ map uuid (own_values (steps (decodeJSON (encodeJSON st) st0)))
     = map uuid (own_values (steps st))
  /\ map incoming_connections
       (own_values (steps (decodeJSON (encodeJSON st) st0)))
     = map incoming_connections (own_values (steps st))
  /\ (forall s key,
        In s (own_values (steps (decodeJSON (encodeJSON st) st0))) ->
        outgoing_connections s = None
        /\ (is_private key = true ->
            get key (meta_data s)
            = if String.eqb "_dragged" key then Some (JBool false)
              else if String.eqb "_drag_count" key then Some (JNum 0)
              else None))
  /\ (forall s key,
        In s (own_values (pj_steps (encodeJSON st))) ->
        outgoing_connections s = None
        /\ (is_private key = true -> get key (meta_data s) = None))
  /\ (forall s key,
        is_private key = false ->
        get key (meta_data (reloaded s)) = get key (meta_data s)).
Proof.
  intros Hnd H0.
  assert (Hdoc := encodeJSON_steps st Hnd).
  assert (Hkeys : NoDup (keys (pj_steps (encodeJSON st)))).
  { rewrite Hdoc, keys_keyed. exact Hnd. }
  assert (Hsteps : steps (decodeJSON (encodeJSON st) st0)
                   = map (fun s => (uuid s, reloaded s))
                         (own_values (steps st))).
  { unfold decodeJSON. cbn [steps].
    rewrite H0, (decode_steps_fresh _ Hkeys), Hdoc.
    unfold map_values. rewrite map_map. reflexivity. }
  assert (Hvals : own_values (steps (decodeJSON (encodeJSON st) st0))
                  = map reloaded (own_values (steps st))).
  { rewrite own_values_NoDup; rewrite Hsteps.
    - rewrite map_map. reflexivity.
    - rewrite keys_keyed. exact Hnd. }
  assert (Hdvals : own_values (pj_steps (encodeJSON st))
                   = map encode_step (own_values (steps st))).
  { rewrite (own_values_NoDup _ Hkeys), Hdoc. rewrite map_map. reflexivity. }
  split; [exact Hsteps|]. rewrite Hvals, Hdvals. rewrite !map_map.
  split; [apply map_ext; intros s; apply reloaded_fields|].
  split; [apply map_ext; intros s; apply reloaded_fields|].
  split; [|split].
  - intros s key Hs. apply in_map_iff in Hs. destruct Hs as (s0 & <- & _).
    split; [apply reloaded_fields|].
    intros Hp. rewrite reloaded_meta_data, Hp. reflexivity.
  - intros s key Hs. apply in_map_iff in Hs. destruct Hs as (s0 & <- & _).
    split; [apply encode_step_outgoing|].
    intros Hp. now rewrite encode_step_meta_data, Hp.
  - intros s key Hp. rewrite reloaded_meta_data, Hp.
    destruct key as [|c key]; [reflexivity|].
    simpl in Hp.
    destruct (String.eqb "_dragged" (String c key)) eqn:E1.
    { apply String.eqb_eq in E1. injection E1 as <- _. discriminate. }
    destruct (String.eqb "_drag_count" (String c key)) eqn:E2.
    { apply String.eqb_eq in E2. injection E2 as <- _. discriminate. }
    reflexivity.
Qed.

Lemma encode_decode_round_trip_witness :
  steps (decodeJSON (encodeJSON example_state)
           (fresh_state (pipelineJson example_state)))
  = map (fun s => (uuid s, reloaded s)) (own_values (steps example_state))
  /\ get "_drag_count"%string
       (meta_data (reloaded example_dragged_step)) = Some (JNum 0)
  /\ get "_dragged"%string
       (meta_data (reloaded example_dragged_step)) = Some (JBool false).
Proof.
  split; [|split; reflexivity].
  apply (encode_decode_round_trip example_state
           (fresh_state (pipelineJson example_state))).
  - vm_compute. repeat constructor; simpl; intuition discriminate.
  - reflexivity.
Defined.
End EncodeFacts.

(** ** The tests of consistency *)

Module ConsistentFacts.
Import JsObject JsObjectFacts.

Lemma nodupb_NoDup {X} (eqb : X -> X -> bool) l :
  (forall x y, eqb x y = true <-> x = y) ->
  nodupb eqb l = true -> NoDup l.
Proof.
  intros Heq. induction l as [|x l IH]; simpl; [constructor|].
  rewrite andb_true_iff, negb_true_iff. intros [Hx Hl].
  constructor; [|now apply IH].
  intros Hin. assert (existsb (eqb x) l = true); [|congruence].
  apply existsb_exists. exists x. split; [assumption | now apply Heq].
Qed.

Lemma pair_eqb_eq p q : pair_eqb p q = true <-> p = q.
Proof.
  unfold pair_eqb. rewrite andb_true_iff, !String.eqb_eq.
  destruct p, q; simpl. split; [intros [-> ->] | intros [= -> ->]]; auto.
Qed.

Lemma edgeb_edge g s t : edgeb g s t = true <-> edge g s t.
Proof.
  unfold edgeb, edge. split.
  - destruct (get t g) as [st|]; [|discriminate].
    intros H. apply existsb_exists in H. destruct H as (x & Hx & E).
    apply String.eqb_eq in E. subst x. now exists st.
  - intros (st & E & Hin). rewrite E. apply existsb_exists.
    exists s. split; [assumption | apply String.eqb_refl].
Qed.

Lemma keyedb_keyed g : keyedb g = true -> keyed g.
Proof.
  unfold keyedb. rewrite forallb_forall. intros H k st E.
  apply get_Some_In in E. specialize (H _ E). now apply String.eqb_eq in H.
Qed.

Lemma no_duplicatesb_no_duplicates g :
  no_duplicatesb g = true -> no_duplicates g.
Proof.
  unfold no_duplicatesb. rewrite forallb_forall. intros H k st E.
  apply get_Some_In in E. specialize (H _ E). simpl in H.
  apply (nodupb_NoDup String.eqb); [apply String.eqb_eq | assumption].
Qed.

Lemma in_syncb_in_sync v : in_syncb v = true -> in_sync v.
Proof.
  unfold in_syncb, in_sync. cbv zeta.
  rewrite !andb_true_iff, !forallb_forall.
  intros ((((Hid & Hcr) & Hnd) & Hdr) & Hed).
  split; [apply (nodupb_NoDup Nat.eqb); [apply Nat.eqb_eq | assumption]|].
  split; [intros c Hc; now apply Nat.ltb_lt, Hcr|].
  split; [apply (nodupb_NoDup pair_eqb); [apply pair_eqb_eq | assumption]|].
  intros s t. split.
  - intros Hin. specialize (Hdr _ Hin). cbn [fst snd] in Hdr.
    apply andb_true_iff in Hdr. destruct Hdr as [He Hs].
    split; [now apply edgeb_edge | now apply hasOwnProperty_true].
  - intros [(st & Et & Hin) Hs].
    specialize (Hed t (get_Some_keys _ _ _ Et)). rewrite Et in Hed.
    rewrite forallb_forall in Hed. specialize (Hed s Hin).
    apply hasOwnProperty_true in Hs. rewrite Hs in Hed. simpl in Hed.
    apply existsb_exists in Hed. destruct Hed as (p & Hp & E).
    apply pair_eqb_eq in E. now subst p.
Qed.

Lemma consistentb_consistent v : consistentb v = true -> consistent v.
Proof.
  unfold consistentb, consistent. rewrite !andb_true_iff.
  intros [[Hk Hn] Hs].
  split; [now apply keyedb_keyed|].
  split; [now apply no_duplicatesb_no_duplicates | now apply in_syncb_in_sync].
Qed.

Lemma well_formedb g :
  keyedb g = true -> closedb g = true -> no_duplicatesb g = true ->
  well_formed g.
Proof.
  intros Hk Hc Hn. split; [now apply keyedb_keyed|].
  split; [now apply ConnectFacts.closedb_closed|].
  now apply no_duplicatesb_no_duplicates.
Qed.
Lemma example_view_consistent : consistent example_view.
Proof. apply consistentb_consistent. vm_compute. reflexivity. Qed.
End ConsistentFacts.

(** ** Steps that stay consistent *)

Module WellFormedFacts.
Import JsObject JsObjectFacts JsArrayFacts GraphFacts CycleCheckFacts.

Lemma keyed_set k st' g :
  keyed g -> uuid st' = k -> keyed (set k st' g).
Proof.
  intros Hk Hu x sx. rewrite get_set. destruct (String.eqb k x) eqn:E.
  - apply String.eqb_eq in E. intros [= <-]. congruence.
  - apply Hk.
Qed.

Lemma no_duplicates_set k (st' : Step) g :
  no_duplicates g -> NoDup (incoming_connections st') ->
  no_duplicates (set k st' g).
Proof.
  intros Hn Hd x sx. rewrite get_set. destruct (String.eqb k x).
  - now intros [= <-].
  - apply Hn.
Qed.

(** The connections after a write to the [incoming_connections] of the
    step under [t]. *)
Lemma edge_set_incoming t st l g u v :
  get t g = Some st ->
  (edge (set t (with_incoming l st) g) u v
   <-> (v = t /\ In u l) \/ (v <> t /\ edge g u v)).
Proof.
  intros Et. unfold edge. split.
  - intros (sv & E & Hin). rewrite get_set in E.
    destruct (String.eqb t v) eqn:Etv.
    + apply String.eqb_eq in Etv. injection E as <-. left. auto.
    + apply String.eqb_neq in Etv. right. split; [congruence|]. now exists sv.
  - intros [[-> Hin]|[Hne (sv & E & Hin)]].
    + exists (with_incoming l st). split; [apply get_set_same | assumption].
    + exists sv. split; [|assumption]. rewrite get_set_other; auto.
Qed.

Lemma get_set_incoming_None k t st l g :
  get t g = Some st ->
  (get k (set t (with_incoming l st) g) = None <-> get k g = None).
Proof.
  intros Et. rewrite get_set. destruct (String.eqb t k) eqn:E; [|tauto].
  apply String.eqb_eq in E. subst k. split; congruence.
Qed.

Lemma closed_set_incoming t st l g :
  closed g -> get t g = Some st ->
  (forall x, In x l -> get x g <> None) ->
  closed (set t (with_incoming l st) g).
Proof.
  intros Hc Et Hl k sk x E Hx.
  rewrite (get_set_incoming_None x t st l g Et).
  rewrite get_set in E. destruct (String.eqb t k).
  - injection E as <-. now apply Hl.
  - now apply (Hc k sk x).
Qed.

Lemma acyclic_fewer_edges g g' :
  (forall u v, edge g' u v -> edge g u v) -> acyclic g -> acyclic g'.
Proof.
  intros H Ha x Hx. apply (Ha x). revert Hx. now apply path_ext.
Qed.

Lemma keyed_same_but_outgoing g' g :
  same_but_outgoing g' g -> keyed g -> keyed g'.
Proof.
  intros Hs Hk k st' E.
  destruct (same_but_outgoing_step g' g k st' Hs E) as (st & E0 & He).
  rewrite <- (Hk k st E0).
  apply (f_equal uuid) in He. simpl in He. congruence.
Qed.

Lemma no_duplicates_same_but_outgoing g' g :
  same_but_outgoing g' g -> no_duplicates g -> no_duplicates g'.
Proof.
  intros Hs Hn k st' E.
  destruct (same_but_outgoing_step g' g k st' Hs E) as (st & E0 & He).
  rewrite <- (erase_outgoing_incoming _ _ He). now apply (Hn k st).
Qed.

Lemma acyclic_same_but_outgoing g' g :
  same_but_outgoing g' g -> acyclic g -> acyclic g'.
Proof.
  intros Hs. apply acyclic_fewer_edges. intros u v.
  now apply same_but_outgoing_edge.
Qed.

Lemma well_formed_same_but_outgoing g' g :
  same_but_outgoing g' g -> well_formed g -> well_formed g'.
Proof.
  intros Hs (Hk & Hc & Hn). split; [|split].
  - now apply keyed_same_but_outgoing with g.
  - now apply closed_same_but_outgoing with g.
  - now apply no_duplicates_same_but_outgoing with g.
Qed.

Lemma NoDup_snoc (x : string) l : NoDup l -> ~ In x l -> NoDup (l ++ [x]).
Proof.
  intros Hl Hx. induction Hl as [|y l Hy Hl IH]; simpl.
  - constructor; [intros []|constructor].
  - constructor.
    + rewrite in_app_iff. simpl. intros [H|[H|[]]]; [contradiction|].
      subst. apply Hx. now left.
    + apply IH. intros H. apply Hx. now right.
Qed.

Lemma keyed_add_edge s t g : keyed g -> keyed (add_edge s t g).
Proof.
  intros Hk. unfold add_edge. destruct (get t g) as [st|] eqn:Et; [|assumption].
  apply keyed_set; [assumption|]. simpl. now apply Hk.
Qed.

Lemma no_duplicates_add_edge s t st g :
  no_duplicates g -> get t g = Some st -> ~ In s (incoming_connections st) ->
  no_duplicates (add_edge s t g).
Proof.
  intros Hn Et Hs. rewrite (add_edge_present s t st g Et).
  apply no_duplicates_set; [assumption|]. simpl.
  apply NoDup_snoc; [now apply (Hn t st) | assumption].
Qed.

Lemma remove_first_NoDup_keeps x l : NoDup l -> NoDup (remove_first x l).
Proof.
  induction 1 as [|y l Hy Hl IH]; simpl; [constructor|].
  destruct (String.eqb y x); [assumption|].
  constructor; [|assumption]. intros H. apply Hy.
  now apply In_remove_first with x.
Qed.

Lemma remove_first_snoc x l : ~ In x l -> remove_first x (l ++ [x]) = l.
Proof.
  induction l as [|y l IH]; simpl; intros H.
  - now rewrite String.eqb_refl.
  - destruct (String.eqb y x) eqn:E.
    + apply String.eqb_eq in E. subst. tauto.
    + rewrite IH; tauto.
Qed.

Lemma In_remove_first_NoDup x y l :
  NoDup l -> (In y (remove_first x l) <-> In y l /\ y <> x).
Proof.
  intros Hl. split.
  - intros H. split; [now apply In_remove_first with x|].
    intros ->. now apply (remove_first_NoDup x l).
  - intros [H Hne]. apply In_remove_first_other; auto.
Qed.
End WellFormedFacts.

(** ** Disconnecting, and connecting again *)

Module DisconnectFacts.
Import JsObject JsObjectFacts JsArrayFacts GraphFacts CycleCheckFacts
       ConnectFacts WellFormedFacts.

Lemma removeConnection_run s t st g :
  get t g = Some st ->
  removeConnection s t g = Returned tt (set t (without_source s st) g).
Proof. exact (DeleteFacts.strip_connection_run s t st g). Qed.

(** X1.  [removeConnection(source, target)] on an existing target takes the
    first occurrence of the source out of the target's
    [incoming_connections] and touches nothing else; when the source is not
    there it changes nothing; on a target that does not exist it throws and
    the steps are as before. *)
Theorem removeConnection_removes_first_occurrence g s t :
  match get t g with
  | Some st =>
      exists g',
        removeConnection s t g = Returned tt g'
        /\ get t g'
           = Some (with_incoming (remove_first s (incoming_connections st)) st)
        /\ keys g' = keys g
        /\ (forall k, k <> t -> get k g' = get k g)
        /\ (~ In s (incoming_connections st) -> g' = g)
  | None => removeConnection s t g = TypeError g
  end.
Proof.
  destruct (get t g) as [st|] eqn:Et.
  - exists (set t (without_source s st) g).
    split; [now apply removeConnection_run|].
    split; [apply get_set_same|].
    split; [apply keys_set_present; congruence|].
    split; [intros k Hk; now apply get_set_other|].
    intros Hs. unfold without_source.
    rewrite (remove_first_absent _ _ Hs), with_incoming_same.
    now apply set_get_same.
  - unfold removeConnection, bind, step_ref. now rewrite Et.
Qed.

(** X2.  A connection made and removed again leaves the steps exactly as
    they were; a connection removed and made again is kept, as the last of
    the target's [incoming_connections]. *)
Theorem makeConnection_removeConnection_round_trip g s t st :
  get t g = Some st ->
  (~ In s (incoming_connections st) ->
   (makeConnection s t ;;; removeConnection s t) g = Returned tt g)
  /\ (NoDup (incoming_connections st) -> In s (incoming_connections st) ->
      exists g',
        (removeConnection s t ;;; makeConnection s t) g = Returned tt g'
        /\ get t g'
           = Some (with_incoming
                     (remove_first s (incoming_connections st) ++ [s]) st)
        /\ forall k, k <> t -> get k g' = get k g).
Proof.
  intros Et. split.
  - intros Hs. unfold bind at 1.
    rewrite (makeConnection_run s t st g Et).
    rewrite (proj2 (indexOf_eqb_absent s (incoming_connections st)) Hs).
    rewrite (add_edge_present s t st g Et).
    rewrite (removeConnection_run s t _ _ (get_set_same _ _ _)).
    unfold without_source. simpl.
    rewrite (remove_first_snoc _ _ Hs), with_incoming_twice, set_set.
    rewrite with_incoming_same. f_equal. now apply set_get_same.
  - intros Hnd Hs. unfold bind at 1.
    rewrite (removeConnection_run s t st g Et).
    set (g1 := set t (without_source s st) g).
    assert (E1 : get t g1 = Some (without_source s st))
      by apply get_set_same.
    rewrite (makeConnection_run s t _ g1 E1).
    assert (Hout : ~ In s (incoming_connections (without_source s st))).
    { simpl. now apply remove_first_NoDup. }
    rewrite (proj2 (indexOf_eqb_absent _ _) Hout).
    rewrite (add_edge_present s t _ g1 E1).
    eexists. split; [reflexivity|]. split.
    + rewrite get_set_same. unfold without_source. simpl.
      now rewrite with_incoming_twice.
    + intros k Hk. unfold g1. now rewrite !get_set_other.
Qed.

Lemma makeConnection_removeConnection_round_trip_witness :
  (makeConnection "A" "B" ;;; removeConnection "A" "B") example_abc
  = Returned tt example_abc.
Proof.
  apply (proj1 (makeConnection_removeConnection_round_trip example_abc
                  "A" "B" (example_step "B" "b.py" []) eq_refl))%string.
  simpl. tauto.
Defined.
End DisconnectFacts.

(** ** What the listener leaves behind *)

Module ConnectMoreFacts.
Import JsObject JsObjectFacts JsArrayFacts GraphFacts CycleCheckFacts
       ConnectFacts WellFormedFacts DisconnectFacts.

Lemma connect_present fuel s t st g :
  get t g = Some st -> In s (incoming_connections st) ->
  connect fuel s t g
  = Returned (mkConnectResult false [DuplicateConnectionError]) g.
Proof.
  intros Et Hin. apply indexOf_eqb_present in Hin.
  unfold connect, mouseup_newConnection, bind, step_ref, ret.
  rewrite Et, Hin. reflexivity.
Qed.

Lemma erase_without_source s st st' :
  erase_outgoing st = erase_outgoing st' ->
  erase_outgoing (without_source s st) = erase_outgoing (without_source s st').
Proof.
  intros H. unfold without_source.
  rewrite (erase_outgoing_incoming _ _ H). now apply erase_with_incoming.
Qed.

(** X3.  After a connection that the listener has made, the source is the
    last of the target's [incoming_connections]; the same drag once more is
    answered with the already-connected alert and changes nothing; and
    [removeConnection] takes the steps back to what they were before the
    connection, up to the derived [outgoing_connections]. *)
Theorem connect_then_connect_or_disconnect fuel s t g a g1 :
  connect fuel s t g = Returned (mkConnectResult true a) g1 ->
  exists st,
    get t g = Some st
    /\ ~ In s (incoming_connections st)
    /\ incoming_of g1 t = Some (incoming_connections st ++ [s])
    /\ (forall fuel',
          connect fuel' s t g1
          = Returned (mkConnectResult false [DuplicateConnectionError]) g1)
    /\ exists g2,
         removeConnection s t g1 = Returned tt g2 /\ same_but_outgoing g2 g.
Proof.
  intros E. pose proof (connect_spec fuel s t g) as H. rewrite E in H.
  destruct H as (st & Et & [(_ & Hr & _)|[(_ & _ & _ & Hr & _)|H]]);
    try discriminate.
  destruct H as (Hs & _ & _ & _ & Hsame).
  exists st. split; [assumption|]. split; [assumption|].
  assert (Ea : get t (add_edge s t g)
               = Some (with_incoming (incoming_connections st ++ [s]) st)).
  { rewrite (add_edge_present s t st g Et). apply get_set_same. }
  destruct (same_but_outgoing_step _ _ t _ (same_but_outgoing_sym _ _ Hsame) Ea)
    as (st1 & E1 & He).
  assert (Hinc : incoming_connections st1 = incoming_connections st ++ [s]).
  { now rewrite (erase_outgoing_incoming _ _ He). }
  split; [unfold incoming_of; rewrite E1; simpl; now rewrite Hinc|].
  split.
  - intros fuel'. apply (connect_present fuel' s t st1 g1 E1).
    rewrite Hinc, in_app_iff. simpl. auto.
  - exists (set t (without_source s st1) g1).
    split; [now apply removeConnection_run|].
    unfold same_but_outgoing in *.
    rewrite map_values_set, Hsame, (add_edge_present s t st g Et).
    rewrite map_values_set, set_set.
    apply set_get_same. rewrite get_map_values, Et. simpl. f_equal.
    rewrite (erase_without_source s _ _ He).
    unfold without_source. simpl.
    rewrite (remove_first_snoc _ _ Hs), with_incoming_twice.
    now rewrite with_incoming_same.
Qed.

Lemma connect_then_connect_or_disconnect_witness :
  exists st,
    get "B"%string example_abc = Some st
    /\ ~ In "A"%string (incoming_connections st)
    /\ incoming_of example_abc_connected "B"
       = Some (incoming_connections st ++ ["A"%string])
    /\ (forall fuel',
          connect fuel' "A" "B" example_abc_connected
          = Returned (mkConnectResult false [DuplicateConnectionError])
              example_abc_connected)
    /\ exists g2,
         removeConnection "A" "B" example_abc_connected = Returned tt g2
         /\ same_but_outgoing g2 example_abc.
Proof.
  apply (connect_then_connect_or_disconnect 4 "A" "B" example_abc []
           example_abc_connected)%string.
  vm_compute. reflexivity.
Defined.

(** X4.  Whatever the listener answers, it leaves consistent steps
    consistent: every step under its own uuid, every connection from an
    existing step, no connection twice; and steps without a cycle stay
    without one. *)
Theorem connect_keeps_well_formed fuel s t g r g' :
  well_formed g -> connect fuel s t g = Returned r g' ->
  well_formed g' /\ (acyclic g -> acyclic g').
Proof.
  intros Hwf E. pose proof (connect_spec fuel s t g) as H. rewrite E in H.
  destruct H as (st & Et & [(_ & _ & ->)|[(_ & _ & _ & _ & Hs)|H]]).
  - auto.
  - split; [now apply well_formed_same_but_outgoing with g|].
    now apply acyclic_same_but_outgoing.
  - destruct H as (Hin & Hc & Hno & _ & Hs).
    destruct Hwf as (Hk & _ & Hn). split.
    + apply well_formed_same_but_outgoing with (1 := Hs).
      split; [now apply keyed_add_edge|]. split; [assumption|].
      now apply no_duplicates_add_edge with st.
    + intros _. apply acyclic_same_but_outgoing with (1 := Hs).
      now apply acyclic_not_cyclic.
Qed.

Lemma connect_keeps_well_formed_witness :
  well_formed example_abc /\ well_formed example_abc_connected.
Proof.
  assert (H : well_formed example_abc) by (apply ConsistentFacts.well_formedb; reflexivity).
  split; [exact H|].
  apply (connect_keeps_well_formed 4 "A" "B" example_abc
           (mkConnectResult true []) example_abc_connected H)%string.
  vm_compute. reflexivity.
Defined.

(** *** The steps an exception leaves *)

Lemma for_each_outcome {S X} (R : S -> S -> Prop) (body : X -> M S unit) l :
  (forall s, R s s) ->
  (forall a b c, R a b -> R b c -> R a c) ->
  (forall x s, match body x s with
               | Returned _ s' | TypeError s' => R s' s
               | OutOfFuel => True
               end) ->
  forall s, match for_each l body s with
            | Returned _ s' | TypeError s' => R s' s
            | OutOfFuel => True
            end.
Proof.
  intros Hrefl Htrans Hbody. induction l as [|x l IH]; intros s; simpl.
  - apply Hrefl.
  - unfold bind. specialize (Hbody x s).
    destruct (body x s) as [[] s1|s1|]; [|assumption|exact I].
    specialize (IH s1).
    destruct (for_each l body s1) as [[] s2|s2|]; [| |exact I];
      now apply Htrans with s1.
Qed.

Lemma if_own_outcome (R : Steps -> Steps -> Prop) body :
  (forall s, R s s) ->
  (forall x s, match body x s with
               | Returned _ s' | TypeError s' => R s' s
               | OutOfFuel => True
               end) ->
  forall x s, match if_own body x s with
              | Returned _ s' | TypeError s' => R s' s
              | OutOfFuel => True
              end.
Proof.
  intros Hrefl Hbody x s. unfold if_own.
  destruct (hasOwnProperty x s); [apply Hbody | apply Hrefl].
Qed.

Lemma reset_outgoing_outcome k g :
  match reset_outgoing k g with
  | Returned _ g' | TypeError g' => same_but_outgoing g' g
  | OutOfFuel => True
  end.
Proof.
  unfold reset_outgoing, bind, step_ref.
  destruct (get k g) as [st|] eqn:E; [|reflexivity].
  unfold write_step. now apply same_but_outgoing_set with st.
Qed.

Lemma push_outgoing_outcome k src g :
  match push_outgoing k src g with
  | Returned _ g' | TypeError g' => same_but_outgoing g' g
  | OutOfFuel => True
  end.
Proof.
  unfold push_outgoing, bind, step_ref.
  destruct (get src g) as [st|] eqn:E; [|reflexivity].
  destruct (outgoing_connections st); [|reflexivity].
  unfold write_step. now apply same_but_outgoing_set with st.
Qed.

Lemma rebuild_outgoing_outcome k g :
  match rebuild_outgoing k g with
  | Returned _ g' | TypeError g' => same_but_outgoing g' g
  | OutOfFuel => True
  end.
Proof.
  unfold rebuild_outgoing, bind, step_ref.
  destruct (get k g) as [st|] eqn:E; [|reflexivity].
  apply (for_each_outcome same_but_outgoing).
  - apply same_but_outgoing_refl.
  - apply same_but_outgoing_trans.
  - apply push_outgoing_outcome.
Qed.

Lemma for_in_steps_outcome body g :
  (forall x s, match body x s with
               | Returned _ s' | TypeError s' => same_but_outgoing s' s
               | OutOfFuel => True
               end) ->
  match for_in_steps body g with
  | Returned _ g' | TypeError g' => same_but_outgoing g' g
  | OutOfFuel => True
  end.
Proof.
  intros Hbody. unfold for_in_steps.
  apply (for_each_outcome same_but_outgoing).
  - apply same_but_outgoing_refl.
  - apply same_but_outgoing_trans.
  - apply if_own_outcome; [apply same_but_outgoing_refl | assumption].
Qed.

(** When the cycle check throws, the temporary connection is still among
    the [incoming_connections] of the target. *)
Lemma willCreateCycle_thrown fuel s t g g' :
  willCreateCycle fuel s t g = TypeError g' ->
  (get t g = None /\ g' = g)
  \/ (get t g <> None /\ same_but_outgoing g' (add_edge s t g)).
Proof.
  unfold willCreateCycle.
  unfold bind at 1. unfold step_ref at 1.
  destruct (get t g) as [st|] eqn:Et.
  2:{ intros [= <-]. now left. }
  intros H. right. split; [discriminate|]. revert H.
  unfold bind at 1. unfold write_step at 1.
  assert (Ha : set t (with_incoming
                        (fst (JsArray.push s (incoming_connections st))) st) g
               = add_edge s t g).
  { now rewrite (add_edge_present s t st g Et). }
  rewrite Ha. clear Ha. set (g1 := add_edge s t g).
  unfold bind at 1.
  pose proof (for_in_steps_outcome reset_outgoing g1 reset_outgoing_outcome)
    as H2.
  destruct (for_in_steps reset_outgoing g1) as [[] g2|g2|];
    [|now intros [= <-]|discriminate].
  unfold bind at 1.
  pose proof (for_in_steps_outcome rebuild_outgoing g2
                rebuild_outgoing_outcome) as H3.
  destruct (for_in_steps rebuild_outgoing g2) as [[] g3|g3|];
    [| intros [= <-]; now apply same_but_outgoing_trans with g2 | discriminate].
  assert (H31 : same_but_outgoing g3 g1)
    by now apply same_but_outgoing_trans with g2.
  unfold bind at 1. unfold get_state at 1.
  unfold bind at 1. unfold with_sets at 1.
  match goal with
  | |- context [dfs_loop fuel g3 false ?p] =>
      destruct (dfs_loop fuel g3 false p) as [c p'|p'|]
  end; [|now intros [= <-]|discriminate].
  unfold bind at 1. unfold step_ref at 1.
  destruct (get t g3) as [st3|]; [|now intros [= <-]].
  unfold bind, write_step, ret. discriminate.
Qed.

(** X5.  The listener has no rollback: when it throws, either the target
    does not exist and nothing was touched, or a connection names a step
    that does not exist and the temporary connection of the cycle check is
    left as the last of the target's [incoming_connections]. *)
Theorem connect_throws_without_rollback fuel s t g g' :
  connect fuel s t g = TypeError g' ->
  (get t g = None /\ g' = g)
  \/ (exists st,
        get t g = Some st
        /\ ~ In s (incoming_connections st)
        /\ ~ closed (add_edge s t g)
        /\ incoming_of g' t = Some (incoming_connections st ++ [s])
        /\ same_but_outgoing g' (add_edge s t g)).
Proof.
  intros E. pose proof (connect_spec fuel s t g) as Hspec.
  rewrite E in Hspec. revert E.
  unfold connect, mouseup_newConnection.
  unfold bind at 1. unfold bind at 1. unfold step_ref at 1.
  destruct (get t g) as [st|] eqn:Et.
  2:{ intros [= <-]. now left. }
  unfold ret at 1.
  destruct (JsArray.indexOf s (incoming_connections st) =? -1)%Z eqn:Ei.
  2:{ simpl. unfold bind, ret. simpl. discriminate. }
  apply indexOf_eqb_absent in Ei. simpl andb. cbv iota.
  unfold bind at 1.
  pose proof (willCreateCycle_spec fuel s t g) as Hw.
  destruct (willCreateCycle fuel s t g) as [b g3|g3|] eqn:Ew;
    [| |discriminate].
  - destruct Hw as (_ & _ & Hs & _).
    destruct (same_but_outgoing_step g g3 t st
                (same_but_outgoing_sym _ _ Hs) Et) as (st3 & Et3 & _).
    destruct b; simpl; unfold ret; [discriminate|].
    unfold bind. rewrite (makeConnection_run s t st3 g3 Et3). discriminate.
  - intros [= <-]. right. exists st. split; [reflexivity|].
    split; [assumption|].
    destruct Hspec as [Hn|Hc]; [congruence|]. split; [assumption|].
    destruct (willCreateCycle_thrown _ _ _ _ _ Ew) as [[Hn _]|[_ Hs]];
      [congruence|].
    split; [|assumption].
    rewrite (same_but_outgoing_incoming _ _ t Hs).
    unfold incoming_of. rewrite (add_edge_present s t st g Et), get_set_same.
    reflexivity.
Qed.

Lemma connect_throws_without_rollback_witness :
  (get "A"%string example_ab_dangling = None
   /\ example_ab_dangling_thrown = example_ab_dangling)
  \/ (exists st,
        get "A"%string example_ab_dangling = Some st
        /\ ~ In "B"%string (incoming_connections st)
        /\ ~ closed (add_edge "B" "A" example_ab_dangling)
        /\ incoming_of example_ab_dangling_thrown "A"
           = Some (incoming_connections st ++ ["B"%string])
        /\ same_but_outgoing example_ab_dangling_thrown
             (add_edge "B" "A" example_ab_dangling)).
Proof.
  apply (connect_throws_without_rollback 3 "B" "A" example_ab_dangling
           example_ab_dangling_thrown)%string.
  reflexivity.
Defined.
End ConnectMoreFacts.

(** ** Consistent steps under [deleteStep_steps], [removeConnection] and
    [stepNameUpdate] *)

Module KeepWellFormedFacts.
Import JsObject JsObjectFacts JsArrayFacts GraphFacts CycleCheckFacts
       WellFormedFacts DisconnectFacts DeleteFacts.

(** The first loop of [deleteStep] on steps without a connection twice. *)
Lemma strip_all U g g1 :
  no_duplicates g ->
  for_each (keys g) (if_own (strip_connection U)) g = Returned tt g1 ->
  keys g1 = keys g
  /\ forall k,
       get k g1
       = option_map
           (fun st => with_incoming
                        (without_all U (incoming_connections st)) st)
           (get k g).
Proof.
  intros Hn Hrun.
  destruct (strip_loop U (keys g) g) as (g' & Hrun' & Hk & Hget).
  rewrite Hrun in Hrun'. injection Hrun' as <-.
  split; [assumption|]. intros k.
  destruct (Hget k) as (n & Hn' & Hge). rewrite Hn'.
  destruct (get k g) as [st|] eqn:Eg; [|reflexivity]. simpl. f_equal.
  apply iter_without_source; [now apply (Hn k st)|].
  apply Hge. now apply get_Some_keys with st.
Qed.

(** [deleteStep_steps] on steps without a connection twice. *)
Lemma deleteStep_run g U :
  no_duplicates g -> get U g <> None ->
  exists g',
    deleteStep_steps U g = Returned tt g'
    /\ keys g' = without_all U (keys g)
    /\ forall k,
         get k g'
         = if String.eqb k U then None
           else option_map
                  (fun st => with_incoming
                               (without_all U (incoming_connections st)) st)
                  (get k g).
Proof.
  intros Hn HU. unfold deleteStep_steps, for_in_steps.
  destruct (strip_loop U (keys g) g) as (g1 & Hrun & Hk & Hget).
  unfold bind at 1. rewrite Hrun. unfold bind, step_ref.
  assert (HU1 : get U g1 <> None).
  { apply get_In_keys. rewrite Hk. now apply get_In_keys. }
  destruct (get U g1) as [stU|] eqn:EU; [|congruence].
  exists (remove U g1). split; [reflexivity|].
  split; [rewrite keys_remove, Hk; reflexivity|].
  intros k. destruct (String.eqb k U) eqn:Ek.
  - apply String.eqb_eq in Ek. subst k. apply get_remove_same.
  - apply String.eqb_neq in Ek. rewrite get_remove_other by assumption.
    destruct (Hget k) as (n & Hn' & Hge). rewrite Hn'.
    destruct (get k g) as [st|] eqn:Eg; [|reflexivity]. simpl. f_equal.
    apply iter_without_source; [now apply (Hn k st)|].
    apply Hge. now apply get_Some_keys with st.
Qed.

Lemma deleteStep_well_formed g U :
  well_formed g -> get U g <> None ->
  exists g',
    deleteStep_steps U g = Returned tt g'
    /\ well_formed g'
    /\ (forall u v, edge g' u v <-> edge g u v /\ u <> U /\ v <> U)
    /\ (acyclic g -> acyclic g').
Proof.
  intros (Hk & Hc & Hn) HU.
  destruct (deleteStep_run g U Hn HU) as (g' & Hrun & Hkeys & Hget).
  exists g'. split; [assumption|].
  assert (Hedge : forall u v, edge g' u v <-> edge g u v /\ u <> U /\ v <> U).
  { intros u v. unfold edge. split.
    - intros (sv & E & Hin). rewrite Hget in E.
      destruct (String.eqb v U) eqn:Ev; [discriminate|].
      apply String.eqb_neq in Ev.
      destruct (get v g) as [st|] eqn:Eg; [|discriminate].
      injection E as <-. simpl in Hin. apply In_without_all in Hin.
      split; [now exists st | tauto].
    - intros ((sv & E & Hin) & Hu & Hv).
      exists (with_incoming (without_all U (incoming_connections sv)) sv).
      split.
      + rewrite Hget, E. apply String.eqb_neq in Hv. now rewrite Hv.
      + simpl. apply In_without_all. auto. }
  split; [|split; [exact Hedge|]].
  - split; [|split].
    + intros k st E. rewrite Hget in E.
      destruct (String.eqb k U); [discriminate|].
      destruct (get k g) as [st0|] eqn:Eg; [|discriminate].
      injection E as <-. simpl. now apply Hk.
    + intros k st x E Hx.
      assert (He : edge g' x k) by now exists st.
      apply Hedge in He. destruct He as ((sv & Ev & Hin) & Hxu & _).
      rewrite Hget. apply String.eqb_neq in Hxu. rewrite Hxu.
      pose proof (Hc k sv x Ev Hin) as Hex.
      destruct (get x g); [discriminate | congruence].
    + intros k st E. rewrite Hget in E.
      destruct (String.eqb k U); [discriminate|].
      destruct (get k g) as [st0|] eqn:Eg; [|discriminate].
      injection E as <-. simpl. unfold without_all.
      apply NoDup_filter. now apply (Hn k st0).
  - apply acyclic_fewer_edges. intros u v H. now apply Hedge in H.
Qed.

(** X7.  [removeConnection] leaves consistent steps consistent: the
    connections that are left are all the others, and no cycle appears. *)
Theorem removeConnection_keeps_well_formed g s t g' :
  well_formed g -> removeConnection s t g = Returned tt g' ->
  well_formed g'
  /\ (forall u v, edge g' u v <-> edge g u v /\ ~ (u = s /\ v = t))
  /\ (acyclic g -> acyclic g').
Proof.
  intros (Hk & Hc & Hn) E.
  destruct (get t g) as [st|] eqn:Et.
  2:{ unfold removeConnection, bind, step_ref in E. rewrite Et in E.
      discriminate. }
  rewrite (removeConnection_run s t st g Et) in E. injection E as <-.
  unfold without_source.
  assert (Hedge : forall u v,
             edge (set t (with_incoming
                            (remove_first s (incoming_connections st)) st) g)
                  u v
             <-> edge g u v /\ ~ (u = s /\ v = t)).
  { intros u v. rewrite (edge_set_incoming t st _ g u v Et).
    rewrite (In_remove_first_NoDup s u _ (Hn t st Et)).
    rewrite <- (edge_to_key g u t st Et).
    destruct (string_dec v t) as [->|Hv]; intuition congruence. }
  split; [|split; [exact Hedge|]].
  - split; [|split].
    + apply keyed_set; [assumption|]. simpl. now apply Hk.
    + apply closed_set_incoming; [assumption..|].
      intros x Hx. apply In_remove_first in Hx. now apply (Hc t st x).
    + apply no_duplicates_set; [assumption|]. simpl.
      apply remove_first_NoDup_keeps. now apply (Hn t st).
  - apply acyclic_fewer_edges. intros u v H. now apply Hedge in H.
Qed.

Lemma removeConnection_keeps_well_formed_witness :
  well_formed example_chain_disconnected
  /\ (forall u v, edge example_chain_disconnected u v
                  <-> edge example_chain u v
                      /\ ~ (u = "A"%string /\ v = "B"%string))
  /\ (acyclic example_chain -> acyclic example_chain_disconnected).
Proof.
  apply (removeConnection_keeps_well_formed example_chain "A" "B"
           example_chain_disconnected)%string.
  - apply ConsistentFacts.well_formedb; reflexivity.
  - reflexivity.
Defined.

(** X8.  [stepNameUpdate] writes the title and the file of one step and
    nothing else: the connections, the keys and every other step are as
    before; on a uuid that is not a key it throws and the steps are as
    before. *)
Theorem stepNameUpdate_writes_names_only g k new_title new_path :
  match get k g with
  | Some st =>
      exists g',
        stepNameUpdate k new_title new_path g = Returned tt g'
        /\ get k g' = Some (with_file_path new_path (with_title new_title st))
        /\ keys g' = keys g
        /\ (forall k', k' <> k -> get k' g' = get k' g)
        /\ (forall k', incoming_of g' k' = incoming_of g k')
        /\ (forall u v, edge g' u v <-> edge g u v)
  | None => stepNameUpdate k new_title new_path g = TypeError g
  end.
Proof.
  unfold stepNameUpdate, bind, step_ref, write_step.
  destruct (get k g) as [st|] eqn:Ek; [|reflexivity].
  rewrite get_set_same, set_set.
  set (st' := with_file_path new_path (with_title new_title st)).
  exists (set k st' g). split; [reflexivity|].
  split; [apply get_set_same|].
  split; [apply keys_set_present; congruence|].
  split; [intros k' Hk'; now apply get_set_other|].
  assert (Hinc : forall k', incoming_of (set k st' g) k' = incoming_of g k').
  { intros k'. unfold incoming_of. rewrite get_set.
    destruct (String.eqb k k') eqn:E; [|reflexivity].
    apply String.eqb_eq in E. subst k'. now rewrite Ek. }
  split; [exact Hinc|].
  intros u v. unfold edge. specialize (Hinc v). unfold incoming_of in Hinc.
  split; intros (sv & E & Hin); rewrite E in Hinc; simpl in Hinc.
  - destruct (get v g) as [sv0|]; [|discriminate]. exists sv0.
    split; [reflexivity|]. simpl in Hinc. congruence.
  - destruct (get v (set k st' g)) as [sv0|]; [|discriminate]. exists sv0.
    split; [reflexivity|]. simpl in Hinc. congruence.
Qed.
End KeepWellFormedFacts.

(** ** The array of wrappers *)

Module WrapperFacts.
Import Wrappers.

Lemma joins_true s t c :
  joins s t c = true <-> startNodeUUID c = s /\ endNodeUUID c = Some t.
Proof.
  unfold joins. rewrite andb_true_iff, String.eqb_eq.
  destruct (endNodeUUID c) as [e|].
  - rewrite String.eqb_eq. split; intros [H1 H2]; split; congruence.
  - split; intros [H1 H2]; discriminate.
Qed.

Lemma drawn_app l1 l2 : drawn (l1 ++ l2) = drawn l1 ++ drawn l2.
Proof. unfold drawn. apply flat_map_app. Qed.

Lemma In_drawn s t l :
  In (s, t) (drawn l)
  <-> exists c, In c l /\ startNodeUUID c = s /\ endNodeUUID c = Some t.
Proof.
  unfold drawn. rewrite in_flat_map. split.
  - intros (c & Hc & Hin). exists c. split; [assumption|].
    destruct (endNodeUUID c) as [e|]; [|destruct Hin].
    destruct Hin as [[= <- <-]|[]]. auto.
  - intros (c & Hc & Hs & He). exists c. split; [assumption|].
    rewrite He, Hs. now left.
Qed.

Lemma In_drawn_joins s t l :
  In (s, t) (drawn l) <-> exists c, In c l /\ joins s t c = true.
Proof.
  rewrite In_drawn. split; intros (c & Hc & H); exists c; split; auto;
    now apply joins_true.
Qed.

Lemma find_joins_None s t l :
  find (joins s t) l = None <-> ~ In (s, t) (drawn l).
Proof.
  rewrite In_drawn_joins. split.
  - intros H (c & Hc & Hj). now rewrite (find_none _ _ H c Hc) in Hj.
  - intros H. destruct (find (joins s t) l) as [c|] eqn:E; [|reflexivity].
    exfalso. apply H. exists c. now apply find_some in E.
Qed.

Lemma find_split (p : ConnectionDOMWrapper -> bool) l c :
  find p l = Some c ->
  exists l1 l2,
    l = l1 ++ c :: l2 /\ p c = true /\ forall x, In x l1 -> p x = false.
Proof.
  induction l as [|x l IH]; simpl; [discriminate|].
  destruct (p x) eqn:Ex.
  - intros [= <-]. exists [], l. split; [reflexivity|]. split; [assumption|].
    intros y [].
  - intros H. destruct (IH H) as (l1 & l2 & -> & Hc & Hl1).
    exists (x :: l1), l2. split; [reflexivity|]. split; [assumption|].
    intros y [<-|Hy]; auto.
Qed.

Lemma indexOf_from_found i c l1 l2 :
  ~ In (object_id c) (map object_id l1) ->
  indexOf_from i c (l1 ++ c :: l2) = (i + Z.of_nat (length l1))%Z.
Proof.
  revert i. induction l1 as [|x l1 IH]; intros i H; simpl.
  - rewrite Nat.eqb_refl. lia.
  - destruct (Nat.eqb (object_id x) (object_id c)) eqn:E.
    + apply Nat.eqb_eq in E. exfalso. apply H. simpl. now left.
    + rewrite IH; [lia|]. intros Hin. apply H. simpl. now right.
Qed.

Lemma wrapper_indexOf_from_absent i c l :
  ~ In (object_id c) (map object_id l) -> indexOf_from i c l = (-1)%Z.
Proof.
  revert i. induction l as [|x l IH]; intros i H; simpl; [reflexivity|].
  destruct (Nat.eqb (object_id x) (object_id c)) eqn:E.
  - apply Nat.eqb_eq in E. exfalso. apply H. simpl. now left.
  - apply IH. intros Hin. apply H. simpl. now right.
Qed.

Lemma wrapper_splice_nat n l :
  splice (Z.of_nat n) 1 l = firstn n l ++ skipn (n + 1) l.
Proof.
  unfold splice.
  destruct (Z.of_nat n <? 0)%Z eqn:E; [apply Z.ltb_lt in E; lia|].
  destruct (Nat.le_gt_cases n (length l)) as [Hle|Hgt].
  - rewrite Z.min_l by lia. now rewrite Nat2Z.id.
  - rewrite Z.min_r by lia. rewrite Nat2Z.id.
    rewrite !firstn_all2 by lia. rewrite !skipn_all2 by lia. reflexivity.
Qed.

Lemma splice_middle l1 c l2 :
  splice (Z.of_nat (length l1)) 1 (l1 ++ c :: l2) = l1 ++ l2.
Proof.
  rewrite wrapper_splice_nat.
  rewrite firstn_app, firstn_all, Nat.sub_diag. simpl firstn.
  rewrite app_nil_r. f_equal.
  rewrite skipn_app, skipn_all2 by lia.
  replace (length l1 + 1 - length l1) with 1 by lia. reflexivity.
Qed.

Lemma splice_last l : splice (-1) 1 l = removelast l.
Proof.
  unfold splice. change (-1 <? 0)%Z with true. cbv iota.
  destruct l as [|x l _] using rev_ind; [reflexivity|].
  rewrite removelast_last, length_app. simpl length.
  rewrite Z.max_l by lia.
  replace (Z.to_nat (Z.of_nat (length l + 1) + -1)) with (length l) by lia.
  rewrite firstn_app, firstn_all, Nat.sub_diag. simpl firstn.
  rewrite app_nil_r.
  rewrite skipn_all2; [apply app_nil_r|]. rewrite length_app. simpl. lia.
Qed.

Lemma In_splice c i n l : In c (splice i n l) -> In c l.
Proof.
  unfold splice. rewrite in_app_iff.
  set (s := Z.to_nat _). intros [H|H].
  - rewrite <- (firstn_skipn s l). apply in_or_app. now left.
  - rewrite <- (firstn_skipn (s + n) l). apply in_or_app. now right.
Qed.

Lemma filter_all {X} (p : X -> bool) l :
  (forall x, In x l -> p x = true) -> filter p l = l.
Proof.
  induction l as [|x l IH]; intros H; simpl; [reflexivity|].
  rewrite (H x (or_introl eq_refl)). f_equal. apply IH.
  intros y Hy. apply H. now right.
Qed.

Lemma filter_twice {X} (p q : X -> bool) l :
  filter q (filter p l) = filter (fun x => p x && q x) l.
Proof.
  induction l as [|x l IH]; simpl; [reflexivity|].
  destruct (p x); simpl; [|assumption].
  destruct (q x); now rewrite IH.
Qed.

Lemma drawn_filter_incl p l : incl (drawn (filter p l)) (drawn l).
Proof.
  intros [s t] H. apply In_drawn in H. destruct H as (c & Hc & H).
  apply filter_In in Hc. apply In_drawn. exists c. tauto.
Qed.

Lemma drawn_cons c l :
  drawn (c :: l)
  = match endNodeUUID c with
    | Some e => [(startNodeUUID c, e)]
    | None => []
    end ++ drawn l.
Proof. reflexivity. Qed.

Lemma NoDup_drawn_filter p l : NoDup (drawn l) -> NoDup (drawn (filter p l)).
Proof.
  induction l as [|c l IH]; [auto|].
  rewrite drawn_cons. intros H. cbn [filter].
  assert (Hl : NoDup (drawn l)) by now apply NoDup_app_remove_l in H.
  destruct (p c); [|now apply IH].
  rewrite drawn_cons.
  destruct (endNodeUUID c) as [e|]; simpl in *; [|now apply IH].
  inversion H as [|? ? Hnot _]; subst. constructor; [|now apply IH].
  intros Hin. apply Hnot. now apply (drawn_filter_incl p l).
Qed.

Lemma NoDup_ids_filter p (l : list ConnectionDOMWrapper) :
  NoDup (map object_id l) -> NoDup (map object_id (filter p l)).
Proof.
  induction l as [|c l IH]; simpl; [auto|].
  intros H. inversion H as [|? ? Hnot Hl]; subst.
  destruct (p c); simpl; [|now apply IH].
  constructor; [|now apply IH].
  intros Hin. apply Hnot. apply in_map_iff in Hin.
  destruct Hin as (x & Hx & Hin). apply filter_In in Hin.
  apply in_map_iff. exists x. tauto.
Qed.

(** With distinct objects and no connection drawn twice, taking the
    wrapper between two steps out of the array leaves the others in their
    order. *)
Lemma splice_found s t l :
  NoDup (map object_id l) -> NoDup (drawn l) -> In (s, t) (drawn l) ->
  exists c,
    find (joins s t) l = Some c
    /\ splice (indexOf (Some c) l) 1 l
       = filter (fun c => negb (joins s t c)) l.
Proof.
  intros Hid Hnd Hin.
  destruct (find (joins s t) l) as [c|] eqn:E.
  2:{ apply find_joins_None in E. contradiction. }
  exists c. split; [reflexivity|].
  destruct (find_split _ _ _ E) as (l1 & l2 & -> & Hc & Hl1).
  assert (Hfresh : ~ In (object_id c) (map object_id l1)).
  { rewrite map_app in Hid. simpl in Hid.
    apply NoDup_remove_2 in Hid. rewrite in_app_iff in Hid. tauto. }
  unfold indexOf. rewrite (indexOf_from_found 0 c l1 l2 Hfresh).
  simpl Z.add. rewrite splice_middle.
  rewrite filter_app. simpl. rewrite Hc. simpl.
  rewrite (filter_all _ l1).
  2:{ intros x Hx. now rewrite (Hl1 x Hx). }
  f_equal. symmetry. apply filter_all. intros x Hx.
  destruct (joins s t x) eqn:Ex; [|reflexivity]. exfalso.
  rewrite drawn_app in Hnd. apply NoDup_app_remove_l in Hnd.
  rewrite drawn_cons in Hnd.
  apply joins_true in Hc. destruct Hc as [Hs He].
  rewrite He, Hs in Hnd.
  simpl in Hnd. inversion Hnd as [|? ? Hnot _]; subst.
  apply Hnot. apply In_drawn_joins. now exists x.
Qed.

Lemma In_drawn_filter_joins s t a b l :
  In (a, b) (drawn (filter (fun c => negb (joins s t c)) l))
  <-> In (a, b) (drawn l) /\ ~ (a = s /\ b = t).
Proof.
  rewrite !In_drawn. split.
  - intros (c & Hc & Ha & Hb). apply filter_In in Hc.
    destruct Hc as [Hc Hj]. split; [now exists c|].
    intros [-> ->]. apply negb_true_iff in Hj.
    assert (joins s t c = true) by now apply joins_true. congruence.
  - intros ((c & Hc & Ha & Hb) & Hne). exists c. split; [|auto].
    apply filter_In. split; [assumption|]. apply negb_true_iff.
    destruct (joins s t c) eqn:Ej; [|reflexivity].
    apply joins_true in Ej. destruct Ej as [E1 E2].
    exfalso. apply Hne. split; congruence.
Qed.
End WrapperFacts.

(** ** [deleteStep] with the wrappers *)

Module DeleteViewFacts.
Import JsObject JsObjectFacts JsArrayFacts GraphFacts CycleCheckFacts
       WellFormedFacts DisconnectFacts DeleteFacts KeepWellFormedFacts.
Import Wrappers WrapperFacts.

Lemma with_connections_twice ws ws' g g' v :
  View.with_connections ws' (View.with_steps g'
    (View.with_connections ws (View.with_steps g v)))
  = View.with_connections ws' (View.with_steps g' v).
Proof. reflexivity. Qed.

Lemma with_same v :
  View.with_connections (View.connections v) (View.with_steps (View.steps v) v)
  = v.
Proof. now destruct v. Qed.

Lemma remove_connection_present s t v :
  NoDup (map object_id (View.connections v)) ->
  NoDup (drawn (View.connections v)) ->
  In (s, t) (drawn (View.connections v)) ->
  View.remove_connection s t v
  = Returned tt
      (View.with_connections
         (filter (fun c => negb (joins s t c)) (View.connections v)) v).
Proof.
  intros Hid Hnd Hin. unfold View.remove_connection, View.getConnectionByUUIDs.
  destruct (splice_found s t _ Hid Hnd Hin) as (c & Ef & Es).
  rewrite Ef. cbv zeta. now rewrite Es.
Qed.

Lemma remove_connection_absent s t v :
  ~ In (s, t) (drawn (View.connections v)) ->
  View.remove_connection s t v
  = TypeError (View.with_connections (removelast (View.connections v)) v).
Proof.
  intros Hin. unfold View.remove_connection, View.getConnectionByUUIDs.
  rewrite (proj2 (find_joins_None s t _) Hin). cbv zeta.
  unfold indexOf. now rewrite splice_last.
Qed.

(** The connections after the first occurrence of [s] has left the
    [incoming_connections] of [t]. *)
Lemma edge_without_source s t st g u v :
  get t g = Some st -> NoDup (incoming_connections st) ->
  (edge (set t (without_source s st) g) u v
   <-> edge g u v /\ ~ (u = s /\ v = t)).
Proof.
  intros Et Hnd. unfold without_source.
  rewrite (edge_set_incoming t st _ g u v Et).
  rewrite (In_remove_first_NoDup s u _ Hnd).
  rewrite <- (edge_to_key g u t st Et).
  destruct (string_dec v t) as [->|Hv]; intuition congruence.
Qed.

Lemma in_sync_strip s t st v :
  in_sync v -> get t (View.steps v) = Some st ->
  NoDup (incoming_connections st) ->
  in_sync (View.with_connections
             (filter (fun c => negb (joins s t c)) (View.connections v))
             (View.with_steps (set t (without_source s st) (View.steps v)) v)).
Proof.
  intros (Hid & Hcr & Hnd & Hdr) Et Hst.
  unfold in_sync. cbn [View.connections View.with_connections View.steps
                       View.with_steps View.created].
  split; [now apply NoDup_ids_filter|].
  split; [intros c Hc; apply filter_In in Hc; now apply Hcr|].
  split; [now apply NoDup_drawn_filter|].
  intros a b. rewrite In_drawn_filter_joins, Hdr.
  rewrite (edge_without_source s t st _ a b Et Hst).
  unfold without_source.
  assert (Hg : get a (set t (with_incoming
                               (remove_first s (incoming_connections st)) st)
                        (View.steps v)) <> None
               <-> get a (View.steps v) <> None).
  { now rewrite (get_set_incoming_None a t st _ _ Et). }
  rewrite Hg. tauto.
Qed.

Lemma consistent_strip s t st v :
  consistent v -> get t (View.steps v) = Some st ->
  consistent (View.with_connections
                (filter (fun c => negb (joins s t c)) (View.connections v))
                (View.with_steps (set t (without_source s st) (View.steps v))
                   v)).
Proof.
  intros (Hk & Hn & Hs) Et. split; [|split].
  - cbn [View.connections View.with_connections View.steps View.with_steps].
    apply keyed_set; [assumption|]. simpl. now apply Hk.
  - cbn [View.connections View.with_connections View.steps View.with_steps].
    apply no_duplicates_set; [assumption|]. simpl.
    apply remove_first_NoDup_keeps. now apply (Hn t st).
  - apply in_sync_strip; [assumption..|]. now apply (Hn t st).
Qed.

(** The body of the first loop of [deleteStep]: the step under [key] loses
    its connection from the deleted step, and the array loses the wrapper
    of that connection. *)
Lemma strip_connection_view_run U key st v :
  consistent v -> get U (View.steps v) <> None ->
  get key (View.steps v) = Some st ->
  View.strip_connection U key v
  = Returned tt
      (View.with_connections
         (filter (fun c => negb (joins U key c)) (View.connections v))
         (View.with_steps (set key (without_source U st) (View.steps v)) v)).
Proof.
  intros (Hk & Hn & Hid & Hcr & Hnd & Hdr) HU Ek.
  unfold View.strip_connection, bind, View.on_steps, step_ref.
  rewrite Ek.
  destruct (JsArray.indexOf U (incoming_connections st) =? -1)%Z eqn:Ei;
    cbn [negb]; cbv iota.
  - apply indexOf_eqb_absent in Ei. unfold ret. f_equal.
    unfold without_source.
    rewrite (remove_first_absent _ _ Ei), with_incoming_same.
    rewrite (set_get_same _ _ _ Ek).
    rewrite filter_all; [now destruct v|].
    intros c Hc. apply negb_true_iff.
    destruct (joins U key c) eqn:Ej; [|reflexivity]. exfalso.
    assert (Hin : In (U, key) (drawn (View.connections v))).
    { apply In_drawn_joins. now exists c. }
    apply Hdr in Hin. destruct Hin as [He _].
    apply Ei. now apply (edge_to_key _ U key st Ek).
  - pose proof Ei as Ei'. apply indexOf_eqb_present in Ei'.
    unfold write_step.
    cbn [View.steps View.with_steps].
    rewrite splice_indexOf by now apply Z.eqb_neq.
    rewrite (Hk key st Ek).
    rewrite remove_connection_present.
    + reflexivity.
    + exact Hid.
    + exact Hnd.
    + apply Hdr. split; [|assumption]. now exists st.
Qed.

(** The first loop of [deleteStep], with the wrappers, does to the steps
    what it does without them, and keeps the wrappers in step. *)
Lemma strip_loop_view U ks : forall v,
  consistent v -> get U (View.steps v) <> None ->
  exists g' ws',
    for_each ks
      (fun key v' =>
         if hasOwnProperty key (View.steps v')
         then View.strip_connection U key v' else Returned tt v') v
    = Returned tt (View.with_connections ws' (View.with_steps g' v))
    /\ for_each ks (if_own (strip_connection U)) (View.steps v)
       = Returned tt g'
    /\ consistent (View.with_connections ws' (View.with_steps g' v))
    /\ (forall c, In c ws' -> In c (View.connections v))
    /\ (forall c, In c (View.connections v) -> touches U c = false ->
                  In c ws').
Proof.
  induction ks as [|k ks IH]; intros v Hv HU.
  - exists (View.steps v), (View.connections v). rewrite with_same.
    split; [reflexivity|]. split; [reflexivity|]. split; [assumption|].
    split; auto.
  - cbn [for_each]. unfold bind at 1 2. unfold if_own at 1.
    unfold hasOwnProperty at 1 3.
    destruct (get k (View.steps v)) as [st|] eqn:Ek.
    + rewrite (strip_connection_view_run U k st v Hv HU Ek).
      rewrite (strip_connection_run U k st _ Ek).
      set (v1 := View.with_connections _ _).
      assert (Hv1 : consistent v1) by now apply consistent_strip.
      assert (HU1 : get U (View.steps v1) <> None).
      { unfold v1. cbn [View.steps View.with_connections View.with_steps].
        unfold without_source.
        now rewrite (get_set_incoming_None U k st _ _ Ek). }
      destruct (IH v1 Hv1 HU1) as (g' & ws' & Hrun & Hsteps & Hc & Hsub & Hkeep).
      exists g', ws'. unfold v1 in Hrun, Hc. rewrite with_connections_twice in *.
      split; [exact Hrun|]. split; [exact Hsteps|]. split; [exact Hc|].
      split.
      * intros c Hc'. apply Hsub in Hc'. unfold v1 in Hc'.
        cbn [View.connections View.with_connections] in Hc'.
        apply filter_In in Hc'. tauto.
      * intros c Hc' Ht. apply Hkeep; [|assumption]. unfold v1.
        cbn [View.connections View.with_connections].
        apply filter_In. split; [assumption|]. apply negb_true_iff.
        destruct (joins U k c) eqn:Ej; [|reflexivity].
        apply joins_true in Ej. destruct Ej as [E1 E2].
        unfold touches in Ht. rewrite E2, E1, String.eqb_refl in Ht.
        discriminate.
    + now apply IH.
Qed.

Lemma In_drawn_filter_sources U l a b ws :
  In (a, b) (drawn (filter (fun c => negb (existsb (fun s => joins s U c) l))
                           ws))
  <-> In (a, b) (drawn ws) /\ ~ (b = U /\ In a l).
Proof.
  rewrite !In_drawn. split.
  - intros (c & Hc & Ha & Hb). apply filter_In in Hc.
    destruct Hc as [Hc Hj]. split; [now exists c|].
    intros [-> Hin]. apply negb_true_iff in Hj.
    assert (existsb (fun s => joins s U c) l = true); [|congruence].
    apply existsb_exists. exists a. split; [assumption|].
    now apply joins_true.
  - intros ((c & Hc & Ha & Hb) & Hne). exists c. split; [|auto].
    apply filter_In. split; [assumption|]. apply negb_true_iff.
    destruct (existsb (fun s => joins s U c) l) eqn:Ej; [|reflexivity].
    apply existsb_exists in Ej. destruct Ej as (s & Hs & Ej).
    apply joins_true in Ej. destruct Ej as [E1 E2].
    exfalso. apply Hne. split; congruence.
Qed.

(** The second loop of [deleteStep] when every wrapper it looks for is
    there. *)
Lemma remove_sources U l : forall v,
  NoDup l ->
  NoDup (map object_id (View.connections v)) ->
  NoDup (drawn (View.connections v)) ->
  (forall s, In s l -> In (s, U) (drawn (View.connections v))) ->
  for_each l (fun source => View.remove_connection source U) v
  = Returned tt
      (View.with_connections
         (filter (fun c => negb (existsb (fun s => joins s U c) l))
                 (View.connections v)) v).
Proof.
  induction l as [|s l IH]; intros v Hl Hid Hnd Hin; cbn [for_each].
  - unfold ret. f_equal. rewrite filter_all; [now destruct v | reflexivity].
  - inversion Hl as [|? ? Hs Hl']; subst. unfold bind.
    rewrite (remove_connection_present s U v Hid Hnd (Hin s (or_introl eq_refl))).
    rewrite IH; cbn [View.connections View.with_connections].
    + f_equal. rewrite filter_twice.
      replace (filter (fun c => negb (existsb (fun s0 => joins s0 U c) (s :: l)))
                      (View.connections v))
        with (filter (fun x => negb (joins s U x)
                               && negb (existsb (fun s0 => joins s0 U x) l))
                     (View.connections v)); [now destruct v|].
      apply filter_ext. intros c. simpl. now rewrite negb_orb.
    + assumption.
    + now apply NoDup_ids_filter.
    + now apply NoDup_drawn_filter.
    + intros s' Hs'. apply In_drawn_filter_joins. split; [apply Hin; now right|].
      intros [-> _]. contradiction.
Qed.

(** The second loop of [deleteStep] in general: it returns only when every
    wrapper it looks for is there, and it touches nothing but the array. *)
Lemma remove_sources_outcome U l : forall v,
  match for_each l (fun source => View.remove_connection source U) v with
  | Returned _ v' =>
      (forall s, In s l -> In (s, U) (drawn (View.connections v)))
      /\ exists ws', v' = View.with_connections ws' v
  | TypeError v' => exists ws', v' = View.with_connections ws' v
  | OutOfFuel => False
  end.
Proof.
  induction l as [|s l IH]; intros v; cbn [for_each].
  - unfold ret. split; [intros s []|]. exists (View.connections v).
    now destruct v.
  - unfold bind. unfold View.remove_connection at 1.
    unfold View.getConnectionByUUIDs.
    destruct (find (joins s U) (View.connections v)) as [c|] eqn:Ef.
    2:{ eexists. reflexivity. }
    cbv zeta. set (ws1 := splice _ _ _).
    specialize (IH (View.with_connections ws1 v)).
    destruct (for_each l _ (View.with_connections ws1 v)) as [[] v'|v'|];
      [| |assumption].
    + destruct IH as (Hall & ws' & ->). split.
      * intros s' [<-|Hs'].
        -- apply In_drawn_joins. exists c. now apply find_some in Ef.
        -- specialize (Hall s' Hs').
           cbn [View.connections View.with_connections] in Hall.
           apply In_drawn in Hall. destruct Hall as (c' & Hc' & H).
           apply In_drawn. exists c'. split; [|assumption].
           now apply In_splice in Hc'.
      * exists ws'. now destruct v.
    + destruct IH as (ws' & ->). exists ws'. now destruct v.
Qed.

Lemma get_remove k U (g : Steps) :
  get k (remove U g) = if String.eqb k U then None else get k g.
Proof.
  destruct (String.eqb k U) eqn:E.
  - apply String.eqb_eq in E. subst. apply get_remove_same.
  - apply String.eqb_neq in E. now apply get_remove_other.
Qed.

Lemma with_unsaved_steps g ws' ws1 g1 v :
  View.with_unsavedChanges true
    (View.with_steps g
       (View.with_connections ws'
          (View.with_connections ws1 (View.with_steps g1 v))))
  = View.with_unsavedChanges true
      (View.with_connections ws' (View.with_steps g v)).
Proof. reflexivity. Qed.

(** [deleteStep] with the wrappers, on a step whose sources exist. *)
Lemma deleteStep_view_run v U stU :
  consistent v -> get U (View.steps v) = Some stU ->
  (forall x, In x (incoming_connections stU) -> get x (View.steps v) <> None) ->
  exists g' ws',
    deleteStep_steps U (View.steps v) = Returned tt g'
    /\ View.deleteStep U v
       = Returned tt
           (View.with_unsavedChanges true
              (View.with_connections ws' (View.with_steps g' v)))
    /\ consistent (View.with_unsavedChanges true
                     (View.with_connections ws' (View.with_steps g' v)))
    /\ (forall c, In c ws' <-> In c (View.connections v) /\ touches U c = false).
Proof.
  intros Hv EU Hsrc.
  assert (HU : get U (View.steps v) <> None) by congruence.
  destruct (strip_loop_view U (keys (View.steps v)) v Hv HU)
    as (g1 & ws1 & Hrun & Hsteps & Hv1 & Hsub & Hkeep).
  destruct Hv as (Hk & Hn & Hsync).
  destruct (strip_all U _ g1 Hn Hsteps) as (Hkeys & Hget).
  set (v1 := View.with_connections ws1 (View.with_steps g1 v)) in *.
  destruct Hv1 as (Hk1 & Hn1 & Hid1 & Hcr1 & Hnd1 & Hdr1).
  cbn [v1 View.steps View.connections View.created View.with_connections
       View.with_steps] in Hk1, Hn1, Hid1, Hcr1, Hnd1, Hdr1.
  set (inc1 := without_all U (incoming_connections stU)).
  assert (EU1 : get U g1 = Some (with_incoming inc1 stU)).
  { rewrite Hget, EU. reflexivity. }
  assert (Hnone : forall k, get k g1 = None <-> get k (View.steps v) = None).
  { intros k. rewrite Hget. destruct (get k (View.steps v)); simpl;
      split; congruence. }
  assert (HnoU : forall a b, edge g1 a b -> a <> U).
  { intros a b (sb & Eb & Hin) ->. rewrite Hget in Eb.
    destruct (get b (View.steps v)) as [sb0|]; [|discriminate].
    injection Eb as <-. simpl in Hin. apply In_without_all in Hin. tauto. }
  set (ws2 := filter (fun c => negb (existsb (fun s => joins s U c) inc1)) ws1).
  assert (Hloop2 : for_each inc1 (fun source => View.remove_connection source U)
                     v1
                   = Returned tt (View.with_connections ws2 v1)).
  { apply remove_sources; try assumption.
    - apply (Hn1 U _ EU1).
    - intros s Hs. apply Hdr1. split.
      + eexists. split; [exact EU1 | exact Hs].
      + rewrite Hnone. apply Hsrc. unfold inc1 in Hs.
        apply In_without_all in Hs. tauto. }
  exists (remove U g1), ws2.
  split.
  { unfold deleteStep_steps, for_in_steps. unfold bind at 1.
    rewrite Hsteps. unfold bind, step_ref. now rewrite EU1. }
  split.
  { unfold View.deleteStep. unfold bind at 1. unfold View.for_in_steps.
    rewrite Hrun. fold v1.
    unfold bind at 1. unfold View.on_steps, step_ref.
    cbn [v1 View.steps View.with_connections View.with_steps].
    rewrite EU1. cbn [incoming_connections with_incoming].
    unfold bind. fold v1.
    replace (View.with_steps g1 v1) with v1 by reflexivity.
    rewrite Hloop2. reflexivity. }
  assert (Hdr2 : forall a b,
             In (a, b) (drawn ws2)
             <-> edge (remove U g1) a b /\ get a (remove U g1) <> None).
  { intros a b. unfold ws2. rewrite In_drawn_filter_sources, Hdr1.
    rewrite (get_remove a U g1). split.
    - intros ((He & Ha) & Hne).
      assert (HaU : a <> U) by now apply (HnoU a b).
      assert (HbU : b <> U).
      { intros ->. apply Hne. split; [reflexivity|].
        apply (edge_to_key g1 a U _ EU1) in He. exact He. }
      split.
      + destruct He as (sb & Eb & Hin). exists sb.
        split; [|assumption]. now rewrite get_remove_other.
      + apply String.eqb_neq in HaU. now rewrite HaU.
    - intros ((sb & Eb & Hin) & Ha).
      rewrite get_remove in Eb.
      destruct (String.eqb b U) eqn:EbU; [discriminate|].
      destruct (String.eqb a U) eqn:EaU; [congruence|].
      apply String.eqb_neq in EbU.
      split; [split; [now exists sb | assumption]|]. tauto. }
  split.
  { split; [|split].
    - cbn [View.steps View.with_unsavedChanges View.with_connections
           View.with_steps].
      intros k st. rewrite get_remove. destruct (String.eqb k U);
        [discriminate | apply Hk1].
    - cbn [View.steps View.with_unsavedChanges View.with_connections
           View.with_steps].
      intros k st. rewrite get_remove. destruct (String.eqb k U);
        [discriminate | apply Hn1].
    - unfold in_sync.
      cbn [View.steps View.connections View.created
           View.with_unsavedChanges View.with_connections View.with_steps].
      split; [now apply NoDup_ids_filter|].
      split.
      { intros c Hc. apply filter_In in Hc. apply Hcr1. tauto. }
      split; [now apply NoDup_drawn_filter | exact Hdr2]. }
  intros c. split.
  - intros Hc. split.
    + apply Hsub. unfold ws2 in Hc. apply filter_In in Hc. tauto.
    + unfold touches. destruct (endNodeUUID c) as [e|] eqn:Ee; [|reflexivity].
      assert (Hin : In (startNodeUUID c, e) (drawn ws2)).
      { apply In_drawn. now exists c. }
      apply Hdr2 in Hin. destruct Hin as ((se & Ee' & _) & Ha).
      rewrite get_remove in Ee', Ha.
      destruct (String.eqb e U); [discriminate|].
      destruct (String.eqb (startNodeUUID c) U); [congruence | reflexivity].
  - intros [Hc Ht]. unfold ws2. apply filter_In. split; [now apply Hkeep|].
    apply negb_true_iff.
    destruct (existsb (fun s => joins s U c) inc1) eqn:Ej; [|reflexivity].
    apply existsb_exists in Ej. destruct Ej as (s & _ & Ej).
    apply joins_true in Ej. destruct Ej as [E1 E2].
    unfold touches in Ht. rewrite E2, String.eqb_refl, orb_true_r in Ht.
    discriminate.
Qed.

(** X9.  [deleteStep] with the wrappers refines [deleteStep_steps], its
    part on the steps: on a consistent component, for a step whose sources
    exist, it returns, the steps are those that [deleteStep_steps] leaves,
    the wrappers left are those that do not touch the deleted step,
    [unsavedChanges] is set, and the component is consistent again. *)
Theorem deleteStep_with_wrappers v U stU :
  consistent v -> get U (View.steps v) = Some stU ->
  (forall x, In x (incoming_connections stU) -> get x (View.steps v) <> None) ->
  exists g' ws',
    deleteStep_steps U (View.steps v) = Returned tt g'
    /\ View.deleteStep U v
       = Returned tt
           (View.with_unsavedChanges true
              (View.with_connections ws' (View.with_steps g' v)))
    /\ consistent (View.with_unsavedChanges true
                     (View.with_connections ws' (View.with_steps g' v)))
    /\ (forall c, In c ws' <-> In c (View.connections v) /\ touches U c = false).
Proof.
  intros Hc HU Hsrc. exact (deleteStep_view_run v U stU Hc HU Hsrc).
Qed.

Lemma deleteStep_with_wrappers_witness :
  exists g' ws',
    deleteStep_steps "B" (View.steps example_view) = Returned tt g'
    /\ View.deleteStep "B" example_view
       = Returned tt
           (View.with_unsavedChanges true
              (View.with_connections ws' (View.with_steps g' example_view)))
    /\ consistent (View.with_unsavedChanges true
                     (View.with_connections ws'
                        (View.with_steps g' example_view)))
    /\ (forall c, In c ws'
                  <-> In c (View.connections example_view)
                      /\ touches "B" c = false).
Proof.
  apply (deleteStep_with_wrappers example_view "B"
           (example_step "B" "b.py" ["A"]))%string.
  - exact ConsistentFacts.example_view_consistent.
  - reflexivity.
  - intros x [<-|[]]. vm_compute. discriminate.
Defined.

(** X10.  A step with a connection from a step that does not exist cannot be
    deleted: [deleteStep] throws where it looks for the wrapper of that
    connection.  The step is still there, its connections to other steps are
    gone from their [incoming_connections], and [unsavedChanges] is as
    before. *)
Theorem deleteStep_missing_wrapper_throws v U stU x :
  consistent v -> get U (View.steps v) = Some stU ->
  In x (incoming_connections stU) -> get x (View.steps v) = None ->
  exists g1 ws',
    View.deleteStep U v
    = TypeError (View.with_connections ws' (View.with_steps g1 v))
    /\ for_in_steps (strip_connection U) (View.steps v) = Returned tt g1
    /\ get U g1 <> None
    /\ (forall k st, get k g1 = Some st -> ~ In U (incoming_connections st))
    /\ (forall c, In c ws' -> In c (View.connections v)).
Proof.
  intros Hv EU Hx Ex.
  assert (HU : get U (View.steps v) <> None) by congruence.
  destruct (strip_loop_view U (keys (View.steps v)) v Hv HU)
    as (g1 & ws1 & Hrun & Hsteps & Hv1 & Hsub & _).
  destruct Hv as (Hk & Hn & Hsync).
  destruct (strip_all U _ g1 Hn Hsteps) as (Hkeys & Hget).
  set (v1 := View.with_connections ws1 (View.with_steps g1 v)) in *.
  destruct Hv1 as (_ & _ & _ & _ & _ & Hdr1).
  cbn [v1 View.steps View.connections View.with_connections View.with_steps]
    in Hdr1.
  set (inc1 := without_all U (incoming_connections stU)).
  assert (EU1 : get U g1 = Some (with_incoming inc1 stU)).
  { rewrite Hget, EU. reflexivity. }
  assert (Hx1 : In x inc1).
  { apply In_without_all. split; [assumption|]. intros ->. congruence. }
  assert (Hnot : ~ In (x, U) (drawn ws1)).
  { intros H. apply Hdr1 in H. destruct H as [_ H]. apply H.
    rewrite Hget, Ex. reflexivity. }
  pose proof (remove_sources_outcome U inc1 v1) as Hout.
  destruct (for_each inc1 (fun source => View.remove_connection source U) v1)
    as [[] v2|v2|] eqn:Eloop; [| |contradiction].
  { exfalso. destruct Hout as [Hall _]. apply Hnot. now apply (Hall x). }
  destruct Hout as (ws' & ->).
  exists g1, ws'. split.
  { unfold View.deleteStep. unfold bind at 1. unfold View.for_in_steps.
    rewrite Hrun. fold v1.
    unfold bind at 1. unfold View.on_steps, step_ref.
    cbn [v1 View.steps View.with_connections View.with_steps].
    rewrite EU1. cbn [incoming_connections with_incoming].
    unfold bind. fold v1.
    replace (View.with_steps g1 v1) with v1 by reflexivity.
    rewrite Eloop. reflexivity. }
  split; [exact Hsteps|]. split; [congruence|]. split.
  - intros k st E. rewrite Hget in E.
    destruct (get k (View.steps v)) as [st0|]; [|discriminate].
    injection E as <-. simpl. rewrite In_without_all. tauto.
  - intros c Hc. apply Hsub.
    (* the second loop only takes wrappers away *)
    clear - Eloop Hc. revert v1 Eloop.
    generalize ws1. clear ws1.
    induction inc1 as [|s l IH]; intros ws1 v1 Eloop; cbn [for_each] in Eloop.
    + discriminate.
    + unfold bind in Eloop. unfold View.remove_connection at 1 in Eloop.
      unfold View.getConnectionByUUIDs in Eloop.
      cbn [v1 View.connections View.with_connections] in Eloop.
      destruct (find (joins s U) ws1) as [c0|] eqn:Ef.
      * cbv zeta in Eloop. unfold v1 in Eloop.
        apply (In_splice c (indexOf (Some c0) ws1) 1).
        apply (IH _ Eloop).
      * injection Eloop as Eloop.
        rewrite <- Eloop in Hc. now apply In_splice in Hc.
Qed.

Lemma deleteStep_missing_wrapper_throws_witness :
  exists g1 ws',
    View.deleteStep "A" example_view_dangling
    = TypeError (View.with_connections ws'
                   (View.with_steps g1 example_view_dangling))
    /\ for_in_steps (strip_connection "A") (View.steps example_view_dangling)
       = Returned tt g1
    /\ get "A"%string g1 <> None
    /\ (forall k st, get k g1 = Some st ->
                     ~ In "A"%string (incoming_connections st))
    /\ (forall c, In c ws' -> In c (View.connections example_view_dangling)).
Proof.
  apply (deleteStep_missing_wrapper_throws example_view_dangling "A"
           (example_step "A" "a.py" ["ghost"]) "ghost")%string.
  - apply ConsistentFacts.consistentb_consistent. vm_compute. reflexivity.
  - reflexivity.
  - simpl. auto.
  - reflexivity.
Defined.
End DeleteViewFacts.

(** ** Deleting the selected steps *)

Module DeleteSelectionFacts.
Import JsObject JsObjectFacts JsArrayFacts GraphFacts CycleCheckFacts
       WellFormedFacts DeleteFacts KeepWellFormedFacts.
Import Wrappers WrapperFacts DeleteViewFacts.

Lemma consistent_ext v v' :
  View.steps v' = View.steps v -> View.connections v' = View.connections v ->
  View.created v' = View.created v -> consistent v -> consistent v'.
Proof.
  unfold consistent, in_sync. intros -> -> ->. auto.
Qed.

(** [deleteStep] with the wrappers on steps whose connections name
    existing steps only. *)
Lemma deleteStep_view_closed v U :
  consistent v -> closed (View.steps v) -> get U (View.steps v) <> None ->
  exists g' ws',
    View.deleteStep U v
    = Returned tt
        (View.with_unsavedChanges true
           (View.with_connections ws' (View.with_steps g' v)))
    /\ consistent (View.with_unsavedChanges true
                     (View.with_connections ws' (View.with_steps g' v)))
    /\ closed g'
    /\ (forall k, get k g' = None <-> get k (View.steps v) = None \/ k = U)
    /\ (forall a b, edge g' a b <-> edge (View.steps v) a b /\ a <> U /\ b <> U)
    /\ (forall c, In c ws' <-> In c (View.connections v) /\ touches U c = false).
Proof.
  intros Hv Hc HU.
  destruct (get U (View.steps v)) as [stU|] eqn:EU; [|congruence].
  destruct (deleteStep_view_run v U stU Hv EU) as (g' & ws' & Hrun & Hview & Hv' & Hws).
  { intros x Hx. now apply (Hc U stU x). }
  exists g', ws'. split; [exact Hview|]. split; [exact Hv'|].
  destruct Hv as (Hk & Hn & _).
  destruct (deleteStep_well_formed (View.steps v) U) as (g2 & Hrun2 & Hwf & Hedge & _).
  { repeat split; assumption. }
  { congruence. }
  rewrite Hrun in Hrun2. injection Hrun2 as <-.
  assert (HU' : get U (View.steps v) <> None) by congruence.
  destruct (deleteStep_run (View.steps v) U Hn HU') as (g3 & Hrun3 & _ & Hget).
  rewrite Hrun in Hrun3. injection Hrun3 as <-.
  split; [apply Hwf|]. split; [|split; [exact Hedge | exact Hws]].
  intros k. rewrite Hget. destruct (String.eqb k U) eqn:Ek.
  - apply String.eqb_eq in Ek. tauto.
  - apply String.eqb_neq in Ek.
    destruct (get k (View.steps v)); simpl; split; try tauto; try congruence.
    intros [H|H]; congruence.
Qed.

(** X6.  [deleteStep] of an existing step, on a consistent component whose
    connections name existing steps only, returns and leaves such a
    component: every step under its own uuid, every connection from an
    existing step, no connection twice, one wrapper for every connection.
    The connections that are left are the connections between the other
    steps, and no cycle appears. *)
Theorem deleteStep_keeps_well_formed v U :
  consistent v -> closed (View.steps v) -> get U (View.steps v) <> None ->
  exists v',
    View.deleteStep U v = Returned tt v'
    /\ consistent v'
    /\ well_formed (View.steps v')
    /\ (forall a b, edge (View.steps v') a b
                    <-> edge (View.steps v) a b /\ a <> U /\ b <> U)
    /\ (acyclic (View.steps v) -> acyclic (View.steps v')).
Proof.
  intros Hv Hc HU.
  destruct (deleteStep_view_closed v U Hv Hc HU)
    as (g' & ws' & Hrun & Hv' & Hc' & _ & Hedge & _).
  eexists. split; [exact Hrun|]. split; [exact Hv'|].
  destruct Hv' as (Hk' & Hn' & _).
  cbn [View.steps View.with_unsavedChanges View.with_connections
       View.with_steps] in *.
  split; [repeat split; assumption|]. split; [exact Hedge|].
  apply acyclic_fewer_edges. intros a b H. now apply Hedge in H.
Qed.

Lemma deleteStep_keeps_well_formed_witness :
  exists v',
    View.deleteStep "B" example_view = Returned tt v'
    /\ consistent v'
    /\ well_formed (View.steps v')
    /\ (forall a b, edge (View.steps v') a b
                    <-> edge (View.steps example_view) a b
                        /\ a <> "B"%string /\ b <> "B"%string)
    /\ (acyclic (View.steps example_view) -> acyclic (View.steps v')).
Proof.
  apply (deleteStep_keeps_well_formed example_view "B"%string).
  - exact ConsistentFacts.example_view_consistent.
  - apply ConnectFacts.closedb_closed. vm_compute. reflexivity.
  - vm_compute. discriminate.
Defined.

Lemma delete_all sel : forall v,
  consistent v -> closed (View.steps v) -> NoDup sel ->
  (forall u, In u sel -> get u (View.steps v) <> None) ->
  exists g' ws' b,
    for_each sel View.deleteStep v
    = Returned tt
        (View.with_unsavedChanges b
           (View.with_connections ws' (View.with_steps g' v)))
    /\ consistent (View.with_unsavedChanges b
                     (View.with_connections ws' (View.with_steps g' v)))
    /\ closed g'
    /\ (forall k, get k g' = None <-> get k (View.steps v) = None \/ In k sel)
    /\ (forall a b, edge g' a b
                    <-> edge (View.steps v) a b /\ ~ In a sel /\ ~ In b sel)
    /\ (forall c, In c ws'
                  <-> In c (View.connections v)
                      /\ forall u, In u sel -> touches u c = false).
Proof.
  induction sel as [|u sel IH]; intros v Hv Hc Hnd Hpresent.
  - exists (View.steps v), (View.connections v), (View.unsavedChanges v).
    replace (View.with_unsavedChanges _ _) with v by now destruct v.
    split; [reflexivity|]. split; [assumption|]. split; [assumption|].
    split; [intros k; simpl; tauto|].
    split; [intros a b; simpl; tauto|].
    intros c. split; [intros H; split; [assumption | intros u []] | tauto].
  - inversion Hnd as [|? ? Hu Hnd']; subst.
    destruct (deleteStep_view_closed v u Hv Hc (Hpresent u (or_introl eq_refl)))
      as (g1 & ws1 & Hrun1 & Hv1 & Hc1 & Hnone1 & Hedge1 & Hws1).
    set (v1 := View.with_unsavedChanges true
                 (View.with_connections ws1 (View.with_steps g1 v))) in *.
    destruct (IH v1 Hv1 Hc1 Hnd') as (g' & ws' & b & Hrun & Hv' & Hc' & Hnone & Hedge & Hws).
    { intros u' Hu'. cbn [v1 View.steps View.with_unsavedChanges
                          View.with_connections View.with_steps].
      rewrite Hnone1. intros [H|H].
      - now apply (Hpresent u' (or_intror Hu')).
      - subst. contradiction. }
    exists g', ws', b. cbn [for_each]. unfold bind. rewrite Hrun1. fold v1.
    split; [exact Hrun|]. split; [exact Hv'|]. split; [exact Hc'|].
    cbn [v1 View.steps View.connections View.with_unsavedChanges
         View.with_connections View.with_steps] in Hnone, Hedge, Hws.
    split; [|split].
    + intros k. rewrite Hnone, Hnone1. simpl. intuition.
    + intros a b0. rewrite Hedge, Hedge1. simpl. intuition.
    + intros c. rewrite Hws, Hws1. simpl. split.
      * intros [[H1 H2] H3]. split; [assumption|].
        intros u' [<-|Hu']; auto.
      * intros [H1 H2]. split; [split|]; auto.
Qed.

(** X11.  [deleteSelectedSteps] on a consistent component whose connections
    name existing steps only, with the selection a set of existing steps:
    every selected step is deleted and no other; the connections left are
    those between the steps left, and so are the wrappers; the selection is
    empty, both panes are closed, and the component is consistent. *)
Theorem deleteSelectedSteps_deletes_selection v :
  consistent v -> closed (View.steps v) -> NoDup (View.selectedSteps v) ->
  (forall u, In u (View.selectedSteps v) -> get u (View.steps v) <> None) ->
  exists v',
    View.deleteSelectedSteps v = Returned tt v'
    /\ View.selectedSteps v' = []
    /\ View.openedStep v' = None
    /\ View.openedMultistep v' = false
    /\ consistent v'
    /\ closed (View.steps v')
    /\ (forall k, get k (View.steps v') = None
                  <-> get k (View.steps v) = None \/ In k (View.selectedSteps v))
    /\ (forall a b, edge (View.steps v') a b
                    <-> edge (View.steps v) a b
                        /\ ~ In a (View.selectedSteps v)
                        /\ ~ In b (View.selectedSteps v))
    /\ (forall c, In c (View.connections v')
                  <-> In c (View.connections v)
                      /\ forall u, In u (View.selectedSteps v) ->
                                   touches u c = false)
    /\ (acyclic (View.steps v) -> acyclic (View.steps v')).
Proof.
  intros Hv Hc Hnd Hpresent.
  set (v0 := View.with_openedStep None (View.with_openedMultistep false v)).
  assert (Hv0 : consistent v0) by now apply (consistent_ext v v0).
  destruct (delete_all (View.selectedSteps v) v0 Hv0 Hc Hnd Hpresent)
    as (g' & ws' & b & Hrun & Hv' & Hc' & Hnone & Hedge & Hws).
  eexists. split.
  { unfold View.deleteSelectedSteps.
    unfold bind at 1. unfold View.closeMultistepView at 1.
    unfold bind at 1. unfold View.closeDetailsView at 1.
    fold v0. unfold bind.
    change (View.selectedSteps v0) with (View.selectedSteps v).
    rewrite Hrun. reflexivity. }
  split; [reflexivity|]. split; [reflexivity|]. split; [reflexivity|].
  split.
  { revert Hv'. apply consistent_ext; reflexivity. }
  split; [exact Hc'|]. split; [exact Hnone|]. split; [exact Hedge|].
  split; [exact Hws|].
  apply acyclic_fewer_edges. intros a b0 H.
  apply (Hedge a b0) in H. tauto.
Qed.

Lemma deleteSelectedSteps_deletes_selection_witness :
  exists v',
    View.deleteSelectedSteps example_view = Returned tt v'
    /\ View.selectedSteps v' = []
    /\ View.openedStep v' = None
    /\ get "B"%string (View.steps v') = None
    /\ consistent v'.
Proof.
  destruct (deleteSelectedSteps_deletes_selection example_view)
    as (v' & Hrun & Hsel & Hop & _ & Hc & _ & Hnone & _).
  - exact ConsistentFacts.example_view_consistent.
  - apply ConnectFacts.closedb_closed. vm_compute. reflexivity.
  - apply (ConsistentFacts.nodupb_NoDup String.eqb); [apply String.eqb_eq | reflexivity].
  - intros u [<-|[]]. vm_compute. discriminate.
  - exists v'. split; [exact Hrun|]. split; [exact Hsel|].
    split; [exact Hop|]. split; [|exact Hc].
    apply Hnone. right. simpl. auto.
Defined.
End DeleteSelectionFacts.

(** ** Deleting a step: what the specification says of it *)

Module DeleteClaims.
Import JsObject JsObjectFacts JsArrayFacts DeleteFacts DeleteViewFacts.

(** At a step that does not name [U], the body of the first loop of
    [deleteStep(U)] changes nothing. *)
Lemma strip_connection_unreferenced U key st v :
  get key (View.steps v) = Some st -> ~ In U (incoming_connections st) ->
  View.strip_connection U key v = Returned tt v.
Proof.
  intros E Hn. unfold View.strip_connection, bind, View.on_steps, step_ref.
  rewrite E. apply indexOf_absent in Hn. rewrite Hn. simpl.
  unfold ret. now destruct v.
Qed.

Lemma strip_loop_view_unreferenced U ks : forall v,
  (forall k st, get k (View.steps v) = Some st ->
                ~ In U (incoming_connections st)) ->
  for_each ks
    (fun key v' =>
       if hasOwnProperty key (View.steps v')
       then View.strip_connection U key v' else Returned tt v') v
  = Returned tt v.
Proof.
  induction ks as [|k0 ks IH]; intros v H; simpl; [reflexivity|].
  unfold bind at 1. unfold hasOwnProperty.
  destruct (get k0 (View.steps v)) as [st|] eqn:E0; [|now apply IH].
  rewrite (strip_connection_unreferenced U k0 st v E0 (H k0 st E0)).
  now apply IH.
Qed.




(** C7, as amended.  On a component whose connections name existing steps
    only, [deleteStep] of a uuid that is not a key throws, and the steps,
    the wrappers and every other field are exactly as before. *)
Theorem deleteStep_missing_throws v U :
  closed (View.steps v) -> get U (View.steps v) = None ->
  View.deleteStep U v = TypeError v.
Proof.
  intros Hc HU. unfold View.deleteStep, View.for_in_steps.
  unfold bind at 1. rewrite strip_loop_view_unreferenced.
  - unfold bind, View.on_steps, step_ref. rewrite HU. now destruct v.
  - intros k st Ek Hin. now apply (Hc k st U Ek Hin).
Qed.

Lemma deleteStep_missing_throws_witness :
  closed (View.steps example_view)
  /\ View.deleteStep "Z" example_view = TypeError example_view.
Proof.
  assert (Hc : closed (View.steps example_view)).
  { apply ConnectFacts.closedb_closed. vm_compute. reflexivity. }
  split; [exact Hc|].
  apply (deleteStep_missing_throws example_view "Z"%string Hc).
  reflexivity.
Defined.

(** C7, as stated, fails: a uuid that is no key but is still named by a
    connection is stripped from that connection before [deleteStep]
    throws, where it finds no wrapper for the connection. *)
Lemma deleteStep_missing_strips_dangling :
  get "ghost"%string (View.steps example_view_ghost) = None
  /\ View.deleteStep "ghost" example_view_ghost
     = TypeError (View.with_steps example_dangling_stripped example_view_ghost)
  /\ example_dangling_stripped <> View.steps example_view_ghost.
Proof.
  split; [reflexivity|]. split; [vm_compute; reflexivity | discriminate].
Qed.
End DeleteClaims.


(** ** Drawing the connections of a loaded pipeline *)

Module InitializeFacts.
Import JsObject JsObjectFacts GraphFacts WellFormedFacts.
Import Wrappers WrapperFacts DeleteViewFacts.

Lemma wrappers_from_app n l1 l2 :
  wrappers_from n (l1 ++ l2)
  = wrappers_from n l1 ++ wrappers_from (n + length l1) l2.
Proof.
  revert n. induction l1 as [|[s e] l1 IH]; intros n; simpl.
  - now rewrite Nat.add_0_r.
  - rewrite IH. now rewrite Nat.add_succ_r.
Qed.

Lemma drawn_wrappers_from n l : drawn (wrappers_from n l) = l.
Proof.
  revert n. induction l as [|[s e] l IH]; intros n; [reflexivity|].
  cbn [wrappers_from]. rewrite drawn_cons. simpl. now rewrite IH.
Qed.

Lemma ids_wrappers_from n l :
  map object_id (wrappers_from n l) = seq n (length l).
Proof.
  revert n. induction l as [|[s e] l IH]; intros n; simpl; [reflexivity|].
  now rewrite IH.
Qed.

Section Dom.
Variables outgoingEl incomingEl : string -> bool.

(** The connections into one step that are drawn. *)
Local Abbreviation into step l :=
  (map (fun s => (s, uuid step))
       (filter (fun s => outgoingEl s && incomingEl (uuid step)) l)).

Lemma draw_loop step l : forall v,
  for_each l
    (fun startNodeUUID =>
       if outgoingEl startNodeUUID && incomingEl (uuid step)
       then View.createConnection startNodeUUID (Some (uuid step))
       else ret tt) v
  = Returned tt
      (View.with_created (View.created v + length (into step l))
         (View.with_connections
            (View.connections v ++ wrappers_from (View.created v) (into step l))
            v)).
Proof.
  induction l as [|s l IH]; intros v; cbn [for_each].
  - simpl. rewrite Nat.add_0_r, app_nil_r. now destruct v.
  - unfold bind. cbn [filter].
    destruct (outgoingEl s && incomingEl (uuid step)).
    + unfold View.createConnection at 1. rewrite IH.
      destruct v as [g pj sel op om uc ws nc ip cr].
      unfold View.with_created, View.with_connections.
      cbn [View.steps View.pipelineJson View.selectedSteps View.openedStep
           View.openedMultistep View.unsavedChanges View.connections
           View.newConnection View.initializedPipeline View.created
           map length wrappers_from].
      f_equal. f_equal; [now rewrite <- app_assoc | lia].
    + unfold ret at 1. apply IH.
Qed.

Lemma draw_all ks : forall v,
  for_each ks
    (fun key v' =>
       if hasOwnProperty key (View.steps v')
       then View.draw_incoming outgoingEl incomingEl key v'
       else Returned tt v') v
  = Returned tt
      (let l := flat_map (fun step => into step (incoming_connections step))
                  (flat_map (fun k => match get k (View.steps v) with
                                      | Some st => [st]
                                      | None => []
                                      end) ks) in
       View.with_created (View.created v + length l)
         (View.with_connections
            (View.connections v ++ wrappers_from (View.created v) l) v)).
Proof.
  induction ks as [|k ks IH]; intros v; cbn [for_each].
  - simpl. rewrite Nat.add_0_r, app_nil_r. now destruct v.
  - unfold bind. unfold hasOwnProperty at 1.
    cbn [flat_map].
    destruct (get k (View.steps v)) as [st|] eqn:Ek.
    + unfold View.draw_incoming, bind, View.on_steps, step_ref.
      rewrite Ek.
      replace (View.with_steps (View.steps v) v) with v by now destruct v.
      rewrite draw_loop. rewrite IH.
      destruct v as [g pj sel op om uc ws nc ip cr].
      unfold View.with_created, View.with_connections.
      cbn [View.steps View.pipelineJson View.selectedSteps View.openedStep
           View.openedMultistep View.unsavedChanges View.connections
           View.newConnection View.initializedPipeline View.created].
      cbv zeta. cbn [app flat_map].
      rewrite wrappers_from_app, length_app, <- app_assoc.
      f_equal. f_equal. lia.
    + apply IH.
Qed.

(** X12.  [initializePipeline] draws one wrapper for every connection whose
    two dots are found, step by step in the order of the steps and of their
    [incoming_connections], and leaves everything else as it is; called once
    more, it does nothing. *)
Theorem initializePipeline_draws_connections v :
  (View.initializedPipeline v = false ->
   View.initializePipeline outgoingEl incomingEl v
   = Returned tt
       (View.with_created
          (View.created v
           + length (connections_to_draw outgoingEl incomingEl (View.steps v)))
          (View.with_connections
             (View.connections v
              ++ wrappers_from (View.created v)
                   (connections_to_draw outgoingEl incomingEl (View.steps v)))
             (View.with_initializedPipeline true v))))
  /\ (View.initializedPipeline v = true ->
      View.initializePipeline outgoingEl incomingEl v = Returned tt v)
  /\ drawn (wrappers_from (View.created v)
              (connections_to_draw outgoingEl incomingEl (View.steps v)))
     = connections_to_draw outgoingEl incomingEl (View.steps v).
Proof.
  split; [|split].
  - intros Hi. unfold View.initializePipeline. rewrite Hi.
    unfold View.for_in_steps. rewrite draw_all. reflexivity.
  - intros Hi. unfold View.initializePipeline. now rewrite Hi.
  - apply drawn_wrappers_from.
Qed.

Lemma In_own_values {V} (o : JsObject.t V) x :
  In x (own_values o) <-> exists k, get k o = Some x.
Proof.
  unfold own_values. rewrite in_flat_map. split.
  - intros (k & _ & H). exists k. destruct (get k o); [|destruct H].
    destruct H as [<-|[]]. reflexivity.
  - intros (k & E). exists k. split; [now apply get_Some_keys with x|].
    rewrite E. now left.
Qed.

Lemma In_get_NoDup {V} (o : JsObject.t V) k x :
  NoDup (keys o) -> In (k, x) o -> get k o = Some x.
Proof.
  induction o as [|[k' x'] o IH]; simpl; [intros _ []|].
  intros Hnd [[= -> ->]|Hin].
  - now rewrite String.eqb_refl.
  - inversion Hnd as [|? ? Hk Hnd']; subst.
    destruct (String.eqb k' k) eqn:E; [|now apply IH].
    apply String.eqb_eq in E. subst k'. exfalso. apply Hk.
    apply in_map_iff. now exists (k, x).
Qed.

Lemma uuids_own_values g :
  NoDup (keys g) -> keyed g -> map uuid (own_values g) = keys g.
Proof.
  intros Hnd Hk. rewrite (EncodeFacts.own_values_NoDup g Hnd).
  unfold keys. rewrite map_map. apply map_ext_in. intros [k st] Hin.
  simpl. apply (Hk k st). now apply In_get_NoDup.
Qed.

Lemma In_into step l s t :
  In (s, t) (into step l)
  <-> t = uuid step /\ In s l
      /\ outgoingEl s = true /\ incomingEl (uuid step) = true.
Proof.
  rewrite in_map_iff. split.
  - intros (x & [= <- <-] & Hx). apply filter_In in Hx.
    rewrite andb_true_iff in Hx. tauto.
  - intros (-> & Hs & Ho & Hi). exists s. split; [reflexivity|].
    apply filter_In. rewrite andb_true_iff. tauto.
Qed.

Lemma NoDup_into step l : NoDup l -> NoDup (into step l).
Proof.
  intros H. apply (NoDup_filter (fun s => outgoingEl s && incomingEl (uuid step)))
    in H.
  induction H as [|x l' Hx Hl IH]; simpl; constructor; [|assumption].
  rewrite in_map_iff. intros (y & [= ->] & Hy). contradiction.
Qed.

Lemma NoDup_flat_into l :
  NoDup (map uuid l) ->
  (forall st, In st l -> NoDup (incoming_connections st)) ->
  NoDup (flat_map (fun step => into step (incoming_connections step)) l).
Proof.
  induction l as [|st l IH]; simpl; [constructor|].
  intros Hnd Hinc. inversion Hnd as [|? ? Hu Hnd']; subst.
  apply NoDup_app.
  - apply NoDup_into. apply Hinc. now left.
  - apply IH; [assumption|]. intros st' H. apply Hinc. now right.
  - intros [s t] H1 H2. apply In_into in H1. destruct H1 as (-> & _).
    apply in_flat_map in H2. destruct H2 as (st' & Hst' & H2).
    apply In_into in H2. destruct H2 as (E & _).
    apply Hu. rewrite E. now apply in_map.
Qed.

Lemma In_connections_to_draw g s t :
  keyed g ->
  (In (s, t) (connections_to_draw outgoingEl incomingEl g)
   <-> edge g s t /\ outgoingEl s = true /\ incomingEl t = true).
Proof.
  intros Hk. unfold connections_to_draw. rewrite in_flat_map. split.
  - intros (st & Hst & H). apply In_into in H.
    destruct H as (-> & Hs & Ho & Hi).
    apply In_own_values in Hst. destruct Hst as (k & Ek).
    rewrite (Hk k st Ek) in *. split; [now exists st | auto].
  - intros ((st & Et & Hs) & Ho & Hi). exists st.
    split; [apply In_own_values; now exists t|].
    apply In_into. rewrite (Hk t st Et). auto.
Qed.

(** X13.  Once the steps of a document have been decoded and
    [initializePipeline] has run, the component is consistent, provided the
    document stores every step under its own uuid, names no source twice,
    and every step of it has been rendered with its two dots. *)
Theorem loaded_pipeline_is_consistent doc :
  NoDup (keys (pj_steps doc)) -> keyed (pj_steps doc) ->
  no_duplicates (pj_steps doc) ->
  (forall u, outgoingEl u = true <-> get u (pj_steps doc) <> None) ->
  (forall u, incomingEl u = true <-> get u (pj_steps doc) <> None) ->
  exists v,
    View.initializePipeline outgoingEl incomingEl (View.loaded doc)
    = Returned tt v
    /\ View.steps v = map_values runtime_defaults (pj_steps doc)
    /\ drawn (View.connections v)
       = connections_to_draw outgoingEl incomingEl (View.steps v)
    /\ consistent v
    /\ View.selectedSteps v = [] /\ View.newConnection v = None
    /\ View.unsavedChanges v = false.
Proof.
  intros Hnd Hk Hn Hout Hin.
  set (g := map_values runtime_defaults (pj_steps doc)).
  assert (Hl : View.loaded doc
               = View.mk g
                   (Some (mkPipelineJSON (pj_other doc)
                            (decode_steps (pj_steps doc) (pj_steps doc))))
                   [] None false false [] None false 0).
  { unfold View.loaded, decodeJSON, fresh_state. cbn [steps].
    now rewrite (EncodeFacts.decode_steps_fresh _ Hnd). }
  rewrite Hl. unfold View.initializePipeline.
  cbn [View.initializedPipeline]. unfold View.for_in_steps.
  rewrite draw_all.
  cbn [View.steps View.created View.connections View.with_initializedPipeline
       View.pipelineJson View.selectedSteps View.openedStep
       View.openedMultistep View.unsavedChanges View.newConnection
       View.initializedPipeline].
  cbv zeta. fold (own_values g).
  fold (connections_to_draw outgoingEl incomingEl g).
  set (l := connections_to_draw outgoingEl incomingEl g).
  eexists. split; [reflexivity|].
  cbn [View.steps View.connections View.with_created View.with_connections
       View.selectedSteps View.newConnection View.unsavedChanges app].
  split; [reflexivity|]. split; [apply drawn_wrappers_from|].
  assert (Hget : forall k, get k g = option_map runtime_defaults
                                       (get k (pj_steps doc))).
  { intros k. apply get_map_values. }
  assert (Hkg : keyed g).
  { intros k st E. rewrite Hget in E.
    destruct (get k (pj_steps doc)) as [st0|] eqn:E0; [|discriminate].
    injection E as <-. simpl. now apply Hk. }
  assert (Hng : no_duplicates g).
  { intros k st E. rewrite Hget in E.
    destruct (get k (pj_steps doc)) as [st0|] eqn:E0; [|discriminate].
    injection E as <-. simpl. now apply (Hn k st0). }
  assert (Hndg : NoDup (keys g)).
  { unfold g. now rewrite keys_map_values. }
  assert (Hnone : forall k, get k g <> None <-> get k (pj_steps doc) <> None).
  { intros k. rewrite Hget. destruct (get k (pj_steps doc)); simpl;
      split; congruence. }
  split; [|auto].
  split; [exact Hkg|]. split; [exact Hng|].
  unfold in_sync.
  cbn [View.steps View.connections View.created View.with_created
       View.with_connections View.with_initializedPipeline].
  rewrite ids_wrappers_from, drawn_wrappers_from.
  split; [apply seq_NoDup|].
  split.
  { intros c Hc. apply (in_map object_id) in Hc.
    rewrite ids_wrappers_from in Hc. apply in_seq in Hc. lia. }
  split.
  { unfold l, connections_to_draw. apply NoDup_flat_into.
    - rewrite (uuids_own_values g Hndg Hkg). exact Hndg.
    - intros st Hst. apply In_own_values in Hst. destruct Hst as (k & E).
      now apply (Hng k st). }
  intros s t. unfold l. rewrite (In_connections_to_draw g s t Hkg).
  rewrite Hout, Hin. split.
  - intros (He & Hs & _). split; [assumption | now apply Hnone].
  - intros [He Hs]. split; [assumption|]. split; [now apply Hnone|].
    apply Hnone. destruct He as (st & E & _). congruence.
Qed.
End Dom.

Lemma loaded_pipeline_is_consistent_witness :
  exists v,
    View.initializePipeline example_rendered example_rendered
      (View.loaded example_document) = Returned tt v
    /\ View.steps v
       = map_values runtime_defaults (pj_steps example_document)
    /\ drawn (View.connections v)
       = connections_to_draw example_rendered example_rendered (View.steps v)
    /\ consistent v
    /\ View.selectedSteps v = [] /\ View.newConnection v = None
    /\ View.unsavedChanges v = false.
Proof.
  apply (loaded_pipeline_is_consistent example_rendered example_rendered
           example_document).
  - apply (ConsistentFacts.nodupb_NoDup String.eqb); [apply String.eqb_eq | reflexivity].
  - apply ConsistentFacts.keyedb_keyed. reflexivity.
  - apply ConsistentFacts.no_duplicatesb_no_duplicates. reflexivity.
  - intros u. apply JsObjectFacts.hasOwnProperty_true.
  - intros u. apply JsObjectFacts.hasOwnProperty_true.
Defined.
End InitializeFacts.

(** ** Dragging a connection *)

Module DragFacts.
Import JsObject JsObjectFacts JsArrayFacts GraphFacts CycleCheckFacts
       ConnectFacts WellFormedFacts.
Import Wrappers WrapperFacts DeleteViewFacts.

Ltac view_simpl :=
  cbn [View.with_steps View.with_connections View.with_newConnection
       View.with_created View.with_unsavedChanges View.with_selectedSteps
       View.with_openedStep View.with_openedMultistep
       View.with_initializedPipeline View.with_pipelineJson
       View.steps View.connections View.created View.newConnection
       View.pipelineJson View.selectedSteps View.openedStep
       View.openedMultistep View.unsavedChanges View.initializedPipeline].

Lemma setEndNode_fresh id t ws :
  (forall c, In c ws -> object_id c < id) -> setEndNode id t ws = ws.
Proof.
  intros H. unfold setEndNode. rewrite <- (map_id ws) at 2.
  apply map_ext_in. intros c Hc. specialize (H c Hc).
  destruct (Nat.eqb (object_id c) id) eqn:E; [|reflexivity].
  apply Nat.eqb_eq in E. lia.
Qed.

Lemma released_elsewhere fuel s t g :
  mouseup_newConnection fuel false s t g
  = Returned (mkConnectResult false []) g.
Proof. reflexivity. Qed.

(** What the listener does to the steps, as far as the wrappers need it. *)
Lemma mouseup_newConnection_cases fuel dragEnded s t g r g' :
  mouseup_newConnection fuel dragEnded s t g = Returned r g' ->
  (connected r = false /\ same_but_outgoing g' g)
  \/ (connected r = true /\ same_but_outgoing g' (add_edge s t g)
      /\ closed (add_edge s t g)
      /\ exists st, get t g = Some st /\ ~ In s (incoming_connections st)).
Proof.
  destruct dragEnded.
  - intros E. pose proof (connect_spec fuel s t g) as H.
    unfold connect in H. rewrite E in H.
    destruct H as (st & Et & [(_ & -> & ->)|[(_ & _ & _ & -> & Hs)|H]]).
    + left. split; [reflexivity | apply same_but_outgoing_refl].
    + left. auto.
    + destruct H as (Hin & Hc & _ & -> & Hs). right.
      split; [reflexivity|]. split; [assumption|]. split; [assumption|].
      now exists st.
  - rewrite released_elsewhere. intros [= <- <-]. left.
    split; [reflexivity | apply same_but_outgoing_refl].
Qed.

Lemma NoDup_snoc_nat (x : nat) l : NoDup l -> ~ In x l -> NoDup (l ++ [x]).
Proof.
  intros Hl Hx. induction Hl as [|y l Hy Hl IH]; simpl.
  - constructor; [intros []|constructor].
  - constructor.
    + rewrite in_app_iff. simpl. intros [H|[H|[]]]; [contradiction|].
      subst. apply Hx. now left.
    + apply IH. intros H. apply Hx. now right.
Qed.

Lemma NoDup_snoc_pair (x : string * string) l :
  NoDup l -> ~ In x l -> NoDup (l ++ [x]).
Proof.
  intros Hl Hx. induction Hl as [|y l Hy Hl IH]; simpl.
  - constructor; [intros []|constructor].
  - constructor.
    + rewrite in_app_iff. simpl. intros [H|[H|[]]]; [contradiction|].
      subst. apply Hx. now left.
    + apply IH. intros H. apply Hx. now right.
Qed.

(** X14.  A drag from the outgoing dot of a step, from the button going down
    to the button going up: whenever the listener returns, a consistent
    component is consistent again and no connection is being dragged any
    more; the steps are those that the listener on the steps leaves, with
    the same alerts; and the array of wrappers has one wrapper more, for the
    connection from the step of the dot to the target, exactly when the
    connection was made. *)
Theorem drag_keeps_consistent v s fuel dragEnded t raised v2 :
  consistent v ->
  (View.mousedown_outgoing s ;;; View.mouseup fuel dragEnded t) v
  = Returned raised v2 ->
  consistent v2
  /\ View.newConnection v2 = None
  /\ exists r,
       mouseup_newConnection fuel dragEnded s t (View.steps v)
       = Returned r (View.steps v2)
       /\ raised = alerts r
       /\ View.connections v2
          = View.connections v
            ++ (if connected r
                then [mkConnectionDOMWrapper (View.created v) s (Some t)]
                else []).
Proof.
  intros (Hk & Hn & Hid & Hcr & Hnd & Hdr).
  destruct v as [g pj sel op om uc ws nc ip cr].
  cbn [View.steps View.connections View.created] in *.
  unfold bind, View.mousedown_outgoing, View.createConnection, View.mouseup.
  cbn [View.steps View.connections View.created View.newConnection
       View.with_created View.with_connections View.with_newConnection
       View.pipelineJson View.selectedSteps View.openedStep
       View.openedMultistep View.unsavedChanges View.initializedPipeline
       startNodeUUID object_id].
  destruct (mouseup_newConnection fuel dragEnded s t g) as [r g'| |] eqn:E;
    [|discriminate..].
  intros [= <- <-].
  set (c0 := mkConnectionDOMWrapper cr s None).
  assert (Hfresh : ~ In (object_id c0) (map object_id ws)).
  { intros H. apply in_map_iff in H. destruct H as (c & Ec & Hc).
    apply Hcr in Hc. unfold c0 in Ec. simpl in Ec.
    rewrite Ec in Hc. now apply Nat.lt_irrefl in Hc. }
  destruct (mouseup_newConnection_cases _ _ _ _ _ _ _ E)
    as [[Hr Hs]|(Hr & Hs & Hc & st & Et & Hin)]; rewrite Hr; cbv iota.
  - (* no connection: the wrapper leaves the array *)
    cbn [View.with_steps View.with_connections View.with_newConnection
         View.with_created View.with_unsavedChanges
         View.steps View.connections View.created View.newConnection
         View.pipelineJson View.selectedSteps View.openedStep
         View.openedMultistep View.unsavedChanges View.initializedPipeline].
    unfold indexOf. rewrite (indexOf_from_found 0 c0 ws [] Hfresh).
    simpl Z.add. rewrite splice_middle, !app_nil_r.
    split; [|split; [reflexivity|]].
    + split; [view_simpl; now apply keyed_same_but_outgoing with g|].
      split; [view_simpl; now apply no_duplicates_same_but_outgoing with g|].
      unfold in_sync. view_simpl.
      split; [assumption|].
      split; [intros c Hc; apply Hcr in Hc; lia|].
      split; [assumption|].
      intros a b. rewrite Hdr.
      pose proof (same_but_outgoing_edge g' g a b Hs).
      pose proof (same_but_outgoing_None g' g a Hs). tauto.
    + exists r. split; [reflexivity|]. split; [reflexivity|].
      rewrite Hr. now rewrite app_nil_r.
  - (* the connection is made: the wrapper gets its end *)
    cbn [View.with_steps View.with_connections View.with_newConnection
         View.with_created View.with_unsavedChanges
         View.steps View.connections View.created View.newConnection
         View.pipelineJson View.selectedSteps View.openedStep
         View.openedMultistep View.unsavedChanges View.initializedPipeline].
    assert (Hset : setEndNode cr t (ws ++ [c0])
                   = ws ++ [mkConnectionDOMWrapper cr s (Some t)]).
    { unfold setEndNode at 1. rewrite map_app.
      fold (setEndNode cr t ws). rewrite (setEndNode_fresh cr t ws Hcr).
      simpl. now rewrite Nat.eqb_refl. }
    rewrite Hset.
    assert (Ht : get t g <> None) by congruence.
    assert (Hsg : get s g <> None).
    { now apply (closed_add_edge s t g Ht). }
    split; [|split; [reflexivity|]].
    + split; [|split].
      * view_simpl. apply keyed_same_but_outgoing with (1 := Hs).
        now apply keyed_add_edge.
      * view_simpl. apply no_duplicates_same_but_outgoing with (1 := Hs).
        now apply no_duplicates_add_edge with st.
      * unfold in_sync. view_simpl.
        rewrite map_app, drawn_app. cbn [map object_id].
        rewrite drawn_cons. cbn [endNodeUUID startNodeUUID drawn flat_map app].
        split; [now apply NoDup_snoc_nat|].
        split.
        { intros c Hc'. apply in_app_iff in Hc'.
          destruct Hc' as [Hc'|[<-|[]]]; [apply Hcr in Hc'; lia | simpl; lia]. }
        assert (Hnot : ~ In (s, t) (drawn ws)).
        { intros H. apply Hdr in H. destruct H as [He _].
          apply Hin. now apply (edge_to_key g s t st Et). }
        split; [now apply NoDup_snoc_pair|].
        intros a b. rewrite in_app_iff, Hdr.
        rewrite (same_but_outgoing_edge g' _ a b Hs).
        rewrite (edge_add_edge s t g a b Ht).
        assert (Hg : get a g' <> None <-> get a g <> None).
        { rewrite (same_but_outgoing_None g' _ a Hs).
          now rewrite get_add_edge_None. }
        rewrite Hg. simpl. split.
        -- intros [[He Ha]|[[= <- <-]|[]]]; [tauto|]. split; [|assumption].
           right. auto.
        -- intros [[He|[-> ->]] Ha]; [tauto|]. right. now left.
    + exists r. split; [reflexivity|]. split; [reflexivity|].
      now rewrite Hr.
Qed.

Lemma drag_keeps_consistent_witness :
  consistent example_view_dragged
  /\ View.newConnection example_view_dragged = None
  /\ exists r,
       mouseup_newConnection 4 true "A" "C" (View.steps example_view)
       = Returned r (View.steps example_view_dragged)
       /\ [] = alerts r
       /\ View.connections example_view_dragged
          = View.connections example_view
            ++ (if connected r
                then [mkConnectionDOMWrapper (View.created example_view)
                        "A" (Some "C"%string)]
                else []).
Proof.
  apply (drag_keeps_consistent example_view "A" 4 true "C" []
           example_view_dragged)%string.
  - exact ConsistentFacts.example_view_consistent.
  - vm_compute. reflexivity.
Defined.
End DragFacts.

(** ** New steps *)

Module NewStepFacts.
Import JsObject JsObjectFacts GraphFacts CycleCheckFacts WellFormedFacts.

Lemma edge_set_unconnected u st g a b :
  incoming_connections st = [] -> get u g = None ->
  (edge (set u st g) a b <-> edge g a b).
Proof.
  intros Hst Hu. unfold edge. split; intros (sb & E & Hin).
  - rewrite get_set in E. destruct (String.eqb u b) eqn:Eb.
    + injection E as <-. rewrite Hst in Hin. destruct Hin.
    + now exists sb.
  - exists sb. split; [|assumption]. rewrite get_set_other; [assumption|].
    intros ->. congruence.
Qed.

(** X15.  The callback of [newStep] with a uuid that no step has: the new
    step goes last, selected and opened in the details pane, without
    connections; the connections of the other steps and their wrappers are
    as before, a consistent component stays consistent, and no cycle
    appears.  With the uuid of an existing step, that step is replaced by
    the new one where it stands. *)
Theorem newStep_adds_an_unconnected_step v u result :
  (get u (View.steps v) = None ->
   exists v',
     View.newStep u result v = Returned tt v'
     /\ View.steps v' = View.steps v ++ [(u, new_step u result)]
     /\ View.selectedSteps v' = [u]
     /\ View.openedStep v' = Some u
     /\ View.connections v' = View.connections v
     /\ (forall a b, edge (View.steps v') a b <-> edge (View.steps v) a b)
     /\ (closed (View.steps v) -> closed (View.steps v'))
     /\ (closed (View.steps v) -> consistent v -> consistent v')
     /\ (acyclic (View.steps v) -> acyclic (View.steps v')))
  /\ (get u (View.steps v) <> None ->
      exists v',
        View.newStep u result v = Returned tt v'
        /\ keys (View.steps v') = keys (View.steps v)
        /\ get u (View.steps v') = Some (new_step u result)
        /\ incoming_of (View.steps v') u = Some []).
Proof.
  split.
  - intros Hu. eexists. split; [reflexivity|].
    cbn [View.steps View.selectedSteps View.openedStep View.connections
         View.with_selectedSteps View.with_openedStep View.with_steps uuid
         new_step].
    fold (new_step u result).
    assert (Hst : incoming_connections (new_step u result) = [])
      by reflexivity.
    assert (Hedge : forall a b,
               edge (set u (new_step u result) (View.steps v)) a b
               <-> edge (View.steps v) a b).
    { intros a b. now apply edge_set_unconnected. }
    assert (Hget : forall a, get a (View.steps v) <> None ->
                             get a (set u (new_step u result) (View.steps v))
                             <> None).
    { intros a Ha. rewrite get_set. destruct (String.eqb u a); congruence. }
    assert (Hclosed : closed (View.steps v) ->
                      closed (set u (new_step u result) (View.steps v))).
    { intros Hc. apply closed_edge. intros a b He. apply Hget.
      apply Hedge in He. revert He. now apply closed_edge. }
    split; [now apply set_absent|].
    split; [reflexivity|]. split; [reflexivity|]. split; [reflexivity|].
    split; [exact Hedge|]. split; [exact Hclosed|]. split.
    + intros Hc (Hk & Hn & Hid & Hcr & Hnd & Hdr). split; [|split].
      * cbn [View.steps View.with_selectedSteps View.with_openedStep
             View.with_steps].
        now apply keyed_set.
      * cbn [View.steps View.with_selectedSteps View.with_openedStep
             View.with_steps].
        apply no_duplicates_set; [assumption|]. rewrite Hst. constructor.
      * unfold in_sync.
        cbn [View.steps View.connections View.created
             View.with_selectedSteps View.with_openedStep View.with_steps].
        split; [assumption|]. split; [assumption|]. split; [assumption|].
        intros s t. rewrite Hdr, Hedge. split.
        -- intros [He Hs]. split; [assumption | now apply Hget].
        -- intros [He _]. split; [assumption|]. revert He.
           now apply closed_edge.
    + apply acyclic_fewer_edges. intros a b. apply Hedge.
  - intros Hu. eexists. split; [reflexivity|].
    cbn [View.steps View.with_selectedSteps View.with_openedStep
         View.with_steps uuid new_step].
    split; [now apply keys_set_present|].
    unfold incoming_of. rewrite get_set_same. split; reflexivity.
Qed.

Lemma newStep_adds_an_unconnected_step_witness :
  exists v',
    View.newStep "D" [mkEnvironment "env-1" "Python 3"] example_view
    = Returned tt v'
    /\ View.steps v'
       = View.steps example_view
         ++ [("D"%string,
              new_step "D" [mkEnvironment "env-1" "Python 3"])]
    /\ View.selectedSteps v' = ["D"%string]
    /\ View.openedStep v' = Some "D"%string
    /\ consistent v'.
Proof.
  destruct (proj1 (newStep_adds_an_unconnected_step example_view "D"
                     [mkEnvironment "env-1" "Python 3"]) eq_refl)%string
    as (v' & Hrun & Hsteps & Hsel & Hop & _ & _ & _ & Hc & _).
  exists v'. split; [exact Hrun|]. split; [exact Hsteps|].
  split; [exact Hsel|]. split; [exact Hop|].
  apply Hc; [|exact ConsistentFacts.example_view_consistent].
  apply ConnectFacts.closedb_closed. vm_compute. reflexivity.
Defined.
End NewStepFacts.

(** ** Documents *)

Module DocumentFacts.
Import JsObject JsObjectFacts EncodeFacts WellFormedFacts InitializeFacts.

Lemma strip_loop_filter ks : forall m : JsObject.t JSON,
  fold_left (fun m key => if is_private key then remove key m else m) ks m
  = filter (fun e => negb (is_private (fst e)
                           && existsb (String.eqb (fst e)) ks)) m.
Proof.
  induction ks as [|k ks IH]; intros m; cbn [fold_left].
  - symmetry. apply WrapperFacts.filter_all. intros e _.
    simpl. now rewrite andb_false_r.
  - rewrite IH. destruct (is_private k) eqn:Ek.
    + unfold remove. rewrite WrapperFacts.filter_twice.
      apply filter_ext. intros [k' x]. cbn [fst existsb].
      destruct (String.eqb k' k) eqn:E; simpl.
      * apply String.eqb_eq in E. subst k'. now rewrite Ek.
      * reflexivity.
    + apply filter_ext. intros [k' x]. cbn [fst existsb].
      destruct (String.eqb k' k) eqn:E; simpl; [|reflexivity].
      apply String.eqb_eq in E. subst k'. now rewrite Ek.
Qed.

(** The private keys of [meta_data] are deleted and the other entries are
    left in their order. *)
Lemma strip_private_filter m :
  strip_private m = filter (fun e => negb (is_private (fst e))) m.
Proof.
  unfold strip_private. rewrite strip_loop_filter.
  apply filter_ext_in. intros [k x] Hin. cbn [fst].
  assert (H : existsb (String.eqb k) (keys m) = true).
  { apply existsb_exists. exists k. split; [|apply String.eqb_refl].
    apply in_map_iff. now exists (k, x). }
  now rewrite H, andb_true_r.
Qed.

Lemma filter_set_private k (x : JSON) m :
  is_private k = true ->
  filter (fun e => negb (is_private (fst e))) (set k x m)
  = filter (fun e => negb (is_private (fst e))) m.
Proof.
  intros Hk. induction m as [|[k' x'] m IH]; simpl.
  - now rewrite Hk.
  - destruct (String.eqb k' k) eqn:E; simpl.
    + apply String.eqb_eq in E. subst k'. now rewrite Hk.
    + now rewrite IH.
Qed.

Lemma encode_step_runtime_defaults st :
  encode_step (runtime_defaults st) = encode_step st.
Proof.
  unfold encode_step, runtime_defaults. cbn [meta_data with_meta_data
    outgoing_connections].
  rewrite !strip_private_filter, !filter_set_private by reflexivity.
  destruct st; reflexivity.
Qed.

Lemma encode_step_persistent st :
  outgoing_connections st = None ->
  (forall key, In key (keys (meta_data st)) -> is_private key = false) ->
  encode_step st = st.
Proof.
  intros Ho Hm. unfold encode_step. cbn [outgoing_connections with_meta_data].
  rewrite Ho, strip_private_filter.
  rewrite WrapperFacts.filter_all.
  - now destruct st.
  - intros [k x] Hin. cbn [fst]. rewrite Hm; [reflexivity|].
    apply in_map_iff. now exists (k, x).
Qed.

(** [encodeJSON] on steps stored under their uuids: the steps of the
    document are the steps of the state, under the same keys in the same
    order, each without its private keys and its
    [outgoing_connections]. *)
Lemma encodeJSON_keyed st :
  NoDup (keys (steps st)) -> keyed (steps st) ->
  pj_steps (encodeJSON st) = map_values encode_step (steps st).
Proof.
  intros Hnd Hk. rewrite encodeJSON_steps.
  2:{ rewrite (uuids_own_values _ Hnd Hk). exact Hnd. }
  rewrite (own_values_NoDup _ Hnd). rewrite map_map. unfold map_values.
  apply map_ext_in. intros [k s] Hin. cbn [fst snd]. f_equal.
  apply (Hk k s). now apply In_get_NoDup.
Qed.

Lemma map_values_id (f : Step -> Step) (g : Steps) :
  (forall k st, In (k, st) g -> f st = st) -> map_values f g = g.
Proof.
  intros H. unfold map_values. rewrite <- (map_id g) at 2.
  apply map_ext_in. intros [k st] Hin. cbn [fst snd].
  now rewrite (H k st Hin).
Qed.

Lemma map_values_twice (f h : Step -> Step) (g : Steps) :
  map_values f (map_values h g) = map_values (fun st => f (h st)) g.
Proof. unfold map_values. rewrite map_map. reflexivity. Qed.

(** X16.  A document that is loaded and encoded again: when it stores every
    step under its own uuid, the encoded document has the same other
    properties and the same steps under the same keys in the same order,
    each without private keys in [meta_data] and without
    [outgoing_connections]; when the document had none of these, as a
    document that [encodeJSON] has written, it is the same document. *)
Theorem decode_encode_round_trip doc :
  (NoDup (keys (pj_steps doc)) -> keyed (pj_steps doc) ->
   encodeJSON (decodeJSON doc (fresh_state doc))
   = mkPipelineJSON (pj_other doc) (map_values encode_step (pj_steps doc)))
  /\ (persistent (pj_steps doc) ->
      encodeJSON (decodeJSON doc (fresh_state doc)) = doc).
Proof.
  assert (H : NoDup (keys (pj_steps doc)) -> keyed (pj_steps doc) ->
              encodeJSON (decodeJSON doc (fresh_state doc))
              = mkPipelineJSON (pj_other doc)
                  (map_values encode_step (pj_steps doc))).
  { intros Hnd Hk.
    set (st := decodeJSON doc (fresh_state doc)).
    assert (Hs : steps st = map_values runtime_defaults (pj_steps doc)).
    { unfold st, decodeJSON, fresh_state. cbn [steps].
      now apply decode_steps_fresh. }
    assert (Hd : pj_steps (encodeJSON st)
                 = map_values encode_step (pj_steps doc)).
    { rewrite encodeJSON_keyed; rewrite Hs.
      - rewrite map_values_twice. unfold map_values. apply map_ext.
        intros [k x]. cbn [fst snd]. now rewrite encode_step_runtime_defaults.
      - now rewrite keys_map_values.
      - intros k x. rewrite get_map_values.
        destruct (get k (pj_steps doc)) as [x0|] eqn:E; [|discriminate].
        intros [= <-]. simpl. now apply Hk. }
    rewrite <- Hd. reflexivity. }
  split; [exact H|].
  intros (Hnd & Hk & Hp). rewrite (H Hnd Hk).
  rewrite map_values_id; [now destruct doc|].
  intros k st Hin. apply (In_get_NoDup _ _ _ Hnd) in Hin.
  destruct (Hp k st Hin) as [Ho Hm]. now apply encode_step_persistent.
Qed.

Lemma example_saved_document_persistent :
  persistent (pj_steps example_saved_document).
Proof.
  split; [|split].
  - apply (ConsistentFacts.nodupb_NoDup String.eqb); [apply String.eqb_eq | reflexivity].
  - apply ConsistentFacts.keyedb_keyed. reflexivity.
  - intros k st E. apply JsObjectFacts.get_Some_In in E. simpl in E.
    destruct E as [[= <- <-]|[[= <- <-]|[]]]; (split; [reflexivity|]);
      simpl; intros key [<-|[<-|[]]]; reflexivity.
Qed.

Lemma decode_encode_round_trip_witness :
  encodeJSON (decodeJSON example_saved_document
                (fresh_state example_saved_document))
  = example_saved_document.
Proof.
  apply (proj2 (decode_encode_round_trip example_saved_document)).
  exact example_saved_document_persistent.
Defined.

(** X17.  The document that is saved and the document that is sent for a
    run: once a document has been loaded, [getPipelineJSON] hands out the
    steps of the state as they are, and stores them in
    [this.state.pipelineJson]; [encodeJSON] writes the same steps under the
    same keys in the same order, each without its private keys and without
    [outgoing_connections], which the steps of [getPipelineJSON] still
    carry.  Before a document has been loaded, [getPipelineJSON] throws and
    changes nothing. *)
Theorem getPipelineJSON_sends_the_steps_as_they_are v :
  match View.pipelineJson v with
  | Some loaded =>
      exists d,
        getPipelineJSON v = Returned d (View.with_pipelineJson (Some d) v)
        /\ pj_steps d = View.steps v
        /\ pj_other d = pj_other loaded
        /\ (NoDup (keys (View.steps v)) -> keyed (View.steps v) ->
            encodeJSON (mkState (View.steps v) loaded)
            = mkPipelineJSON (pj_other d)
                (map_values encode_step (pj_steps d)))
        /\ (forall k st,
              get k (map_values encode_step (pj_steps d)) = Some st ->
              outgoing_connections st = None
              /\ forall key, is_private key = true ->
                             get key (meta_data st) = None)
  | None => getPipelineJSON v = TypeError v
  end.
Proof.
  unfold getPipelineJSON.
  destruct (View.pipelineJson v) as [loaded|]; [|reflexivity].
  eexists. split; [reflexivity|]. cbn [pj_steps pj_other].
  split; [reflexivity|]. split; [reflexivity|]. split.
  - intros Hnd Hk.
    pose proof (encodeJSON_keyed (mkState (View.steps v) loaded) Hnd Hk) as H.
    cbn [steps] in H. rewrite <- H. reflexivity.
  - intros k st. rewrite get_map_values.
    destruct (get k (View.steps v)) as [st0|]; [|discriminate].
    intros [= <-]. split; [apply encode_step_outgoing|].
    intros key Hp. now rewrite encode_step_meta_data, Hp.
Qed.
End DocumentFacts.

(** ** Saving *)

Module SaveFacts.
Import JsObject JsObjectFacts ValidateFacts.

Section WithExtension.
Variable extensionFromFilename : string -> string.

(** X18.  How [savePipeline] ends.  In read-only mode it logs an error and
    leaves the component as it is.  Otherwise, before a document has been
    loaded it throws in [encodeJSON] and leaves the component as it is;
    when the encoded state has two steps of different uuid on one notebook
    it posts nothing, raises one alert, in which the title and the uuid of
    both steps of such a pair occur, and leaves the component as it is;
    and when there is no such pair it posts the encoded state and clears
    [unsavedChanges].  So it never posts in read-only mode, and never
    posts a document in which two steps share a notebook. *)
Theorem savePipeline_posts_valid_documents readOnly v :
  match savePipeline extensionFromFilename readOnly v with
  | (Posted pipeline_json, v') =>
      readOnly = false
      /\ (exists loaded,
            View.pipelineJson v = Some loaded
            /\ pipeline_json = encodeJSON (mkState (View.steps v) loaded))
      /\ v' = View.with_unsavedChanges false v
      /\ ~ (exists s o,
              notebook_conflict extensionFromFilename
                (pj_steps pipeline_json) s o)
  | (Alerted messages, v') =>
      readOnly = false /\ v' = v
      /\ exists loaded s o message,
           View.pipelineJson v = Some loaded
           /\ notebook_conflict extensionFromFilename
                (pj_steps (encodeJSON (mkState (View.steps v) loaded))) s o
           /\ messages = [message]
           /\ message = validation_error s o
           /\ names_step message s /\ names_step message o
  | (LoggedReadOnly, v') => readOnly = true /\ v' = v
  | (ThrownSyntaxError, v') =>
      readOnly = false /\ View.pipelineJson v = None /\ v' = v
  end.
Proof.
  unfold savePipeline.
  destruct readOnly; cbn [negb]; [auto|].
  destruct (View.pipelineJson v) as [loaded|]; [|auto].
  set (doc := encodeJSON (mkState (View.steps v) loaded)).
  unfold validatePipelineJSON, notebook_conflict.
  destruct (validate_loop_spec extensionFromFilename
              (own_values (pj_steps doc)) (own_values (pj_steps doc)))
    as [[Hv Hno]|(s & o & Hs & Ho & He & Hu & Hf & Hv)]; rewrite Hv;
    cbn [valid errors negb].
  - split; [reflexivity|]. split; [now exists loaded|].
    split; [reflexivity|].
    intros (s & o & Hs & Ho & He & Hu & Hf). apply Hu. now apply (Hno s o).
  - split; [reflexivity|]. split; [reflexivity|].
    exists loaded, s, o, (validation_error s o).
    split; [reflexivity|]. split; [repeat split; auto|].
    split; [reflexivity|]. split; [reflexivity|].
    apply validation_error_names.
Qed.
End WithExtension.
End SaveFacts.

(** ** The scenarios of the specification, run *)

Module Scenarios.
Import JsObject.

(** Steps A, B and C: [connect(A, B)] and [connect(B, C)] succeed, and
    [connect(C, A)] raises the cycle alert and leaves A without sources. *)
Example connect_scenario :
  exists g1 g2 g3,
    connect 4 "A" "B" example_abc = Returned (mkConnectResult true []) g1
    /\ incoming_of g1 "B" = Some ["A"%string]
    /\ connect 4 "B" "C" g1 = Returned (mkConnectResult true []) g2
    /\ incoming_of g2 "C" = Some ["B"%string]
    /\ connect 4 "C" "A" g2
       = Returned (mkConnectResult false [CycleError]) g3
    /\ incoming_of g3 "A" = Some [].
Proof.
  do 3 eexists.
  split; [vm_compute; reflexivity|]. split; [reflexivity|].
  split; [vm_compute; reflexivity|]. split; [reflexivity|].
  split; [vm_compute; reflexivity|]. reflexivity.
Qed.

(** Two separate pairs: the search starts at P, and the cycle that S -> R
    would close lies in the other pair. *)
Example cycle_in_second_component :
  exists g1 g2,
    willCreateCycle 5 "S" "R" example_two_components = Returned true g1
    /\ willCreateCycle 5 "Q" "R" example_two_components
       = Returned false g2.
Proof.
  do 2 eexists. split; vm_compute; reflexivity.
Qed.

(** The chain A -> B -> C without B: C is left without sources, and no
    wrapper is left. *)
Example delete_middle_of_chain :
  exists v',
    View.deleteStep "B" example_view = Returned tt v'
    /\ View.steps v' = example_chain_without_B
    /\ incoming_of (View.steps v') "C" = Some []
    /\ View.connections v' = [].
Proof.
  eexists. split; [vm_compute; reflexivity|]. repeat split.
Qed.

(** The SAVE button before the document has arrived, and after. *)
Example save_before_and_after_load :
  savePipeline example_extension false View.constructed
  = (ThrownSyntaxError, View.constructed)
  /\ savePipeline example_extension false
       (View.loaded example_saved_document)
     = (Posted example_saved_document, View.loaded example_saved_document).
Proof. split; reflexivity. Qed.

(** A disconnect of a connection that does not exist changes nothing. *)
Example disconnect_missing_connection :
  removeConnection "C" "A" example_chain = Returned tt example_chain.
Proof. reflexivity. Qed.
End Scenarios.
